(** * glogger: a shallow embedding of the log distribution service

    The development follows the Go packages of the repository:
    [models] (log records and typed fields), [interfaces] (the publisher
    contract), [zap] (the bundled publisher) and [glog] (the front-end
    logger and the [LoggerService] pipeline).

    Sequential code is embedded as functions.  The goroutines of the
    service (producers' sends, the main worker, the worker pool, the
    per-job publish goroutines and the caller of [Stop]) are embedded as
    an executable interleaving semantics: every atomic move of a goroutine
    is an action, [exec] performs one action on the shared state, and a
    run is a list of actions. *)

From Stdlib Require Import Floats.SpecFloat.
From stdpp Require Import gmap strings list fin_maps pretty.

Open Scope string_scope.
Open Scope list_scope.
Open Scope Z_scope.

(** ** What a Go call can do besides returning *)

(** A call returns, blocks (on a channel operation), or panics. *)
Inductive outcome (A : Type) : Type :=
  | Returns (a : A)
  | Blocks
  | Panics (msg : string).
Arguments Returns {A} a.
Arguments Blocks {A}.
Arguments Panics {A} msg.

(** A value of type [interface{}]. *)
Inductive any : Type :=
  | AnyNil
  | AnyInt (z : Z)
  | AnyFloat (f : spec_float)
  | AnyString (s : string)
  | AnyBool (b : bool).

(** ** Package context (the part the repository uses) *)
Module context.

(** A non-nil [context.Context] is a chain of [WithValue] frames over
    [Background()], innermost frame first. *)
Definition Context (K : Type) : Type := list (K * any).

Definition Background {K} : Context K := [].

Definition WithValue {K} (parent : Context K) (key : K) (val : any) : Context K :=
  (key, val) :: parent.

(** [ctx.Value(key)]: the innermost binding of [key], [nil] when there
    is none. *)
Fixpoint Value {K} `{EqDecision K} (ctx : Context K) (key : K) : any :=
  match ctx with
  | [] => AnyNil
  | (k, v) :: parent => if decide (k = key) then v else Value parent key
  end.

End context.

(** ** Package models *)
Module models.

(** [type LogLevel int8] *)
Definition LogLevel : Type := Z.

Definition DebugLevel : LogLevel := -1.
Definition InfoLevel : LogLevel := 0.
Definition WarnLevel : LogLevel := 1.
Definition ErrorLevel : LogLevel := 2.
Definition DPanicLevel : LogLevel := 3.
Definition PanicLevel : LogLevel := 4.
Definition FatalLevel : LogLevel := 5.

Definition FieldErrKey : string := "error".
Definition FieldComponentKey : string := "component".
Definition FieldFilenameKey : string := "filename".

(** [type FieldType int8] *)
Definition FieldType : Type := Z.

Definition FieldTypeString : FieldType := 0.
Definition FieldTypeInt : FieldType := 1.
Definition FieldTypeFloat : FieldType := 2.
Definition FieldTypeObject : FieldType := 3.

(** Modelled from the spec: the declaration of the two well-known
    context keys [AppID] and [EnvName] is not among the sources; the
    spec describes them as an application identifier and an environment
    name.  [OtherKey] stands for any key of the application's own. *)
Inductive ContextKey : Type :=
  | AppID
  | EnvName
  | OtherKey (name : string).

#[export] Instance ContextKey_eq_dec : EqDecision ContextKey.
Proof. solve_decision. Defined.

Record LogField : Type := mkLogField {
  Key : string;
  Type_ : FieldType;
  Integer : Z;
  Float : spec_float;
  String : string;
  Object : any;
}.

(** The zero value of the struct, which a composite literal
    [&LogField{...}] fills in for the fields it omits. *)
Definition zeroLogField : LogField :=
  {| Key := ""; Type_ := 0; Integer := 0; Float := S754_zero false;
     String := ""; Object := AnyNil |}.

(** [Ctx] is an interface value and may be nil ([None]).  [Fields] is a
    slice of pointers; an element may be nil ([None]).  A field that is
    not nil is embedded by its content: that two records hold the same
    [*LogField] (the records of one call of [Errors] share the pointers of
    the options) is not represented, and neither is a write through such
    a pointer. *)
Record LogData : Type := mkLogData {
  Ctx : option (context.Context ContextKey);
  Msg : string;
  Fields : list (option LogField);
  Level : LogLevel;
}.

Record LogMessage : Type := mkLogMessage {
  Message : string;
  Component : string;
  MLevel : LogLevel;
  MFields : list (option LogField);
}.

Definition NewLogMessage (level : LogLevel) (msg : string) : LogMessage :=
  {| Message := msg; Component := ""; MLevel := level; MFields := [] |}.

Definition SetComponent (m : LogMessage) (component : string) : LogMessage :=
  {| Message := Message m; Component := component;
     MLevel := MLevel m; MFields := MFields m |}.

Definition SetFields (m : LogMessage) (fields : list (option LogField)) : LogMessage :=
  {| Message := Message m; Component := Component m;
     MLevel := MLevel m; MFields := fields |}.

Record Options : Type := mkOptions {
  withStackTrace : bool;
  component : string;
  fields : list (option LogField);
}.

Definition zeroOptions : Options :=
  {| withStackTrace := false; component := ""; fields := [] |}.

Definition Option_ : Type := Options -> Options.

Definition WithComponent (c : string) : Option_ := fun opts =>
  {| withStackTrace := withStackTrace opts; component := c; fields := fields opts |}.

Definition WithStackTrace : Option_ := fun opts =>
  {| withStackTrace := true; component := component opts; fields := fields opts |}.

Definition appendField (f : LogField) : Option_ := fun opts =>
  {| withStackTrace := withStackTrace opts; component := component opts;
     fields := fields opts ++ [Some f] |}.

Definition WithIntField (key : string) (value : Z) : Option_ :=
  appendField {| Key := key; Type_ := FieldTypeInt; Integer := value;
                 Float := S754_zero false; String := ""; Object := AnyNil |}.

Definition WithFloatField (key : string) (value : spec_float) : Option_ :=
  appendField {| Key := key; Type_ := FieldTypeFloat; Integer := 0;
                 Float := value; String := ""; Object := AnyNil |}.

Definition WithStringField (key : string) (value : string) : Option_ :=
  appendField {| Key := key; Type_ := FieldTypeString; Integer := 0;
                 Float := S754_zero false; String := value; Object := AnyNil |}.

Definition WithObjectField (key : string) (value : any) : Option_ :=
  appendField {| Key := key; Type_ := FieldTypeObject; Integer := 0;
                 Float := S754_zero false; String := ""; Object := value |}.

(** [opts := &Options{}; for _, opt := range options { opt(opts) }] *)
Definition applyOptions (options : list Option_) : Options :=
  foldl (fun opts opt => opt opts) zeroOptions options.

(** [func (l LogLevel) String() string]; the default case is
    [fmt.Sprintf("Level(%d)", l)]. *)
Definition LogLevel_String (l : LogLevel) : string :=
  if l =? DebugLevel then "debug"
  else if l =? InfoLevel then "info"
  else if l =? WarnLevel then "warn"
  else if l =? ErrorLevel then "error"
  else if l =? DPanicLevel then "dpanic"
  else if l =? PanicLevel then "panic"
  else if l =? FatalLevel then "fatal"
  else String.append "Level(" (String.append (pretty l) ")").

End models.

(** ** Package interfaces *)
Module interfaces.
Import models.

(** How a call of [SendMsg] ends. [Exits] is [os.Exit] called inside the
    publisher; [Hangs] is a call that never returns. *)
Inductive Ending : Type :=
  | Return
  | Panic (msg : string)
  | Exits (code : Z)
  | Hangs.

(** [SendMsg] receives a pointer to the record, so besides ending it may
    leave the record changed: [pr_record] is the record as the call
    leaves it.  A publisher is embedded by what it does to the record it
    is given; what else it may write (a [*LogField] it reaches through the
    record, its own state) is not represented, and nothing below says what
    a publisher other than the bundled one leaves untouched. *)
Record PublishResult : Type := mkPublishResult {
  pr_record : LogData;
  pr_end : Ending;
}.

(** [type LogPublisher interface { SendMsg(data *models.LogData) }] *)
Record LogPublisher : Type := mkLogPublisher {
  SendMsg : LogData -> PublishResult;
}.

End interfaces.

(** ** Package zap: the bundled publisher *)
Module zap.
Import models.

(** [zapcore.Field], as far as the constructors the publisher uses. *)
Inductive Field : Type :=
  | Namespace (key : string)
  | String_ (key : string) (val : string)
  | Int (key : string) (val : Z)
  | Float64 (key : string) (val : spec_float)
  | Any (key : string) (val : any).

(** One entry handed to the zap core. *)
Record Entry : Type := mkEntry {
  ELevel : Z;
  EMessage : string;
  EFields : list Field;
}.

(** The embedded [*zap.Logger] is represented by the level enabler of
    its core; [appID] and [env] are the publisher's defaults. *)
Record Logger : Type := mkLogger {
  enabled : Z -> bool;
  appID : string;
  env : string;
}.

Definition getAllLevelFunc : Z -> bool := fun _ => true.

Definition NewZapLogger (appID env : string) : Logger :=
  {| enabled := getAllLevelFunc; appID := appID; env := env |}.

(** [l.Error(msg, fields...)] and its siblings: the entry is written
    when the core enables the level. *)
Definition write (l : Logger) (lvl : Z) (msg : string) (fs : list Field) : list Entry :=
  if enabled l lvl then [ {| ELevel := lvl; EMessage := msg; EFields := fs |} ] else [].

(** The loop body of [getPayloadFields]: a nil element panics on
    [f.Type]; a tag outside the four cases appends nothing. *)
Definition payloadField (f : option LogField) : outcome (list Field) :=
  match f with
  | None => Panics "runtime error: invalid memory address or nil pointer dereference"
  | Some f =>
      if Type_ f =? FieldTypeInt then Returns [Int (Key f) (Integer f)]
      else if Type_ f =? FieldTypeString then Returns [String_ (Key f) (String f)]
      else if Type_ f =? FieldTypeFloat then Returns [Float64 (Key f) (Float f)]
      else if Type_ f =? FieldTypeObject then Returns [Any (Key f) (Object f)]
      else Returns []
  end.

Fixpoint payloadLoop (resFields : list Field) (fs : list (option LogField))
  : outcome (list Field) :=
  match fs with
  | [] => Returns resFields
  | f :: rest =>
      match payloadField f with
      | Returns new => payloadLoop (resFields ++ new) rest
      | Blocks => Blocks
      | Panics msg => Panics msg
      end
  end.

Definition getPayloadFields (l : Logger) (logData : LogData) : outcome (list Field) :=
  payloadLoop [Namespace "payload"] (Fields logData).

(** [v, ok := ctx.Value(key).(string); if !ok || v == "" { v = dflt }] *)
Definition ctxString (ctx : context.Context ContextKey) (key : ContextKey)
    (dflt : string) : string :=
  match context.Value ctx key with
  | AnyString s => if decide (s = "") then dflt else s
  | _ => dflt
  end.

(** What one call of [SendMsg] does: the record as the call leaves it,
    the entries written, and how the call ends. *)
Record SendResult : Type := mkSendResult {
  sr_record : LogData;
  sr_entries : list Entry;
  sr_end : interfaces.Ending;
}.

Definition setCtx (d : LogData) (c : context.Context ContextKey) : LogData :=
  {| Ctx := Some c; Msg := Msg d; Fields := Fields d; Level := Level d |}.

Definition SendMsg (l : Logger) (logData : LogData) : SendResult :=
  (* if logData.Ctx == nil { logData.Ctx = context.Background() } *)
  let logData :=
    match Ctx logData with
    | None => setCtx logData context.Background
    | Some _ => logData
    end in
  let ctx := default context.Background (Ctx logData) in
  let appID := ctxString ctx AppID (appID l) in
  let env := ctxString ctx EnvName (env l) in
  let fields := [String_ "service_name" appID; String_ "env" env] in
  match getPayloadFields l logData with
  | Panics msg => mkSendResult logData [] (interfaces.Panic msg)
  | Blocks => mkSendResult logData [] interfaces.Hangs
  | Returns resFields =>
      let fields := fields ++ resFields in
      let lvl := Level logData in
      if lvl =? ErrorLevel then
        mkSendResult logData (write l ErrorLevel (Msg logData) fields) interfaces.Return
      else if lvl =? WarnLevel then
        mkSendResult logData (write l WarnLevel (Msg logData) fields) interfaces.Return
      else if lvl =? InfoLevel then
        mkSendResult logData (write l InfoLevel (Msg logData) fields) interfaces.Return
      else if lvl =? DebugLevel then
        mkSendResult logData (write l DebugLevel (Msg logData) fields) interfaces.Return
      else if lvl =? FatalLevel then
        (* zap's Fatal writes the entry, then calls os.Exit(1) *)
        mkSendResult logData (write l FatalLevel (Msg logData) fields) (interfaces.Exits 1)
      else
        mkSendResult logData [] interfaces.Return
  end.

(** The zap logger as a [LogPublisher]. *)
Definition publisher (l : Logger) : interfaces.LogPublisher :=
  {| interfaces.SendMsg := fun d =>
       let r := SendMsg l d in
       {| interfaces.pr_record := sr_record r; interfaces.pr_end := sr_end r |} |}.

(** Whether the context gives [key] a string that is not empty, so that
    [SendMsg] does not read the publisher's default. *)
Definition ctxGives (ctx : context.Context ContextKey) (key : ContextKey) : bool :=
  match context.Value ctx key with
  | AnyString s => if decide (s = "") then false else true
  | _ => false
  end.

Definition nilDereference : string :=
  "runtime error: invalid memory address or nil pointer dereference".

(** [SendMsg] called on a nil [*Logger].  The method has a pointer
    receiver, so the call itself succeeds; the body panics where it first
    reads through the receiver: at [l.appID] or [l.env], when the context
    does not give the value, or at the embedded [*zap.Logger] in a case of
    the level switch.  [getPayloadFields] does not read its receiver. *)
Definition SendMsgNil (logData : LogData) : SendResult :=
  let logData :=
    match Ctx logData with
    | None => setCtx logData context.Background
    | Some _ => logData
    end in
  let ctx := default context.Background (Ctx logData) in
  if negb (ctxGives ctx AppID) then
    mkSendResult logData [] (interfaces.Panic nilDereference)
  else if negb (ctxGives ctx EnvName) then
    mkSendResult logData [] (interfaces.Panic nilDereference)
  else
    match payloadLoop [Namespace "payload"] (Fields logData) with
    | Panics msg => mkSendResult logData [] (interfaces.Panic msg)
    | Blocks => mkSendResult logData [] interfaces.Hangs
    | Returns _ =>
        let lvl := Level logData in
        if (lvl =? ErrorLevel) || (lvl =? WarnLevel) || (lvl =? InfoLevel)
           || (lvl =? DebugLevel) || (lvl =? FatalLevel)
        then mkSendResult logData [] (interfaces.Panic nilDereference)
        else mkSendResult logData [] interfaces.Return
    end.

(** A nil [*Logger] stored in a [LogPublisher]: an interface value that
    is not nil, holding a nil pointer. *)
Definition nilPublisher : interfaces.LogPublisher :=
  {| interfaces.SendMsg := fun d =>
       let r := SendMsgNil d in
       {| interfaces.pr_record := sr_record r; interfaces.pr_end := sr_end r |} |}.

End zap.

(** ** Package time *)
Module time.
(** [type Duration int64], counted in nanoseconds. *)
Definition Duration : Type := Z.
Definition Millisecond : Duration := 1000000.
End time.

(** ** Go channels *)
Module channel.

(** A buffered channel: the queued values, oldest first, the capacity
    given to [make], and whether [close] was called. *)
Record chan (A : Type) : Type := mkChan {
  buf : list A;
  cap : nat;
  closed : bool;
}.
Arguments mkChan {A} buf cap closed.
Arguments buf {A} c.
Arguments cap {A} c.
Arguments closed {A} c.

Definition make {A} (n : nat) : chan A := mkChan [] n false.

(** [c <- x] *)
Definition send {A} (c : chan A) (x : A) : outcome (chan A) :=
  if closed c then Panics "send on closed channel"
  else if (length (buf c) <? cap c)%nat then Returns (mkChan (buf c ++ [x]) (cap c) false)
  else Blocks.

(** [x, ok := <-c]: queued values are delivered also after [close];
    a closed and empty channel yields [ok = false] ([None]). *)
Definition recv {A} (c : chan A) : outcome (option A * chan A) :=
  match buf c with
  | x :: rest => Returns (Some x, mkChan rest (cap c) (closed c))
  | [] => if closed c then Returns (None, c) else Blocks
  end.

(** [close(c)] *)
Definition close {A} (c : chan A) : outcome (chan A) :=
  if closed c then Panics "close of closed channel"
  else Returns (mkChan (buf c) (cap c) true).

End channel.

(** ** Package glog *)
Module glog.
Import models interfaces channel.

(** A [*models.LogData] that is not nil: an address in the heap of
    records.  The nil pointer is [None : option ptr]. *)
Definition ptr : Type := nat.

(** *** The front-end logger *)

(** [strings.Join(elems, sep)] *)
Fixpoint Join (elems : list string) (sep : string) : string :=
  match elems with
  | [] => ""
  | [e] => e
  | e :: rest => String.append e (String.append sep (Join rest sep))
  end.

(** The record [logMsg] builds before it spawns [sendData]. *)
Definition logMsg (ctx : option (context.Context ContextKey)) (level : LogLevel)
    (message : string) (options : list Option_) : LogData :=
  let opts := applyOptions options in
  let logMsg := SetFields (SetComponent (NewLogMessage level message) (component opts))
                          (fields opts) in
  {| Ctx := ctx;
     Msg := Message logMsg;
     Fields := MFields logMsg ++
               [Some {| Key := FieldComponentKey; Type_ := 0; Integer := 0;
                        Float := S754_zero false; String := Component logMsg;
                        Object := AnyNil |}];
     Level := MLevel logMsg |}.

Definition Warning ctx message options := logMsg ctx WarnLevel message options.
Definition Info ctx message options := logMsg ctx InfoLevel message options.
Definition Debug ctx message options := logMsg ctx DebugLevel message options.

(** The record [error] builds.  [err] is the error's message ([None] is
    a nil error, on which [extendedErr.Error()] panics); [frames] are the
    frames of the captured stack, each already formatted by
    [Sprintf("%s:%d", f, f)]. *)
Definition error (ctx : option (context.Context ContextKey)) (err : option string)
    (frames : list string) (opts : Options) : outcome LogData :=
  match err with
  | None => Panics "runtime error: invalid memory address or nil pointer dereference"
  | Some msg =>
      let fs0 :=
        if withStackTrace opts then
          [Some {| Key := FieldFilenameKey; Type_ := 0; Integer := 0;
                   Float := S754_zero false; String := Join (drop 1 frames) " <- ";
                   Object := AnyNil |}]
        else [] in
      let fs1 := if (0 <? length (fields opts))%nat then fs0 ++ fields opts else fs0 in
      let fs2 :=
        if decide (component opts = "") then fs1
        else fs1 ++ [Some {| Key := FieldComponentKey; Type_ := 0; Integer := 0;
                             Float := S754_zero false; String := component opts;
                             Object := AnyNil |}] in
      Returns {| Ctx := ctx; Msg := msg; Fields := fs2; Level := ErrorLevel |}
  end.

Definition Error ctx err frames options := error ctx err frames (applyOptions options).

(** The loop of [Errors]: the records built, in order, up to the first
    nil error, on which [error] panics. *)
Fixpoint errorsLoop (ctx : option (context.Context ContextKey)) (errs : list (option string))
    (frames : list string) (opts : Options) : list LogData * outcome unit :=
  match errs with
  | [] => ([], Returns tt)
  | err :: rest =>
      match error ctx err frames opts with
      | Returns d =>
          let '(ds, o) := errorsLoop ctx rest frames opts in (d :: ds, o)
      | Blocks => ([], Blocks)
      | Panics msg => ([], Panics msg)
      end
  end.

Definition Errors ctx errs frames options :=
  errorsLoop ctx errs frames (applyOptions options).

(** [func (m *LogMessage) SetMessage(messages ...string)] *)
Definition SetMessage (m : LogMessage) (messages : list string) : LogMessage :=
  {| Message := Join messages " / "; Component := Component m;
     MLevel := MLevel m; MFields := MFields m |}.

(** [sendData]: [l.logChan <- logData] *)
Definition sendData (logChan : chan (option ptr)) (logData : option ptr)
  : outcome (chan (option ptr)) :=
  send logChan logData.

(** *** The service *)

Definition defaultInputBufferSize : nat := 100.
Definition defaultJobBufferSize : nat := 1000.
Definition defaultNumWorkers : nat := 4.
Definition sendTimeout : time.Duration := 100 * time.Millisecond.

(** [logger] is an interface value and may be nil ([None]).  [logData]
    is never nil: [processLogData], the only place that builds a job,
    returns before building any when its argument is nil. *)
Record sendJob : Type := mkSendJob {
  loggerID : string;
  logger : option LogPublisher;
  logData : ptr;
}.

(** [wg] and [mainWg] are the counters of the two wait groups; the
    mutex is not represented: the sections it guards are atomic
    actions. *)
Record LoggerService : Type := mkLoggerService {
  inputCh : chan (option ptr);
  jobCh : chan sendJob;
  stopCh : chan unit;
  numWorkers : nat;
  loggers : gmap string (option LogPublisher);
  wg : nat;
  mainWg : nat;
}.

Definition NewLoggerService (stopCh : chan unit) : LoggerService :=
  {| inputCh := make defaultInputBufferSize;
     jobCh := make defaultJobBufferSize;
     stopCh := stopCh;
     numWorkers := defaultNumWorkers;
     loggers := ∅;
     wg := 0;
     mainWg := 0 |}.

Definition set_inputCh (ls : LoggerService) (c : chan (option ptr)) : LoggerService :=
  {| inputCh := c; jobCh := jobCh ls; stopCh := stopCh ls; numWorkers := numWorkers ls;
     loggers := loggers ls; wg := wg ls; mainWg := mainWg ls |}.

Definition set_jobCh (ls : LoggerService) (c : chan sendJob) : LoggerService :=
  {| inputCh := inputCh ls; jobCh := c; stopCh := stopCh ls; numWorkers := numWorkers ls;
     loggers := loggers ls; wg := wg ls; mainWg := mainWg ls |}.

Definition set_stopCh (ls : LoggerService) (c : chan unit) : LoggerService :=
  {| inputCh := inputCh ls; jobCh := jobCh ls; stopCh := c; numWorkers := numWorkers ls;
     loggers := loggers ls; wg := wg ls; mainWg := mainWg ls |}.

Definition set_loggers (ls : LoggerService) (m : gmap string (option LogPublisher))
  : LoggerService :=
  {| inputCh := inputCh ls; jobCh := jobCh ls; stopCh := stopCh ls;
     numWorkers := numWorkers ls; loggers := m; wg := wg ls; mainWg := mainWg ls |}.

Definition set_wg (ls : LoggerService) (n : nat) : LoggerService :=
  {| inputCh := inputCh ls; jobCh := jobCh ls; stopCh := stopCh ls;
     numWorkers := numWorkers ls; loggers := loggers ls; wg := n; mainWg := mainWg ls |}.

Definition set_mainWg (ls : LoggerService) (n : nat) : LoggerService :=
  {| inputCh := inputCh ls; jobCh := jobCh ls; stopCh := stopCh ls;
     numWorkers := numWorkers ls; loggers := loggers ls; wg := wg ls; mainWg := n |}.

Definition AddLogger (ls : LoggerService) (loggerID : string) (logger : option LogPublisher)
  : LoggerService :=
  set_loggers ls (<[loggerID := logger]> (loggers ls)).

Definition RemoveLogger (ls : LoggerService) (loggerID : string) : LoggerService :=
  set_loggers ls (delete loggerID (loggers ls)).

(** What the service prints on standard output. *)
Inductive Diag : Type :=
  (* "No loggers configured. Skipping log message." *)
  | DiagNoLoggers
  (* "Logger with ID %q is nil. Skipping.\n", id *)
  | DiagNilLogger (id : string)
  (* "Failed to send log message to logger %q within %v. Original message: %q\n",
     job.loggerID, sendTimeout, job.logData.Msg *)
  | DiagSendTimeout (id : string) (timeout : time.Duration) (msg : string).

#[export] Instance Diag_eq_dec : EqDecision Diag.
Proof. unfold time.Duration. solve_decision. Defined.

(** [for id, logger := range ls.loggers] visits every key once, in an
    order Go leaves unspecified: [order] is the order of one execution
    of the loop. *)
Definition range_order (m : gmap string (option LogPublisher)) (order : list string) : Prop :=
  NoDup order ∧ ∀ id, id ∈ order ↔ is_Some (m !! id).

Definition is_range_order (m : gmap string (option LogPublisher)) (order : list string) : bool :=
  bool_decide (NoDup order) &&
  bool_decide (Forall (λ id, id ∈ dom m) order) &&
  bool_decide (Forall (λ id, id ∈ order) (elements (dom m))).

(** The body of the loop of [processLogData]. *)
Fixpoint fanout (m : gmap string (option LogPublisher)) (logData : ptr)
    (order : list string) : list Diag * list sendJob :=
  match order with
  | [] => ([], [])
  | id :: rest =>
      let '(diags, jobs) := fanout m logData rest in
      match m !! id with
      | Some None => (DiagNilLogger id :: diags, jobs)
      | Some (Some lg) =>
          (diags, {| loggerID := id; logger := Some lg; logData := logData |} :: jobs)
      | None => (diags, jobs)
      end
  end.

(** [processLogData] up to the release of the read lock: what it
    prints and the jobs it will send.  The sends themselves each are a
    step of the main worker. *)
Definition processLogData (ls : LoggerService) (order : list string)
    (logData : option ptr) : list Diag * list sendJob :=
  match logData with
  | None => ([], [])
  | Some p =>
      if decide (size (loggers ls) = 0%nat) then ([DiagNoLoggers], [])
      else fanout (loggers ls) p order
  end.

(** *** The goroutines of the service *)

(** Which loop of [runMainWorker] a call of [processLogData] returns
    to: the [select] loop, or the draining [range] loop entered once
    [stopCh] fired. *)
Inductive MainLoop : Type := InSelect | InDrain.

(** Where the main worker stands. *)
Inductive MainPC : Type :=
  | MNotStarted
  | MLoop (k : MainLoop)
  (* in [processLogData], before the read lock is taken *)
  | MProcess (x : option ptr) (k : MainLoop)
  (* in the last loop of [processLogData], with these jobs left to send *)
  | MSending (js : list sendJob) (k : MainLoop)
  | MExited.

(** Where a worker stands: at [range ls.jobCh], in the [select] of
    [processJob] (waiting for the publish goroutine [cid]; the timer
    fires at [deadline]), or returned. *)
Inductive WorkerPC : Type :=
  | WRange
  | WSelect (job : sendJob) (cid : nat) (deadline : Z)
  | WExited.

(** The goroutine [processJob] spawns: not yet run, returned (and
    [doneCh] closed), or stuck inside [SendMsg]. *)
Inductive CallState : Type := CSpawned | CDone | CHung.

Record Call : Type := mkCall {
  cjob : sendJob;
  cstate : CallState;
}.

(** Where the caller of [Stop] stands. *)
Inductive StopPC : Type := SNotCalled | SWaitMain | SWaitWorkers | SReturned.

(** The process is gone: an unrecovered panic, or [os.Exit]. *)
Inductive Halt : Type := Crashed (msg : string) | Exited (code : Z).

Record State : Type := mkState {
  heap : list LogData;
  svc : LoggerService;
  mainW : MainPC;
  workers : list WorkerPC;
  (* the [sendData] goroutines that have not sent yet *)
  senders : list (option ptr);
  calls : list Call;
  stopper : StopPC;
  now : Z;
  halted : option Halt;
}.

Definition init (stopCh : chan unit) : State :=
  {| heap := []; svc := NewLoggerService stopCh; mainW := MNotStarted; workers := [];
     senders := []; calls := []; stopper := SNotCalled; now := 0; halted := None |}.

Definition set_heap (s : State) (h : list LogData) : State :=
  {| heap := h; svc := svc s; mainW := mainW s; workers := workers s;
     senders := senders s; calls := calls s; stopper := stopper s; now := now s;
     halted := halted s |}.

Definition set_svc (s : State) (ls : LoggerService) : State :=
  {| heap := heap s; svc := ls; mainW := mainW s; workers := workers s;
     senders := senders s; calls := calls s; stopper := stopper s; now := now s;
     halted := halted s |}.

Definition set_mainW (s : State) (m : MainPC) : State :=
  {| heap := heap s; svc := svc s; mainW := m; workers := workers s;
     senders := senders s; calls := calls s; stopper := stopper s; now := now s;
     halted := halted s |}.

Definition set_workers (s : State) (ws : list WorkerPC) : State :=
  {| heap := heap s; svc := svc s; mainW := mainW s; workers := ws;
     senders := senders s; calls := calls s; stopper := stopper s; now := now s;
     halted := halted s |}.

Definition set_senders (s : State) (l : list (option ptr)) : State :=
  {| heap := heap s; svc := svc s; mainW := mainW s; workers := workers s;
     senders := l; calls := calls s; stopper := stopper s; now := now s;
     halted := halted s |}.

Definition set_calls (s : State) (l : list Call) : State :=
  {| heap := heap s; svc := svc s; mainW := mainW s; workers := workers s;
     senders := senders s; calls := l; stopper := stopper s; now := now s;
     halted := halted s |}.

Definition set_stopper (s : State) (p : StopPC) : State :=
  {| heap := heap s; svc := svc s; mainW := mainW s; workers := workers s;
     senders := senders s; calls := calls s; stopper := p; now := now s;
     halted := halted s |}.

Definition set_now (s : State) (t : Z) : State :=
  {| heap := heap s; svc := svc s; mainW := mainW s; workers := workers s;
     senders := senders s; calls := calls s; stopper := stopper s; now := t;
     halted := halted s |}.

Definition halt (s : State) (h : Halt) : State :=
  {| heap := heap s; svc := svc s; mainW := mainW s; workers := workers s;
     senders := senders s; calls := calls s; stopper := stopper s; now := now s;
     halted := Some h |}.

(** What a step lets an observer see. *)
Inductive Event : Type :=
  (* a line printed on standard output *)
  | EvPrint (d : Diag)
  (* a send on the intake channel completed *)
  | EvEnqueued (x : option ptr)
  (* the main worker received [x] from the intake channel *)
  | EvDequeued (x : option ptr)
  (* [processLogData x] released the lock holding these jobs *)
  | EvFanout (x : option ptr) (jobs : list sendJob)
  (* the main worker sent the job on the job channel *)
  | EvJobQueued (j : sendJob)
  (* worker [w] received the job and spawned publish goroutine [cid] *)
  | EvJobTaken (w : nat) (j : sendJob) (cid : nat)
  (* publish goroutine [cid] ran [SendMsg] of publisher [id] on the
     record at [p], which held [d] when the call began; the call ended
     with [e] *)
  | EvPublish (cid : nat) (id : string) (p : ptr) (d : LogData) (e : Ending)
  (* worker [w] left the [select] of [processJob] through [doneCh] *)
  | EvJobDone (w : nat) (j : sendJob) (cid : nat)
  (* worker [w] left it through the timer *)
  | EvJobTimedOut (w : nat) (j : sendJob) (cid : nat)
  | EvHalt (h : Halt).

Definition Step : Type := option (list Event * State).

Definition crash (s : State) (msg : string) : Step :=
  Some ([EvHalt (Crashed msg)], halt s (Crashed msg)).

(** [Start].  The development follows a service on which [Start] is
    called at most once: the action is enabled on a service that was not
    started.  The source does not forbid a second call, which would add a
    second main worker and [numWorkers] more workers; such runs are not
    represented. *)
Definition Start (s : State) : Step :=
  match mainW s with
  | MNotStarted =>
      let ls := svc s in
      let ls := set_mainWg ls (mainWg ls + 1) in
      let ls := set_wg ls (wg ls + numWorkers ls) in
      Some ([], set_workers (set_mainW (set_svc s ls) (MLoop InSelect))
                            (workers s ++ replicate (numWorkers ls) WRange))
  | _ => None
  end.

(** [Stop], one statement at a time; a [Wait] is enabled when its
    counter is zero.  One caller of [Stop] is followed; what the first
    statement of a second call would do is [close] on the channel as it
    then is. *)
Definition Stop (s : State) : Step :=
  match stopper s with
  | SNotCalled =>
      match close (inputCh (svc s)) with
      | Returns c => Some ([], set_stopper (set_svc s (set_inputCh (svc s) c)) SWaitMain)
      | Panics msg => crash s msg
      | Blocks => None
      end
  | SWaitMain =>
      if decide (mainWg (svc s) = 0%nat) then Some ([], set_stopper s SWaitWorkers) else None
  | SWaitWorkers =>
      if decide (wg (svc s) = 0%nat) then Some ([], set_stopper s SReturned) else None
  | SReturned => None
  end.

(** The deferred calls of [runMainWorker]: [close(ls.jobCh)], then
    [ls.mainWg.Done()]. *)
Definition runMainWorker_return (s : State) : Step :=
  match close (jobCh (svc s)) with
  | Returns c =>
      let ls := set_jobCh (svc s) c in
      let ls := set_mainWg ls (pred (mainWg ls)) in
      Some ([], set_mainW (set_svc s ls) MExited)
  | Panics msg => crash s msg
  | Blocks => None
  end.

(** [case <-ls.stopCh:] of the [select]. *)
Definition runMainWorker_stop (s : State) : Step :=
  match mainW s with
  | MLoop InSelect =>
      match recv (stopCh (svc s)) with
      | Returns (_, c) => Some ([], set_mainW (set_svc s (set_stopCh (svc s) c)) (MLoop InDrain))
      | _ => None
      end
  | _ => None
  end.

(** [case logData, ok := <-ls.inputCh:] of the [select], and the
    receive of [for logData := range ls.inputCh]. *)
Definition runMainWorker_recv (s : State) : Step :=
  match mainW s with
  | MLoop k =>
      match recv (inputCh (svc s)) with
      | Returns (Some x, c) =>
          Some ([EvDequeued x], set_mainW (set_svc s (set_inputCh (svc s) c)) (MProcess x k))
      | Returns (None, _) => runMainWorker_return s
      | _ => None
      end
  | _ => None
  end.

(** [processLogData] from its entry to [RUnlock], atomic under the
    read lock; [order] is the order in which [range] visits the map. *)
Definition processLogData_locked (order : list string) (s : State) : Step :=
  match mainW s with
  | MProcess x k =>
      if is_range_order (loggers (svc s)) order then
        let '(diags, jobs) := processLogData (svc s) order x in
        Some (map EvPrint diags ++ [EvFanout x jobs], set_mainW s (MSending jobs k))
      else None
  | _ => None
  end.

(** One round of [for _, job := range jobs { ls.jobCh <- job }]; with
    no job left [processLogData] returns to the loop that called it. *)
Definition processLogData_send (s : State) : Step :=
  match mainW s with
  | MSending [] k => Some ([], set_mainW s (MLoop k))
  | MSending (j :: js) k =>
      match send (jobCh (svc s)) j with
      | Returns c =>
          Some ([EvJobQueued j], set_mainW (set_svc s (set_jobCh (svc s) c)) (MSending js k))
      | Panics msg => crash s msg
      | Blocks => None
      end
  | _ => None
  end.

(** [for job := range ls.jobCh] of worker [w]: with a job received,
    [processJob] makes [doneCh], spawns the publish goroutine and
    enters its [select], where [time.After(sendTimeout)] starts the
    timer; with the channel closed and empty the worker returns through
    [ls.wg.Done()]. *)
Definition runWorker_recv (w : nat) (s : State) : Step :=
  match workers s !! w with
  | Some WRange =>
      match recv (jobCh (svc s)) with
      | Returns (Some j, c) =>
          let cid := length (calls s) in
          Some ([EvJobTaken w j cid],
                set_workers
                  (set_calls (set_svc s (set_jobCh (svc s) c))
                             (calls s ++ [mkCall j CSpawned]))
                  (<[w := WSelect j cid (now s + sendTimeout)]> (workers s)))
      | Returns (None, _) =>
          Some ([], set_workers (set_svc s (set_wg (svc s) (pred (wg (svc s)))))
                                (<[w := WExited]> (workers s)))
      | _ => None
      end
  | _ => None
  end.

(** [case <-doneCh:] of [processJob]. *)
Definition processJob_done (w : nat) (s : State) : Step :=
  match workers s !! w with
  | Some (WSelect j cid _) =>
      match calls s !! cid with
      | Some (mkCall _ CDone) =>
          Some ([EvJobDone w j cid], set_workers s (<[w := WRange]> (workers s)))
      | _ => None
      end
  | _ => None
  end.

(** [case <-time.After(sendTimeout):] of [processJob]. *)
Definition processJob_timeout (w : nat) (s : State) : Step :=
  match workers s !! w with
  | Some (WSelect j cid deadline) =>
      if decide (deadline <= now s) then
        match heap s !! logData j with
        | Some d =>
            Some ([EvPrint (DiagSendTimeout (loggerID j) sendTimeout (Msg d));
                   EvJobTimedOut w j cid],
                  set_workers s (<[w := WRange]> (workers s)))
        | None => None
        end
      else None
  | _ => None
  end.

Definition set_cstate (c : Call) (st : CallState) : Call := mkCall (cjob c) st.

(** The goroutine of [processJob]:
    [job.logger.SendMsg(job.logData); close(doneCh)].  Nothing recovers
    a panic of [SendMsg]: it ends the process. *)
Definition publish (cid : nat) (s : State) : Step :=
  match calls s !! cid with
  | Some (mkCall j CSpawned) =>
      match logger j with
      | None => crash s "runtime error: invalid memory address or nil pointer dereference"
      | Some lg =>
          match heap s !! logData j with
          | Some d =>
              let r := SendMsg lg d in
              let s := set_heap s (<[logData j := pr_record r]> (heap s)) in
              let ev := EvPublish cid (loggerID j) (logData j) d (pr_end r) in
              match pr_end r with
              | Return =>
                  Some ([ev], set_calls s (<[cid := mkCall j CDone]> (calls s)))
              | Hangs =>
                  Some ([ev], set_calls s (<[cid := mkCall j CHung]> (calls s)))
              | Panic msg => Some ([ev; EvHalt (Crashed msg)], halt s (Crashed msg))
              | Exits code => Some ([ev; EvHalt (Exited code)], halt s (Exited code))
              end
          | None => None
          end
      end
  | _ => None
  end.

(** A producer hands a record to the service: the front-end allocates
    it and spawns [sendData] ([go l.sendData(logData)]); [None] is a nil
    pointer offered through [GetInputChan]. *)
Definition submit (d : option LogData) (s : State) : Step :=
  match d with
  | Some d =>
      Some ([], set_senders (set_heap s (heap s ++ [d]))
                            (senders s ++ [Some (length (heap s))]))
  | None => Some ([], set_senders s (senders s ++ [None]))
  end.

(** The [i]-th waiting [sendData] goroutine performs its send. *)
Definition sendData_run (i : nat) (s : State) : Step :=
  match senders s !! i with
  | Some x =>
      match sendData (inputCh (svc s)) x with
      | Returns c =>
          Some ([EvEnqueued x],
                set_senders (set_svc s (set_inputCh (svc s) c)) (delete i (senders s)))
      | Panics msg => crash s msg
      | Blocks => None
      end
  | None => None
  end.

(** The application closes the stop channel it gave to
    [NewLoggerService]. *)
Definition closeStopCh (s : State) : Step :=
  match close (stopCh (svc s)) with
  | Returns c => Some ([], set_svc s (set_stopCh (svc s) c))
  | Panics msg => crash s msg
  | Blocks => None
  end.

(** The atomic moves of the goroutines. *)
Inductive Action : Type :=
  | AStart
  | AStop
  | AAddLogger (id : string) (lg : option LogPublisher)
  | ARemoveLogger (id : string)
  | ACloseStopCh
  | ASubmit (d : option LogData)
  | ASendData (i : nat)
  | AMainStop
  | AMainRecv
  | AMainLocked (order : list string)
  | AMainSend
  | AWorkerRecv (w : nat)
  | AWorkerDone (w : nat)
  | AWorkerTimeout (w : nat)
  | APublish (cid : nat)
  | ATick (dt : Z).

(** One move.  [None]: the move is not enabled (the goroutine is
    elsewhere, or blocked).  A halted process moves no more. *)
Definition exec (a : Action) (s : State) : Step :=
  match halted s with
  | Some _ => None
  | None =>
      match a with
      | AStart => Start s
      | AStop => Stop s
      | AAddLogger id lg => Some ([], set_svc s (AddLogger (svc s) id lg))
      | ARemoveLogger id => Some ([], set_svc s (RemoveLogger (svc s) id))
      | ACloseStopCh => closeStopCh s
      | ASubmit d => submit d s
      | ASendData i => sendData_run i s
      | AMainStop => runMainWorker_stop s
      | AMainRecv => runMainWorker_recv s
      | AMainLocked order => processLogData_locked order s
      | AMainSend => processLogData_send s
      | AWorkerRecv w => runWorker_recv w s
      | AWorkerDone w => processJob_done w s
      | AWorkerTimeout w => processJob_timeout w s
      | APublish cid => publish cid s
      | ATick dt => if decide (0 < dt) then Some ([], set_now s (now s + dt)) else None
      end
  end.

(** A run: the actions in order, with the events they produce. *)
Fixpoint run (acts : list Action) (s : State) : Step :=
  match acts with
  | [] => Some ([], s)
  | a :: rest =>
      match exec a s with
      | Some (evs, s') =>
          match run rest s' with
          | Some (evs', s'') => Some (evs ++ evs', s'')
          | None => None
          end
      | None => None
      end
  end.

End glog.

(** * Properties *)

Import models interfaces channel glog.

(** ** The zap publisher *)

(** The zap field one record field is turned into, by its type tag alone. *)
Definition zapFieldOf (g : LogField) : zap.Field :=
  if Type_ g =? FieldTypeInt then zap.Int (Key g) (Integer g)
  else if Type_ g =? FieldTypeString then zap.String_ (Key g) (String g)
  else if Type_ g =? FieldTypeFloat then zap.Float64 (Key g) (Float g)
  else zap.Any (Key g) (Object g).

Definition tagged (f : option LogField) : Prop :=
  ∃ g, f = Some g ∧
       (Type_ g = FieldTypeInt ∨ Type_ g = FieldTypeFloat ∨
        Type_ g = FieldTypeString ∨ Type_ g = FieldTypeObject).

Lemma payloadField_tagged f :
  tagged f → ∃ g, f = Some g ∧ zap.payloadField f = Returns [zapFieldOf g].
Proof.
  intros (g & -> & Ht). exists g. split; [done|].
  unfold zap.payloadField, zapFieldOf.
  unfold FieldTypeInt, FieldTypeFloat, FieldTypeString, FieldTypeObject in *.
  destruct Ht as [-> | [-> | [-> | ->]]]; reflexivity.
Qed.

Lemma payloadLoop_tagged fs : ∀ acc,
  Forall tagged fs →
  ∃ out, zap.payloadLoop acc fs = Returns (acc ++ out) ∧
         length out = length fs ∧
         ∀ i g, fs !! i = Some (Some g) → out !! i = Some (zapFieldOf g).
Proof.
  induction fs as [|f fs IH]; intros acc Hall.
  - exists []. simpl. rewrite app_nil_r. repeat split; [|done..].
    intros i g Hi. by rewrite lookup_nil in Hi.
  - apply Forall_cons in Hall as [Hf Hall].
    destruct (payloadField_tagged f Hf) as (g & -> & Hg).
    destruct (IH (acc ++ [zapFieldOf g]) Hall) as (out & Hout & Hlen & Hnth).
    exists (zapFieldOf g :: out). cbn [zap.payloadLoop]. rewrite Hg, Hout.
    rewrite <- app_assoc. split; [done|]. split; [simpl; lia|].
    intros [|i] g' Hi; simpl in *; [congruence | by apply Hnth].
Qed.

(** The three zero-valued fields of the repository's test
    [TestZapLogger_GetPayloadFields_ZeroValues]. *)
Definition zeroValuedFields : list (option LogField) :=
  [ Some {| Key := "int_field"; Type_ := FieldTypeInt; Integer := 0;
            Float := S754_zero false; String := ""; Object := AnyNil |};
    Some {| Key := "float_field"; Type_ := FieldTypeFloat; Integer := 0;
            Float := S754_zero false; String := ""; Object := AnyNil |};
    Some {| Key := "string_field"; Type_ := FieldTypeString; Integer := 0;
            Float := S754_zero false; String := ""; Object := AnyNil |} ].

(** C8. [getPayloadFields] turns the [i]-th field of a record into the
    [i]-th published field after the namespace marker, choosing the zap
    constructor by the type tag alone and passing the value on whatever it
    is: the output has one field per record field, so a field holding 0,
    0.0 or the empty string is published like any other and a record that
    has it differs from one that lacks it.  On the three zero-valued
    fields of the test the output is the namespace and three fields. *)
Theorem C8_zero_valued_fields_are_published :
  (∀ l d, Forall tagged (Fields d) →
     ∃ out, zap.getPayloadFields l d = Returns (zap.Namespace "payload" :: out) ∧
            length out = length (Fields d) ∧
            ∀ i g, Fields d !! i = Some (Some g) → out !! i = Some (zapFieldOf g)) ∧
  (∀ key, zapFieldOf {| Key := key; Type_ := FieldTypeInt; Integer := 0;
                        Float := S754_zero false; String := ""; Object := AnyNil |}
          = zap.Int key 0) ∧
  (∀ key, zapFieldOf {| Key := key; Type_ := FieldTypeFloat; Integer := 0;
                        Float := S754_zero false; String := ""; Object := AnyNil |}
          = zap.Float64 key (S754_zero false)) ∧
  (∀ key, zapFieldOf {| Key := key; Type_ := FieldTypeString; Integer := 0;
                        Float := S754_zero false; String := ""; Object := AnyNil |}
          = zap.String_ key "") ∧
  (∀ l ctx msg lvl,
     zap.getPayloadFields l {| Ctx := ctx; Msg := msg; Fields := zeroValuedFields;
                               Level := lvl |}
     = Returns [zap.Namespace "payload"; zap.Int "int_field" 0;
                zap.Float64 "float_field" (S754_zero false);
                zap.String_ "string_field" ""]).
Proof.
  split; [|repeat split; reflexivity].
  intros l d Hall. unfold zap.getPayloadFields.
  destruct (payloadLoop_tagged (Fields d) [zap.Namespace "payload"] Hall)
    as (out & Hout & Hlen & Hnth).
  exists out. by rewrite Hout.
Qed.

(** The levels that have a case in the switch of [SendMsg]. *)
Definition switchedLevels : list LogLevel :=
  [ErrorLevel; WarnLevel; InfoLevel; DebugLevel; FatalLevel].

Lemma payloadLoop_no_nil fs : ∀ acc,
  Forall is_Some fs → ∃ out, zap.payloadLoop acc fs = Returns out.
Proof.
  induction fs as [|f fs IH]; intros acc Hall; simpl; [by eexists|].
  apply Forall_cons in Hall as [[g ->] Hall]. simpl.
  repeat case_match; simplify_eq; by apply IH.
Qed.

Lemma not_switched lvl :
  lvl ∉ switchedLevels →
  (lvl =? ErrorLevel) = false ∧ (lvl =? WarnLevel) = false ∧ (lvl =? InfoLevel) = false ∧
  (lvl =? DebugLevel) = false ∧ (lvl =? FatalLevel) = false.
Proof.
  unfold switchedLevels. intros H. rewrite !not_elem_of_cons in H.
  destruct H as (? & ? & ? & ? & ? & _). repeat split; by apply Z.eqb_neq.
Qed.

(** C10. [SendMsg] of the zap publisher writes an entry only when the
    record's level is one of Error, Warn, Info, Debug and Fatal.  For any
    other level, DPanic and Panic among them, it writes nothing and, the
    payload having been built, returns normally; the publisher has no
    other output.  The publisher made by [NewZapLogger] enables every
    level, so on the five levels it writes exactly one entry, with the
    record's level and message. *)
Theorem C10_zap_unswitched_levels_are_discarded :
  (∀ l d, zap.sr_entries (zap.SendMsg l d) ≠ [] → Level d ∈ switchedLevels) ∧
  (∀ l d, Level d ∉ switchedLevels →
     zap.sr_entries (zap.SendMsg l d) = [] ∧
     (Forall is_Some (Fields d) → zap.sr_end (zap.SendMsg l d) = Return)) ∧
  (∀ appID env d, Level d ∈ switchedLevels → Forall is_Some (Fields d) →
     ∃ fs, zap.sr_entries (zap.SendMsg (zap.NewZapLogger appID env) d)
           = [zap.mkEntry (Level d) (Msg d) fs]) ∧
  (DPanicLevel ∉ switchedLevels) ∧ (PanicLevel ∉ switchedLevels).
Proof.
  assert (Hno : ∀ l d, Level d ∉ switchedLevels →
     zap.sr_entries (zap.SendMsg l d) = [] ∧
     (Forall is_Some (Fields d) → zap.sr_end (zap.SendMsg l d) = Return)).
  { intros l d Hlvl. apply not_switched in Hlvl as (He & Hw & Hi & Hd & Hf).
    unfold zap.SendMsg, zap.getPayloadFields.
    destruct (Ctx d) as [c|]; simpl.
    - split.
      + destruct (zap.payloadLoop _ _); [|done..]. by rewrite He, Hw, Hi, Hd, Hf.
      + intros Hall.
        destruct (payloadLoop_no_nil (Fields d) [zap.Namespace "payload"] Hall) as [out ->].
        by rewrite He, Hw, Hi, Hd, Hf.
    - split.
      + destruct (zap.payloadLoop _ _); [|done..]. by rewrite He, Hw, Hi, Hd, Hf.
      + intros Hall.
        destruct (payloadLoop_no_nil (Fields d) [zap.Namespace "payload"] Hall) as [out ->].
        by rewrite He, Hw, Hi, Hd, Hf. }
  split; [|split; [exact Hno|split]].
  - intros l d Hne. destruct (decide (Level d ∈ switchedLevels)) as [|Hn]; [done|].
    destruct (Hno l d Hn) as [Hnil _]. by rewrite Hnil in Hne.
  - intros appID env d Hin Hall.
    unfold zap.SendMsg, zap.getPayloadFields.
    assert (Hf : Fields (match Ctx d with
                         | Some _ => d
                         | None => zap.setCtx d context.Background
                         end) = Fields d) by (by destruct (Ctx d)).
    assert (Hl : Level (match Ctx d with
                        | Some _ => d
                        | None => zap.setCtx d context.Background
                        end) = Level d) by (by destruct (Ctx d)).
    assert (Hm : Msg (match Ctx d with
                      | Some _ => d
                      | None => zap.setCtx d context.Background
                      end) = Msg d) by (by destruct (Ctx d)).
    rewrite Hf, Hl, Hm.
    destruct (payloadLoop_no_nil (Fields d) [zap.Namespace "payload"] Hall) as [out ->].
    unfold switchedLevels in Hin. rewrite !elem_of_cons in Hin.
    destruct Hin as [-> | [-> | [-> | [-> | [-> | Hin]]]]]; simpl;
      [by eexists..|by apply elem_of_nil in Hin].
  - unfold switchedLevels, DPanicLevel, PanicLevel, ErrorLevel, WarnLevel, InfoLevel,
      DebugLevel, FatalLevel.
    split; rewrite !not_elem_of_cons; repeat split; (lia || apply not_elem_of_nil).
Qed.

(** ** The registry and the fan-out of one record *)

Lemma is_range_order_spec m order :
  is_range_order m order = true ↔ range_order m order.
Proof.
  unfold is_range_order, range_order.
  rewrite !andb_true_iff, !bool_decide_eq_true, !Forall_forall.
  split.
  - intros [[Hnd Hsub] Hsup]. split; [done|]. intros id. split.
    + intros Hin. apply elem_of_dom. by apply Hsub.
    + intros Hs. apply Hsup. apply elem_of_elements. by apply elem_of_dom.
  - intros [Hnd Hiff]. repeat split; [done| |].
    + intros id Hin. apply elem_of_dom. by apply Hiff.
    + intros id Hin. apply Hiff. apply elem_of_dom. by apply elem_of_elements.
Qed.

(** The job [fanout] builds for one key, if any. *)
Definition jobFor (m : gmap string (option LogPublisher)) (p : ptr) (id : string)
  : option sendJob :=
  match m !! id with
  | Some (Some lg) => Some {| loggerID := id; logger := Some lg; logData := p |}
  | _ => None
  end.

(** The line [fanout] prints for one key, if any. *)
Definition diagFor (m : gmap string (option LogPublisher)) (id : string) : option Diag :=
  match m !! id with
  | Some None => Some (DiagNilLogger id)
  | _ => None
  end.

Lemma fanout_jobs m p order : (fanout m p order).2 = omap (jobFor m p) order.
Proof.
  induction order as [|id order IH]; [done|].
  simpl. unfold jobFor at 1. destruct (fanout m p order) as [ds js]. simpl in IH.
  destruct (m !! id) as [[lg|]|]; simpl; by rewrite IH.
Qed.

Lemma fanout_diags m p order : (fanout m p order).1 = omap (diagFor m) order.
Proof.
  induction order as [|id order IH]; [done|].
  simpl. unfold diagFor at 1. destruct (fanout m p order) as [ds js]. simpl in IH.
  destruct (m !! id) as [[lg|]|]; simpl; by rewrite IH.
Qed.

Lemma jobFor_id m p id j : jobFor m p id = Some j → loggerID j = id.
Proof. unfold jobFor. repeat case_match; intros; by simplify_eq. Qed.

(** Among the jobs built from keys without repetition, those for one key. *)
Lemma decide_elem_of_cons {B} (id id' : string) (order : list string) (x y : B) :
  (if decide (id ∈ id' :: order) then x else y) =
  if decide (id' = id) then x else if decide (id ∈ order) then x else y.
Proof.
  destruct (decide (id' = id)) as [->|Hne].
  - rewrite decide_True; [done|]. apply elem_of_cons; auto.
  - destruct (decide (id ∈ order)).
    + rewrite decide_True; [done|]. apply elem_of_cons; auto.
    + rewrite decide_False; [done|]. apply not_elem_of_cons; auto.
Qed.

Lemma jobs_of_key m p id order :
  NoDup order →
  filter (λ j, loggerID j = id) (omap (jobFor m p) order) =
  if decide (id ∈ order) then option_list (jobFor m p id) else [].
Proof.
  induction 1 as [|id' order Hni Hnd IH]; [done|].
  rewrite decide_elem_of_cons.
  cbn [omap list_omap]. destruct (jobFor m p id') as [j|] eqn:Hj.
  - rewrite filter_cons. apply jobFor_id in Hj as Hid. subst id'.
    destruct (decide (loggerID j = id)) as [<-|Hne].
    + rewrite IH. rewrite decide_False by done. by rewrite Hj.
    + by rewrite IH.
  - rewrite IH. destruct (decide (id' = id)) as [->|Hne]; [|done].
    rewrite decide_False by done. by rewrite Hj.
Qed.

Lemma diags_of_key m id order :
  NoDup order →
  filter (λ d, d = DiagNilLogger id) (omap (diagFor m) order) =
  if decide (id ∈ order) then option_list (diagFor m id) else [].
Proof.
  assert (Hd : ∀ i d, diagFor m i = Some d → d = DiagNilLogger i).
  { unfold diagFor. intros i d. repeat case_match; intros; by simplify_eq. }
  induction 1 as [|id' order Hni Hnd IH]; [done|].
  rewrite decide_elem_of_cons.
  cbn [omap list_omap]. destruct (diagFor m id') as [d|] eqn:Hj.
  - rewrite filter_cons. apply Hd in Hj as Hid. subst d.
    destruct (decide (id' = id)) as [->|Hne].
    + rewrite decide_True by done. rewrite IH. rewrite decide_False by done.
      by rewrite Hj.
    + rewrite decide_False by congruence. by rewrite IH.
  - rewrite IH. destruct (decide (id' = id)) as [->|Hne]; [|done].
    rewrite decide_False by done. by rewrite Hj.
Qed.

(** The jobs and the printed lines of [processLogData] on a record that
    is not nil, for a registry that is not empty. *)
Lemma processLogData_nonempty ls order p :
  size (loggers ls) ≠ 0%nat →
  processLogData ls order (Some p) =
  (omap (diagFor (loggers ls)) order, omap (jobFor (loggers ls) p) order).
Proof.
  intros Hne. unfold processLogData. rewrite decide_False by done.
  rewrite <- fanout_jobs, <- (fanout_diags _ p). by destruct (fanout _ _ _).
Qed.

(** The publishers of a registry that are not nil. *)
Definition registered (m : gmap string (option LogPublisher)) : gmap string (option LogPublisher) :=
  filter (λ kv, is_Some kv.2) m.

Lemma range_order_perm m order : range_order m order → order ≡ₚ elements (dom m).
Proof.
  intros [Hnd Hiff]. apply NoDup_Permutation; [done|apply NoDup_elements|].
  intros id. rewrite elem_of_elements, elem_of_dom. apply Hiff.
Qed.

Lemma length_omap_jobFor m p (l : list string) :
  length (omap (jobFor m p) l) = length (filter (λ id, id ∈ dom (registered m)) l).
Proof.
  induction l as [|id l IH]; [done|].
  cbn [omap list_omap]. rewrite filter_cons.
  assert (Hiff : id ∈ dom (registered m) ↔ is_Some (jobFor m p id)).
  { unfold registered, jobFor. rewrite elem_of_dom. split.
    - intros [lg Hlg]. apply map_lookup_filter_Some in Hlg as [-> Hs].
      simpl in Hs. destruct Hs as [lg' ->]. by eexists.
    - destruct (m !! id) as [[lg|]|] eqn:Hm; intros [j Hj]; try done.
      exists (Some lg). apply map_lookup_filter_Some. split; [done|by eexists]. }
  destruct (jobFor m p id) as [j|] eqn:Hj.
  - rewrite decide_True by (apply Hiff; by eexists). simpl. by rewrite IH.
  - rewrite decide_False; [done|]. intros Hin. apply Hiff in Hin as [? ?]. done.
Qed.

Lemma length_jobs m p order :
  range_order m order → length (omap (jobFor m p) order) = size (registered m).
Proof.
  intros Hro. rewrite length_omap_jobFor.
  rewrite (range_order_perm _ _ Hro).
  rewrite <- size_dom. unfold size, set_size. simpl.
  apply Permutation_length. apply NoDup_Permutation.
  - apply NoDup_filter, NoDup_elements.
  - apply NoDup_elements.
  - intros id. rewrite list_elem_of_filter, !elem_of_elements.
    split; [by intros [? ?]|]. intros Hin. split; [done|].
    apply elem_of_dom in Hin as [lg Hlg].
    apply map_lookup_filter_Some in Hlg as [Hlg _]. apply elem_of_dom. by eexists.
Qed.

(** C1. When the main worker has dequeued a record that is not nil and
    the registry is not empty, the locked part of [processLogData] builds,
    from the registry as it is at that moment, exactly one job for every
    publisher that is registered and not nil, and no other job: as many
    jobs as there are such publishers, each for this record.  A publisher
    added afterwards finds the jobs already built: adding it changes
    neither the jobs still to be sent nor the job channel, and none of
    the jobs is for it. *)
Theorem C1_one_job_per_publisher_in_the_snapshot
    (s : State) (order : list string) (p : ptr) (k : MainLoop) :
  halted s = None →
  mainW s = MProcess (Some p) k →
  size (loggers (svc s)) ≠ 0%nat →
  range_order (loggers (svc s)) order →
  ∃ diags jobs s1,
    exec (AMainLocked order) s = Some (map EvPrint diags ++ [EvFanout (Some p) jobs], s1) ∧
    mainW s1 = MSending jobs k ∧
    (∀ id lg, loggers (svc s) !! id = Some (Some lg) →
       filter (λ j, loggerID j = id) jobs
       = [ {| loggerID := id; logger := Some lg; logData := p |} ]) ∧
    (∀ id, loggers (svc s) !! id = None ∨ loggers (svc s) !! id = Some None →
       filter (λ j, loggerID j = id) jobs = []) ∧
    length jobs = size (registered (loggers (svc s))) ∧
    (∀ id lg, loggers (svc s) !! id = None →
       ∃ s2, exec (AAddLogger id lg) s1 = Some ([], s2) ∧
             loggers (svc s2) !! id = Some lg ∧
             mainW s2 = MSending jobs k ∧
             jobCh (svc s2) = jobCh (svc s1) ∧
             filter (λ j, loggerID j = id) jobs = []).
Proof.
  intros Hh Hm Hne Hro.
  pose proof Hro as [Hnd Hiff].
  exists (omap (diagFor (loggers (svc s))) order),
         (omap (jobFor (loggers (svc s)) p) order),
         (set_mainW s (MSending (omap (jobFor (loggers (svc s)) p) order) k)).
  assert (Hkey : ∀ id, filter (λ j, loggerID j = id) (omap (jobFor (loggers (svc s)) p) order)
                       = option_list (jobFor (loggers (svc s)) p id)).
  { intros id. rewrite jobs_of_key by done.
    destruct (decide (id ∈ order)) as [|Hni]; [done|].
    unfold jobFor. destruct (loggers (svc s) !! id) as [lg|] eqn:Hl; [|done].
    exfalso. apply Hni, Hiff. by eexists. }
  split.
  { unfold exec, processLogData_locked. rewrite Hh, Hm.
    apply is_range_order_spec in Hro. rewrite Hro.
    by rewrite processLogData_nonempty by done. }
  split; [done|]. split.
  { intros id lg Hl. rewrite Hkey. unfold jobFor. by rewrite Hl. }
  split.
  { intros id Hl. rewrite Hkey. unfold jobFor. by destruct Hl as [-> | ->]. }
  split; [by apply length_jobs|].
  intros id lg Hl. eexists. split.
  { unfold exec. simpl. rewrite Hh. reflexivity. }
  simpl. split; [apply lookup_insert_eq|]. split; [done|]. split; [done|].
  rewrite Hkey. unfold jobFor. by rewrite Hl.
Qed.

(** A publisher that returns at once and leaves the record as it is, like
    the [mockPublisher] of the repository's tests. *)
Definition mockPublisher : LogPublisher :=
  {| SendMsg := λ d, {| pr_record := d; pr_end := Return |} |}.

(** A service with two publishers and a nil entry, its main worker
    holding the record at address 0. *)
Definition snapshotState : State :=
  set_mainW
    (set_svc (init (make 0))
       (AddLogger
          (AddLogger (AddLogger (NewLoggerService (make 0)) "mock" (Some mockPublisher))
                     "broken" None)
          "zap" (Some (zap.publisher (zap.NewZapLogger "app" "dev")))))
    (MProcess (Some 0%nat) InSelect).

Lemma C1_one_job_per_publisher_in_the_snapshot_witness :
  ∃ diags jobs s1,
    exec (AMainLocked ["zap"; "broken"; "mock"]) snapshotState
    = Some (map EvPrint diags ++ [EvFanout (Some 0%nat) jobs], s1) ∧
    mainW s1 = MSending jobs InSelect ∧
    (∀ id lg, loggers (svc snapshotState) !! id = Some (Some lg) →
       filter (λ j, loggerID j = id) jobs
       = [ {| loggerID := id; logger := Some lg; logData := 0%nat |} ]) ∧
    (∀ id, loggers (svc snapshotState) !! id = None ∨
           loggers (svc snapshotState) !! id = Some None →
       filter (λ j, loggerID j = id) jobs = []) ∧
    length jobs = size (registered (loggers (svc snapshotState))) ∧
    (∀ id lg, loggers (svc snapshotState) !! id = None →
       ∃ s2, exec (AAddLogger id lg) s1 = Some ([], s2) ∧
             loggers (svc s2) !! id = Some lg ∧
             mainW s2 = MSending jobs InSelect ∧
             jobCh (svc s2) = jobCh (svc s1) ∧
             filter (λ j, loggerID j = id) jobs = []).
Proof.
  apply (C1_one_job_per_publisher_in_the_snapshot
           snapshotState ["zap"; "broken"; "mock"] 0%nat InSelect).
  - reflexivity.
  - reflexivity.
  - vm_compute. lia.
  - apply is_range_order_spec. vm_compute. reflexivity.
Defined.

(** ** Runs of the service *)

Lemma run_app acts1 acts2 s :
  run (acts1 ++ acts2) s =
  match run acts1 s with
  | Some (e1, s1) =>
      match run acts2 s1 with
      | Some (e2, s2) => Some (e1 ++ e2, s2)
      | None => None
      end
  | None => None
  end.
Proof.
  revert s. induction acts1 as [|a acts1 IH]; intros s; simpl.
  - by destruct (run acts2 s) as [[e2 s2]|].
  - destruct (exec a s) as [[e s']|]; [|done]. rewrite IH.
    destruct (run acts1 s') as [[e1 s1]|]; [|done].
    destruct (run acts2 s1) as [[e2 s2]|]; [|done]. by rewrite app_assoc.
Qed.

(** Induction along a run: a property of the events so far and the state
    that every move preserves holds at the end of every run. *)
Lemma run_preserves (P : list Event → State → Prop) :
  (∀ evs s a evs' s', P evs s → exec a s = Some (evs', s') → P (evs ++ evs') s') →
  ∀ acts evs0 s0 evs s,
    P evs0 s0 → run acts s0 = Some (evs, s) → P (evs0 ++ evs) s.
Proof.
  intros Hstep acts. induction acts as [|a acts IH]; intros evs0 s0 evs s HP Hrun.
  - simpl in Hrun. simplify_eq. by rewrite app_nil_r.
  - simpl in Hrun. destruct (exec a s0) as [[e s']|] eqn:He; [|done].
    destruct (run acts s') as [[e' s'']|] eqn:Hr; [|done]. simplify_eq.
    rewrite app_assoc. eapply IH; [|done]. by eapply Hstep.
Qed.

(** Case analysis on one move. *)
Ltac exec_inv H :=
  unfold exec, Start, Stop, closeStopCh, submit, sendData_run, sendData,
    runMainWorker_stop, runMainWorker_recv, runMainWorker_return,
    processLogData_locked, processLogData_send, runWorker_recv, processJob_done,
    processJob_timeout, publish, crash, send, recv, close in H;
  repeat case_match; simplify_eq.

(** What the events of a run say happened. *)
Definition enqueued (evs : list Event) : list (option ptr) :=
  omap (λ e, match e with EvEnqueued x => Some x | _ => None end) evs.

Definition dequeued (evs : list Event) : list (option ptr) :=
  omap (λ e, match e with EvDequeued x => Some x | _ => None end) evs.

Definition fanned (evs : list Event) : list (option ptr * list sendJob) :=
  omap (λ e, match e with EvFanout x js => Some (x, js) | _ => None end) evs.

Definition queuedJobs (evs : list Event) : list sendJob :=
  omap (λ e, match e with EvJobQueued j => Some j | _ => None end) evs.

Definition takenJobs (evs : list Event) : list (sendJob * nat) :=
  omap (λ e, match e with EvJobTaken _ j cid => Some (j, cid) | _ => None end) evs.

(** The jobs whose worker has left the [select] of [processJob], through
    either case. *)
Definition leftJobs (evs : list Event) : list (sendJob * nat) :=
  omap (λ e, match e with
             | EvJobDone _ j cid | EvJobTimedOut _ j cid => Some (j, cid)
             | _ => None
             end) evs.

Definition printed (evs : list Event) : list Diag :=
  omap (λ e, match e with EvPrint d => Some d | _ => None end) evs.

(** What the state holds of each stage. *)
Definition currentRec (m : MainPC) : list (option ptr) :=
  match m with MProcess x _ => [x] | _ => [] end.

Definition pendingJobs (m : MainPC) : list sendJob :=
  match m with MSending js _ => js | _ => [] end.

Definition inhandOf (w : WorkerPC) : option (sendJob * nat) :=
  match w with WSelect j cid _ => Some (j, cid) | _ => None end.

Definition inhand (ws : list WorkerPC) : list (sendJob * nat) := omap inhandOf ws.

Lemma omap_prints {B} (f : Event → option B) diags :
  (∀ d, f (EvPrint d) = None) → omap f (map EvPrint diags) = [].
Proof. intros Hf. induction diags as [|d ds IH]; [done|]. simpl. by rewrite Hf. Qed.

Lemma inhand_insert ws w old new :
  ws !! w = Some old →
  inhand (<[w := new]> ws) =
  inhand (take w ws) ++ option_list (inhandOf new) ++ inhand (drop (S w) ws) ∧
  inhand ws = inhand (take w ws) ++ option_list (inhandOf old) ++ inhand (drop (S w) ws).
Proof.
  intros Hw. unfold inhand.
  assert (Hlt : (w < length ws)%nat) by (by eapply lookup_lt_Some).
  split.
  - rewrite insert_take_drop by done. rewrite omap_app. simpl.
    by destruct (inhandOf new).
  - rewrite <- (take_drop_middle ws w old) at 1 by done. rewrite omap_app. simpl.
    by destruct (inhandOf old).
Qed.

(** *** Nothing is lost between the stages

    Every record the intake accepted is in the intake channel, in the
    hands of the main worker, or fanned out; every job built is still to
    be sent, in the job channel, or taken by a worker; every job taken has
    its own publish goroutine, and its worker is waiting for it or has
    left the wait.  The channels keep the order. *)
Definition flow (evs : list Event) (s : State) : Prop :=
  enqueued evs = dequeued evs ++ buf (inputCh (svc s)) ∧
  dequeued evs = map fst (fanned evs) ++ currentRec (mainW s) ∧
  concat (map snd (fanned evs)) = queuedJobs evs ++ pendingJobs (mainW s) ∧
  queuedJobs evs = map fst (takenJobs evs) ++ buf (jobCh (svc s)) ∧
  map fst (takenJobs evs) = map cjob (calls s) ∧
  map snd (takenJobs evs) = seq 0 (length (calls s)) ∧
  takenJobs evs ≡ₚ leftJobs evs ++ inhand (workers s).

Lemma enqueued_app e1 e2 : enqueued (e1 ++ e2) = enqueued e1 ++ enqueued e2.
Proof. apply omap_app. Qed.
Lemma dequeued_app e1 e2 : dequeued (e1 ++ e2) = dequeued e1 ++ dequeued e2.
Proof. apply omap_app. Qed.
Lemma fanned_app e1 e2 : fanned (e1 ++ e2) = fanned e1 ++ fanned e2.
Proof. apply omap_app. Qed.
Lemma queuedJobs_app e1 e2 : queuedJobs (e1 ++ e2) = queuedJobs e1 ++ queuedJobs e2.
Proof. apply omap_app. Qed.
Lemma takenJobs_app e1 e2 : takenJobs (e1 ++ e2) = takenJobs e1 ++ takenJobs e2.
Proof. apply omap_app. Qed.
Lemma leftJobs_app e1 e2 : leftJobs (e1 ++ e2) = leftJobs e1 ++ leftJobs e2.
Proof. apply omap_app. Qed.
Lemma printed_app e1 e2 : printed (e1 ++ e2) = printed e1 ++ printed e2.
Proof. apply omap_app. Qed.

Lemma enqueued_prints ds : enqueued (map EvPrint ds) = [].
Proof. by apply omap_prints. Qed.
Lemma dequeued_prints ds : dequeued (map EvPrint ds) = [].
Proof. by apply omap_prints. Qed.
Lemma fanned_prints ds : fanned (map EvPrint ds) = [].
Proof. by apply omap_prints. Qed.
Lemma queuedJobs_prints ds : queuedJobs (map EvPrint ds) = [].
Proof. by apply omap_prints. Qed.
Lemma takenJobs_prints ds : takenJobs (map EvPrint ds) = [].
Proof. by apply omap_prints. Qed.
Lemma leftJobs_prints ds : leftJobs (map EvPrint ds) = [].
Proof. by apply omap_prints. Qed.

Ltac proj_simpl :=
  rewrite ?enqueued_app, ?dequeued_app, ?fanned_app, ?queuedJobs_app, ?takenJobs_app,
    ?leftJobs_app, ?printed_app, ?enqueued_prints, ?dequeued_prints, ?fanned_prints,
    ?queuedJobs_prints, ?takenJobs_prints, ?leftJobs_prints;
  simpl; rewrite ?app_nil_r.


Lemma inhand_replicate n : inhand (replicate n WRange) = [].
Proof. induction n as [|n IH]; [done|]. simpl. apply IH. Qed.

Lemma map_cjob_insert calls cid j st st' :
  calls !! cid = Some (mkCall j st) →
  map cjob (<[cid := mkCall j st']> calls) = map cjob calls.
Proof.
  intros Hc. apply list_eq. intros i. rewrite !list_lookup_fmap.
  destruct (decide (i = cid)) as [->|Hne].
  - rewrite list_lookup_insert_eq by (by eapply lookup_lt_Some). by rewrite Hc.
  - by rewrite list_lookup_insert_ne.
Qed.



Ltac use_eqs :=
  repeat match goal with
  | Heq : buf ?c = _ |- context [buf ?c] => rewrite Heq
  | Heq : mainW ?s = _ |- context [mainW ?s] => rewrite Heq
  end.


Lemma inhand_app ws1 ws2 : inhand (ws1 ++ ws2) = inhand ws1 ++ inhand ws2.
Proof. apply omap_app. Qed.

Lemma flow_step evs s a evs' s' :
  flow evs s → exec a s = Some (evs', s') → flow (evs ++ evs') s'.
Proof.
  intros Hf He. revert Hf. unfold flow.
  exec_inv He; intros (F1 & F2 & F3 & F4 & F5 & F6 & F7);
    simpl in F2, F3; rewrite ?app_nil_r in F1, F2, F3, F4;
    proj_simpl; use_eqs; simpl;
    rewrite ?inhand_app, ?inhand_replicate, ?length_insert, ?app_nil_r;
    try (repeat split; assumption);
    (split; [|split; [|split; [|split; [|split; [|split]]]]]);
    try assumption;
    try (rewrite ?map_app, ?concat_app, ?length_app, ?seq_app; simpl;
         rewrite ?F1, ?F2, ?F3, ?F4, ?F5, ?F6;
         rewrite ?app_nil_r, <- ?app_assoc; simpl; done);
    try (erewrite map_cjob_insert by eassumption; assumption).
  all: match goal with
       | Hw : workers ?s !! ?w = Some ?old
         |- context [inhand (<[?w := ?new]> (workers ?s))] =>
           destruct (inhand_insert (workers s) w old new Hw) as [-> Hold];
           rewrite Hold in F7; simpl in *; rewrite F7
       end.
  all: solve_Permutation.
Qed.

(** *** The goroutines and the wait groups *)

Definition mainActive (m : MainPC) : bool :=
  match m with MNotStarted | MExited => false | _ => true end.

Definition workerActive (w : WorkerPC) : bool :=
  match w with WExited => false | _ => true end.

Definition activeWorkers (ws : list WorkerPC) : nat :=
  length (filter (λ w, workerActive w = true) ws).

(** The counters of the wait groups count the goroutines that have not
    returned; the job channel is closed exactly when the main worker has
    returned, which it does only with the intake closed and empty; a
    worker returns only with the job channel closed and empty. *)
Definition lifecycle (s : State) : Prop :=
  mainWg (svc s) = Nat.b2n (mainActive (mainW s)) ∧
  wg (svc s) = activeWorkers (workers s) ∧
  (closed (jobCh (svc s)) = true ↔ mainW s = MExited) ∧
  (mainW s = MExited →
     closed (inputCh (svc s)) = true ∧ buf (inputCh (svc s)) = []) ∧
  (∀ w, workers s !! w = Some WExited →
     closed (jobCh (svc s)) = true ∧ buf (jobCh (svc s)) = []) ∧
  (mainW s = MNotStarted → workers s = []) ∧
  (mainW s ≠ MNotStarted → length (workers s) = defaultNumWorkers) ∧
  numWorkers (svc s) = defaultNumWorkers.

Lemma activeWorkers_app ws1 ws2 :
  activeWorkers (ws1 ++ ws2) = (activeWorkers ws1 + activeWorkers ws2)%nat.
Proof. unfold activeWorkers. by rewrite filter_app, length_app. Qed.

Lemma activeWorkers_replicate n : activeWorkers (replicate n WRange) = n.
Proof.
  unfold activeWorkers. induction n as [|n IH]; [done|].
  change (replicate (S n) WRange) with (WRange :: replicate n WRange).
  rewrite filter_cons. simpl. by rewrite IH.
Qed.

Lemma activeWorkers_insert ws w old new :
  ws !! w = Some old →
  (activeWorkers (<[w := new]> ws) + Nat.b2n (workerActive old) =
   activeWorkers ws + Nat.b2n (workerActive new))%nat.
Proof.
  intros Hw.
  assert (Hlt : (w < length ws)%nat) by (by eapply lookup_lt_Some).
  rewrite insert_take_drop by done.
  rewrite <- (take_drop_middle ws w old) at 3 by done.
  rewrite !activeWorkers_app.
  change (new :: drop (S w) ws) with ([new] ++ drop (S w) ws).
  change (old :: drop (S w) ws) with ([old] ++ drop (S w) ws).
  rewrite !activeWorkers_app. unfold activeWorkers at 2 5.
  rewrite !filter_cons, !filter_nil.
  destruct old, new; simpl; lia.
Qed.

Ltac worker_insert_active L2 :=
  match goal with
  | Hw : workers ?s !! ?w = Some ?old |- context [activeWorkers (<[?w := ?new]> (workers ?s))] =>
      pose proof (activeWorkers_insert (workers s) w old new Hw) as Hact;
      simpl in Hact; lia
  end.

Ltac worker_insert_exited L5 :=
  match goal with
  | Hw : workers ?s !! ?w = Some _ |- ∀ w0, <[?w := _]> (workers ?s) !! w0 = Some WExited → _ =>
      let w0 := fresh "w0" in let Hw0 := fresh "Hw0" in
      intros w0 Hw0; destruct (decide (w0 = w)) as [->|];
      [ rewrite list_lookup_insert_eq in Hw0 by (by eapply lookup_lt_Some);
        simplify_eq
      | rewrite list_lookup_insert_ne in Hw0 by done;
        destruct (L5 _ Hw0); by simplify_eq ]
  end.

Lemma lifecycle_step s a evs' s' :
  lifecycle s → exec a s = Some (evs', s') → lifecycle s'.
Proof.
  intros Hl He. revert Hl. unfold lifecycle.
  exec_inv He; intros (L1 & L2 & L3 & L4 & L5 & L6 & L7 & L8); simpl in *;
    use_eqs; simpl;
    try (repeat split; assumption).
  all: split_and!; try done; try lia; try (intuition congruence).
  all: rewrite ?length_insert; try done.
  all: try worker_insert_active L2.
  all: try worker_insert_exited L5.
  all: try (intros Hm; specialize (L6 Hm);
            match goal with Hw : workers _ !! _ = Some _ |- _ =>
              rewrite L6 in Hw; by rewrite lookup_nil in Hw end).
  all: try (intros w0 Hw0; destruct (L5 _ Hw0); by simplify_eq).
  - rewrite activeWorkers_app, activeWorkers_replicate. lia.
  - rewrite (L6 eq_refl). simpl. intros w Hw.
    apply lookup_replicate in Hw as [? _]. done.
  - intros _. rewrite (L6 eq_refl). simpl. by rewrite length_replicate.
Qed.

Lemma flow_init stopCh : flow [] (init stopCh).
Proof. unfold flow. simpl. repeat split; done. Qed.

Lemma lifecycle_init stopCh : lifecycle (init stopCh).
Proof.
  unfold lifecycle. simpl. split_and!; done.
Qed.

Lemma run_flow acts stopCh evs s :
  run acts (init stopCh) = Some (evs, s) → flow evs s.
Proof.
  intros Hrun.
  apply (run_preserves flow flow_step acts [] (init stopCh) evs s); [|done].
  apply flow_init.
Qed.

Lemma run_lifecycle acts s0 evs s :
  lifecycle s0 → run acts s0 = Some (evs, s) → lifecycle s.
Proof.
  intros Hl Hrun.
  apply (run_preserves (λ _ s, lifecycle s)
           (λ _ s a evs' s' Hs He, lifecycle_step s a evs' s' Hs He)
           acts [] s0 evs s); done.
Qed.

(** *** Shutdown *)

(** On a started service the two [Wait]s of [Stop] return only with
    their counter at zero, and the counters stay there. *)
Definition joined (s : State) : Prop :=
  mainW s ≠ MNotStarted ∧
  (stopper s = SWaitWorkers ∨ stopper s = SReturned → mainWg (svc s) = 0%nat) ∧
  (stopper s = SReturned → wg (svc s) = 0%nat).

Lemma joined_step s a evs' s' :
  joined s → exec a s = Some (evs', s') → joined s'.
Proof.
  intros Hj He. revert Hj. unfold joined.
  exec_inv He; intros (J1 & J2 & J3); simpl in *;
    try (split_and!; assumption);
    split_and!; try done; try (intuition congruence); try (intuition lia).
Qed.

Lemma run_joined acts s0 evs s :
  joined s0 → run acts s0 = Some (evs, s) → joined s.
Proof.
  intros Hj Hrun.
  apply (run_preserves (λ _ s, joined s)
           (λ _ s a evs' s' Hs He, joined_step s a evs' s' Hs He)
           acts [] s0 evs s); done.
Qed.

Lemma activeWorkers_zero ws :
  activeWorkers ws = 0%nat → Forall (λ w, w = WExited) ws.
Proof.
  unfold activeWorkers. induction ws as [|w ws IH]; [by constructor|].
  rewrite filter_cons. destruct w; simpl; try done.
  intros H0. constructor; [done|by apply IH].
Qed.

Lemma inhand_exited ws : Forall (λ w, w = WExited) ws → inhand ws = [].
Proof. induction 1 as [|w ws -> _ IH]; [done|]. simpl. apply IH. Qed.

(** *** What became of the jobs taken *)

(** The jobs whose worker left through [doneCh], and those whose worker
    left through the timer. *)
Definition doneJobs (evs : list Event) : list (sendJob * nat) :=
  omap (λ e, match e with EvJobDone _ j cid => Some (j, cid) | _ => None end) evs.

Definition timedOutJobs (evs : list Event) : list (sendJob * nat) :=
  omap (λ e, match e with EvJobTimedOut _ j cid => Some (j, cid) | _ => None end) evs.

Lemma doneJobs_app e1 e2 : doneJobs (e1 ++ e2) = doneJobs e1 ++ doneJobs e2.
Proof. apply omap_app. Qed.

Lemma doneJobs_prints ds : doneJobs (map EvPrint ds) = [].
Proof. by apply omap_prints. Qed.

Lemma leftJobs_done_or_timedOut evs j cid :
  (j, cid) ∈ leftJobs evs → (j, cid) ∈ doneJobs evs ∨ (j, cid) ∈ timedOutJobs evs.
Proof.
  induction evs as [|e evs IH]; [intros Hin; by apply elem_of_nil in Hin|].
  destruct e; simpl; try done.
  - rewrite !elem_of_cons. intros [?|?]; [by left; left|].
    destruct IH as [?|?]; auto.
  - rewrite !elem_of_cons. intros [?|?]; [by right; left|].
    destruct IH as [?|?]; auto.
Qed.

(** Goroutine [cid] has called [SendMsg] of the publisher of [j] on the
    record of [j], and the call has returned. *)
Definition publishReturned (evs : list Event) (cid : nat) (j : sendJob) : Prop :=
  ∃ d, EvPublish cid (loggerID j) (logData j) d Return ∈ evs.

Lemma publishReturned_app e1 e2 cid j :
  publishReturned e1 cid j → publishReturned (e1 ++ e2) cid j.
Proof. intros [d Hd]. exists d. apply elem_of_app. by left. Qed.

(** [doneCh] is closed only by the goroutine of its job, after [SendMsg]
    has returned; a worker that leaves through [doneCh] has seen it
    closed. *)
Definition donePublished (evs : list Event) (s : State) : Prop :=
  (∀ (cid : nat) j, calls s !! cid = Some (mkCall j CDone) → publishReturned evs cid j) ∧
  (∀ j cid, (j, cid) ∈ doneJobs evs → publishReturned evs cid j) ∧
  (∀ (w : nat) j (cid : nat) dl,
     workers s !! w = Some (WSelect j cid dl) → ∃ st, calls s !! cid = Some (mkCall j st)).

Ltac done_weaken D :=
  let H := fresh in
  intros ? ? H; try apply publishReturned_app; by eapply D.

Lemma select_insert_other (ws : list WorkerPC) (w w0 : nat) new j cid dl :
  (∀ j c d, new ≠ WSelect j c d) →
  <[w := new]> ws !! w0 = Some (WSelect j cid dl) → ws !! w0 = Some (WSelect j cid dl).
Proof.
  intros Hnew Hl. apply list_lookup_insert_Some in Hl as [(_ & Heq & _)|[_ Hl]]; [|done].
  by destruct (Hnew j cid dl).
Qed.

Lemma call_insert_same (cs : list Call) (cid cid0 : nat) j0 st0 st' j st :
  cs !! cid = Some (mkCall j0 st0) →
  cs !! cid0 = Some (mkCall j st) →
  ∃ st'', <[cid := mkCall j0 st']> cs !! cid0 = Some (mkCall j st'').
Proof.
  intros Hc Hc0. destruct (decide (cid = cid0)) as [->|Hne].
  - rewrite Hc in Hc0. simplify_eq. exists st'.
    apply list_lookup_insert_eq. by eapply lookup_lt_Some.
  - exists st. by rewrite list_lookup_insert_ne.
Qed.

Lemma donePublished_step evs s a evs' s' :
  donePublished evs s → exec a s = Some (evs', s') → donePublished (evs ++ evs') s'.
Proof.
  intros Hd He. revert Hd. unfold donePublished.
  exec_inv He; intros (D1 & D2 & D3); rewrite ?doneJobs_app, ?doneJobs_prints; simpl;
    rewrite ?app_nil_r;
    try (split_and!; [done_weaken D1 | done_weaken D2 | assumption]).
  - (* Start *)
    split_and!; [done_weaken D1 | done_weaken D2 |].
    intros w j cid dl Hw. apply lookup_app_Some in Hw as [Hw|[_ Hw]]; [by eapply D3|].
    by apply lookup_replicate in Hw as [? _].
  - (* a worker takes a job *)
    split_and!.
    + intros cid j Hc. apply publishReturned_app.
      apply lookup_app_Some in Hc as [Hc|[_ Hc]]; [by eapply D1|].
      by destruct (cid - length (calls s))%nat; simplify_eq/=.
    + done_weaken D2.
    + intros w0 j cid dl Hw.
      apply list_lookup_insert_Some in Hw as [(_ & Heq & _)|[_ Hw]].
      * simplify_eq. exists CSpawned. rewrite lookup_app_r by lia.
        by rewrite Nat.sub_diag.
      * destruct (D3 _ _ _ _ Hw) as [st Hst]. exists st. by apply lookup_app_l_Some.
  - (* a worker returns *)
    split_and!; [done_weaken D1 | done_weaken D2 |].
    intros w0 j cid dl Hw. eapply D3. eapply select_insert_other; [|exact Hw]. intros ? ? ? ?; discriminate.
  - (* a worker leaves through doneCh *)
    split_and!; [done_weaken D1 | |].
    + intros j cid0 Hin. apply publishReturned_app.
      apply elem_of_app in Hin as [Hin|Hin]; [by eapply D2|].
      apply list_elem_of_singleton in Hin. simplify_eq.
      match goal with
      | Hw : workers s !! _ = Some (WSelect _ _ _) |- _ =>
          destruct (D3 _ _ _ _ Hw) as [st Hst]
      end.
      apply D1. congruence.
    + intros w0 j cid0 dl Hw. eapply D3. eapply select_insert_other; [|exact Hw]. intros ? ? ? ?; discriminate.
  - (* a worker leaves through the timer *)
    split_and!; [done_weaken D1 | done_weaken D2 |].
    intros w0 j cid0 dl Hw. eapply D3. eapply select_insert_other; [|exact Hw]. intros ? ? ? ?; discriminate.
  - (* SendMsg returns *)
    split_and!; [| done_weaken D2 |].
    + intros cid0 j Hc.
      apply list_lookup_insert_Some in Hc as [(<- & Heq & _)|[_ Hc]].
      * simplify_eq. eexists. apply elem_of_app. right. by apply list_elem_of_singleton.
      * apply publishReturned_app. by eapply D1.
    + intros w j cid0 dl Hw. destruct (D3 _ _ _ _ Hw) as [st Hst].
      by eapply call_insert_same.
  - (* SendMsg hangs *)
    split_and!; [| done_weaken D2 |].
    + intros cid0 j Hc.
      apply list_lookup_insert_Some in Hc as [(_ & Heq & _)|[_ Hc]]; [done|].
      apply publishReturned_app. by eapply D1.
    + intros w j cid0 dl Hw. destruct (D3 _ _ _ _ Hw) as [st Hst].
      by eapply call_insert_same.
Qed.

Lemma run_donePublished acts stopCh evs s :
  run acts (init stopCh) = Some (evs, s) → donePublished evs s.
Proof.
  intros Hrun.
  apply (run_preserves donePublished donePublished_step acts [] (init stopCh) evs s);
    [|done].
  unfold donePublished. simpl. split_and!.
  - intros cid j Hc. done.
  - intros j cid Hin. by apply elem_of_nil in Hin.
  - intros w j cid dl Hw. done.
Qed.

(** C3. [Stop] called on a started service returns only when the main
    worker has returned, having found the intake channel closed and empty
    and closed the job channel, and every worker has returned, having
    found the job channel closed and empty.  At that moment nothing is
    left between the stages: every record the intake accepted was
    dequeued and fanned out, in the order it was accepted; every job built
    was sent and taken, in the order it was built; and the worker of every
    job taken has left its wait, through [doneCh] or through the timer.
    No job is dropped: for every job whose worker left through [doneCh],
    [SendMsg] of the job's publisher was called on the job's record and
    returned; the other jobs are those that timed out. *)
Theorem C3_stop_returns_after_total_drain
    (stopCh : chan unit) (acts1 acts2 : list Action)
    (e1 e2 : list Event) (s1 s2 : State) :
  run acts1 (init stopCh) = Some (e1, s1) →
  mainW s1 ≠ MNotStarted →
  stopper s1 = SNotCalled →
  run acts2 s1 = Some (e2, s2) →
  stopper s2 = SReturned →
  mainW s2 = MExited ∧
  Forall (λ w, w = WExited) (workers s2) ∧
  length (workers s2) = defaultNumWorkers ∧
  closed (inputCh (svc s2)) = true ∧ buf (inputCh (svc s2)) = [] ∧
  closed (jobCh (svc s2)) = true ∧ buf (jobCh (svc s2)) = [] ∧
  dequeued (e1 ++ e2) = enqueued (e1 ++ e2) ∧
  map fst (fanned (e1 ++ e2)) = enqueued (e1 ++ e2) ∧
  queuedJobs (e1 ++ e2) = concat (map snd (fanned (e1 ++ e2))) ∧
  map fst (takenJobs (e1 ++ e2)) = queuedJobs (e1 ++ e2) ∧
  leftJobs (e1 ++ e2) ≡ₚ takenJobs (e1 ++ e2) ∧
  (∀ j cid, (j, cid) ∈ leftJobs (e1 ++ e2) →
     (j, cid) ∈ doneJobs (e1 ++ e2) ∨ (j, cid) ∈ timedOutJobs (e1 ++ e2)) ∧
  (∀ j cid, (j, cid) ∈ doneJobs (e1 ++ e2) →
     ∃ d, EvPublish cid (loggerID j) (logData j) d Return ∈ e1 ++ e2).
Proof.
  intros Hrun1 Hstarted Hnot Hrun2 Hret.
  assert (Hrun : run (acts1 ++ acts2) (init stopCh) = Some (e1 ++ e2, s2)).
  { rewrite run_app, Hrun1, Hrun2. done. }
  pose proof (run_flow _ _ _ _ Hrun) as (F1 & F2 & F3 & F4 & F5 & F6 & F7).
  pose proof (run_lifecycle _ _ _ _ (lifecycle_init stopCh) Hrun)
    as (L1 & L2 & L3 & L4 & L5 & L6 & L7 & L8).
  assert (Hj1 : joined s1).
  { unfold joined. rewrite Hnot. split_and!; [done|intros [?|?]; done|done]. }
  pose proof (run_joined _ _ _ _ Hj1 Hrun2) as (J1 & J2 & J3).
  specialize (J2 (or_intror Hret)). specialize (J3 Hret).
  assert (Hmain : mainW s2 = MExited).
  { rewrite J2 in L1. destruct (mainW s2); simpl in L1; done. }
  assert (Hws : Forall (λ w, w = WExited) (workers s2)).
  { apply activeWorkers_zero. congruence. }
  specialize (L7 J1). destruct (L4 Hmain) as [Hic Hib].
  assert (Hjob : closed (jobCh (svc s2)) = true ∧ buf (jobCh (svc s2)) = []).
  { destruct (workers s2) as [|w ws]; [done|].
    apply Forall_cons in Hws as [-> _]. by apply (L5 0%nat). }
  destruct Hjob as [Hjc Hjb].
  rewrite Hib, app_nil_r in F1. rewrite Hmain in F2, F3. simpl in F2, F3.
  rewrite app_nil_r in F2, F3. rewrite Hjb, app_nil_r in F4.
  rewrite (inhand_exited _ Hws), app_nil_r in F7.
  destruct (run_donePublished _ _ _ _ Hrun) as (_ & D2 & _).
  pose proof (λ j cid, leftJobs_done_or_timedOut (e1 ++ e2) j cid) as Hleft.
  split_and!; try done; congruence.
Qed.

(** A run of a service with one publisher and two records, and its
    shutdown. *)
Definition shutdownPrefix : list Action :=
  [ AAddLogger "mock" (Some mockPublisher); AStart;
    ASubmit (Some (Info None "first" [])); ASubmit (Some (Warning None "second" []));
    ASendData 0; ASendData 0;
    AMainRecv; AMainLocked ["mock"]; AMainSend; AMainSend;
    AWorkerRecv 0; APublish 0; AWorkerDone 0 ].

Definition shutdownSuffix : list Action :=
  [ AStop; AMainRecv; AMainLocked ["mock"]; AMainSend; AMainSend; AMainRecv;
    AWorkerRecv 2; ATick glog.sendTimeout; AWorkerTimeout 2;
    AWorkerRecv 0; AWorkerRecv 1; AWorkerRecv 2; AWorkerRecv 3;
    AStop; AStop; APublish 1 ].

Definition shutdownMid : list Event * State :=
  default ([], init (make 0)) (run shutdownPrefix (init (make 0))).

Definition shutdownEnd : list Event * State :=
  default ([], init (make 0)) (run shutdownSuffix shutdownMid.2).

Lemma C3_stop_returns_after_total_drain_witness :
  mainW shutdownEnd.2 = MExited ∧
  Forall (λ w, w = WExited) (workers shutdownEnd.2) ∧
  length (workers shutdownEnd.2) = defaultNumWorkers ∧
  closed (inputCh (svc shutdownEnd.2)) = true ∧ buf (inputCh (svc shutdownEnd.2)) = [] ∧
  closed (jobCh (svc shutdownEnd.2)) = true ∧ buf (jobCh (svc shutdownEnd.2)) = [] ∧
  dequeued (shutdownMid.1 ++ shutdownEnd.1) = enqueued (shutdownMid.1 ++ shutdownEnd.1) ∧
  map fst (fanned (shutdownMid.1 ++ shutdownEnd.1))
    = enqueued (shutdownMid.1 ++ shutdownEnd.1) ∧
  queuedJobs (shutdownMid.1 ++ shutdownEnd.1)
    = concat (map snd (fanned (shutdownMid.1 ++ shutdownEnd.1))) ∧
  map fst (takenJobs (shutdownMid.1 ++ shutdownEnd.1))
    = queuedJobs (shutdownMid.1 ++ shutdownEnd.1) ∧
  leftJobs (shutdownMid.1 ++ shutdownEnd.1) ≡ₚ takenJobs (shutdownMid.1 ++ shutdownEnd.1) ∧
  (∀ j cid, (j, cid) ∈ leftJobs (shutdownMid.1 ++ shutdownEnd.1) →
     (j, cid) ∈ doneJobs (shutdownMid.1 ++ shutdownEnd.1) ∨
     (j, cid) ∈ timedOutJobs (shutdownMid.1 ++ shutdownEnd.1)) ∧
  (∀ j cid, (j, cid) ∈ doneJobs (shutdownMid.1 ++ shutdownEnd.1) →
     ∃ d, EvPublish cid (loggerID j) (logData j) d Return
          ∈ shutdownMid.1 ++ shutdownEnd.1).
Proof.
  apply (C3_stop_returns_after_total_drain (make 0) shutdownPrefix shutdownSuffix
           shutdownMid.1 shutdownEnd.1 shutdownMid.2 shutdownEnd.2).
  - vm_compute. reflexivity.
  - vm_compute. discriminate.
  - vm_compute. reflexivity.
  - vm_compute. reflexivity.
  - vm_compute. reflexivity.
Defined.

(** ** Nil publishers *)

Lemma fanout_logger m p order :
  Forall (λ j, is_Some (logger j)) (fanout m p order).2.
Proof.
  rewrite fanout_jobs. induction order as [|id order IH]; [by constructor|].
  cbn [omap list_omap]. unfold jobFor at 1.
  destruct (m !! id) as [[lg|]|]; try done. constructor; [by eexists|done].
Qed.

Lemma processLogData_logger ls order x :
  Forall (λ j, is_Some (logger j)) (processLogData ls order x).2.
Proof.
  unfold processLogData. destruct x as [p|]; [|by constructor].
  case_decide; [by constructor|]. apply fanout_logger.
Qed.

(** Every job in the service carries a publisher that is not nil. *)
Definition jobsSound (s : State) : Prop :=
  Forall (λ j, is_Some (logger j)) (pendingJobs (mainW s)) ∧
  Forall (λ j, is_Some (logger j)) (buf (jobCh (svc s))) ∧
  Forall (λ c, is_Some (logger (cjob c))) (calls s).

Lemma jobsSound_step s a evs' s' :
  jobsSound s → exec a s = Some (evs', s') → jobsSound s'.
Proof.
  intros Hs He. revert Hs. unfold jobsSound.
  exec_inv He; intros (S1 & S2 & S3); simpl in *; use_eqs; simpl;
    try (split_and!; assumption);
    try (apply Forall_cons in S1 as [Hj S1]);
    try (apply Forall_cons in S2 as [Hj S2]);
    (split_and!; [..|]); try done;
    try (apply Forall_app; split; [done|by constructor]);
    try (apply Forall_insert; [done|]; simpl; by eexists);
    try (match goal with H : processLogData ?ls ?o ?x = (_, ?js) |- _ =>
           pose proof (processLogData_logger ls o x) as Hl; by rewrite H in Hl end).
Qed.

Lemma run_jobsSound acts stopCh evs s :
  run acts (init stopCh) = Some (evs, s) → jobsSound s.
Proof.
  intros Hrun.
  apply (run_preserves (λ _ s, jobsSound s)
           (λ _ s a evs' s' Hs He, jobsSound_step s a evs' s' Hs He)
           acts [] (init stopCh) evs s); [|done].
  unfold jobsSound. simpl. split_and!; constructor.
Qed.

(** The publishers that are nil: the nil interface value, and an
    interface value that holds a nil pointer, here a nil [*Logger] of the
    bundled publisher. *)
Definition isNilPublisher (lg : option LogPublisher) : Prop :=
  lg = None ∨ lg = Some zap.nilPublisher.

(** The claim of C9 as a statement about runs: no job is created for a
    nil publisher, so that no publish goroutine ever holds one. *)
Definition nilPublishersGetNoJob : Prop :=
  ∀ stopCh acts evs s c,
    run acts (init stopCh) = Some (evs, s) →
    c ∈ calls s → ¬ isNilPublisher (logger (cjob c)).

(** A nil [*Logger] is registered and a record is logged. *)
Definition nilPointerActs : list Action :=
  [ AAddLogger "zap" (Some zap.nilPublisher); AStart;
    ASubmit (Some (Info None "hello" [])); ASendData 0;
    AMainRecv; AMainLocked ["zap"]; AMainSend; AWorkerRecv 0; APublish 0 ].

Definition nilPointerEnd : list Event * State :=
  default ([], init (make 0)) (run nilPointerActs (init (make 0))).

Lemma C9_counterexample : ¬ nilPublishersGetNoJob.
Proof.
  intros Hclaim.
  assert (Hrun : run nilPointerActs (init (make 0)) = Some (nilPointerEnd.1, nilPointerEnd.2))
    by (vm_compute; reflexivity).
  apply (Hclaim (make 0) nilPointerActs nilPointerEnd.1 nilPointerEnd.2
           (mkCall (mkSendJob "zap" (Some zap.nilPublisher) 0%nat) CSpawned) Hrun).
  - apply list_elem_of_In. vm_compute. auto.
  - by right.
Qed.

(** Where [SendMsg] on a nil [*Logger] reads through its receiver. *)
Definition readsReceiver (d : LogData) : Prop :=
  zap.ctxGives (default context.Background (Ctx d)) AppID = false ∨
  zap.ctxGives (default context.Background (Ctx d)) EnvName = false ∨
  Level d ∈ switchedLevels.

Lemma payloadLoop_never_blocks fs : ∀ acc, zap.payloadLoop acc fs ≠ Blocks.
Proof.
  induction fs as [|f fs IH]; intros acc; [done|].
  cbn [zap.payloadLoop]. destruct f as [g|]; [|done].
  unfold zap.payloadField. repeat case_match; simplify_eq; apply IH.
Qed.

Lemma switched_test lvl :
  lvl ∈ switchedLevels →
  (lvl =? ErrorLevel) || (lvl =? WarnLevel) || (lvl =? InfoLevel)
  || (lvl =? DebugLevel) || (lvl =? FatalLevel) = true.
Proof.
  unfold switchedLevels. rewrite !elem_of_cons.
  intros [->|[->|[->|[->|[->|Hl]]]]]; [done..|by apply elem_of_nil in Hl].
Qed.

Lemma SendMsgNil_reads_receiver d :
  readsReceiver d → ∃ panic, zap.sr_end (zap.SendMsgNil d) = Panic panic.
Proof.
  unfold zap.SendMsgNil, readsReceiver.
  destruct (Ctx d) as [c|] eqn:Hc; cbn [default zap.setCtx Ctx Fields Level];
    rewrite ?Hc; cbn [default];
    intros Hr;
    (destruct (zap.ctxGives _ AppID) eqn:Ha; cbn [negb]; [|by eexists]);
    (destruct (zap.ctxGives _ EnvName) eqn:He; cbn [negb]; [|by eexists]);
    (destruct (zap.payloadLoop _ _) as [out| |msg] eqn:Hp;
       [ destruct Hr as [?|[?|Hl]]; [done|done|]; rewrite (switched_test _ Hl); by eexists
       | by destruct (payloadLoop_never_blocks _ _ Hp)
       | by eexists ]).
Qed.

(** C9, amended.  [AddLogger] stores a nil publisher like any other.  A
    publisher that is the nil interface value is skipped at dispatch:
    [processLogData] prints its line exactly once and builds no job for
    it, and no publish goroutine of any run holds it.  A nil pointer
    stored in the interface is not nil for the guard [logger == nil]: a
    nil [*Logger] gets a job like any publisher and no line is printed;
    [SendMsg] on it panics where it reads through the receiver (a default
    the context does not give, or the logger in a case of the level
    switch), and the panic, which nothing recovers, ends the process. *)
Theorem C9_nil_interface_is_skipped_and_nil_pointer_panics :
  (∀ s id lg, halted s = None → isNilPublisher lg →
     ∃ s', exec (AAddLogger id lg) s = Some ([], s') ∧
           loggers (svc s') !! id = Some lg ∧ halted s' = None) ∧
  (∀ ls order p id,
     range_order (loggers ls) order → loggers ls !! id = Some None →
     filter (λ d, d = DiagNilLogger id) (processLogData ls order (Some p)).1
       = [DiagNilLogger id] ∧
     filter (λ j, loggerID j = id) (processLogData ls order (Some p)).2 = []) ∧
  (∀ ls order x, Forall (λ j, is_Some (logger j)) (processLogData ls order x).2) ∧
  (∀ stopCh acts evs s,
     run acts (init stopCh) = Some (evs, s) →
     Forall (λ c, is_Some (logger (cjob c))) (calls s)) ∧
  (∀ ls order p id,
     range_order (loggers ls) order → loggers ls !! id = Some (Some zap.nilPublisher) →
     filter (λ d, d = DiagNilLogger id) (processLogData ls order (Some p)).1 = [] ∧
     filter (λ j, loggerID j = id) (processLogData ls order (Some p)).2
       = [mkSendJob id (Some zap.nilPublisher) p]) ∧
  (∀ d, readsReceiver d → ∃ panic, pr_end (SendMsg zap.nilPublisher d) = Panic panic) ∧
  (∀ d, Ctx d = None → readsReceiver d) ∧
  (∀ s cid id p d,
     halted s = None →
     calls s !! cid = Some (mkCall (mkSendJob id (Some zap.nilPublisher) p) CSpawned) →
     heap s !! p = Some d → readsReceiver d →
     ∃ evs s' panic,
       exec (APublish cid) s = Some (evs, s') ∧
       halted s' = Some (Crashed panic) ∧ ∀ a, exec a s' = None).
Proof.
  split_and!.
  - intros s id lg Hh _. eexists. unfold exec. rewrite Hh. split; [done|].
    simpl. split; [apply lookup_insert_eq|done].
  - intros ls order p id [Hnd Hiff] Hl.
    assert (Hne : size (loggers ls) ≠ 0%nat).
    { intros H0. apply map_size_empty_iff in H0. rewrite H0 in Hl.
      by rewrite lookup_empty in Hl. }
    rewrite processLogData_nonempty by done. simpl.
    assert (Hin : id ∈ order) by (apply Hiff; by eexists).
    rewrite diags_of_key, jobs_of_key by done.
    rewrite !decide_True by done. unfold diagFor, jobFor. by rewrite Hl.
  - apply processLogData_logger.
  - intros stopCh acts evs s Hrun. by destruct (run_jobsSound _ _ _ _ Hrun) as (_ & _ & ?).
  - intros ls order p id [Hnd Hiff] Hl.
    assert (Hne : size (loggers ls) ≠ 0%nat).
    { intros H0. apply map_size_empty_iff in H0. rewrite H0 in Hl.
      by rewrite lookup_empty in Hl. }
    rewrite processLogData_nonempty by done. simpl.
    assert (Hin : id ∈ order) by (apply Hiff; by eexists).
    rewrite diags_of_key, jobs_of_key by done.
    rewrite !decide_True by done. unfold diagFor, jobFor. by rewrite Hl.
  - intros d Hr. by apply SendMsgNil_reads_receiver.
  - intros d Hc. left. by rewrite Hc.
  - intros s cid id p d Hh Hc Hp Hr.
    destruct (SendMsgNil_reads_receiver d Hr) as [panic Hpanic].
    unfold exec, publish. rewrite Hh, Hc. simpl. unfold ptr in *. rewrite Hp.
    cbn [SendMsg zap.nilPublisher pr_end]. rewrite Hpanic.
    eexists _, _, panic. split; [reflexivity|]. split; [done|]. intros a. by unfold exec.
Qed.

(** ** Who writes a record *)

(** The claim of C7 as a statement about runs: whenever the record at
    one address is handed to [SendMsg] twice, both calls see the same
    content. *)
Definition deliveriesSeeOneRecord : Prop :=
  ∀ stopCh acts evs s p cid1 id1 d1 e1 cid2 id2 d2 e2,
    run acts (init stopCh) = Some (evs, s) →
    EvPublish cid1 id1 p d1 e1 ∈ evs →
    EvPublish cid2 id2 p d2 e2 ∈ evs →
    d1 = d2.

(** One record without a context, fanned out to the zap publisher and to
    a mock; the zap publisher runs first. *)
Definition mutationActs : list Action :=
  [ AAddLogger "zap" (Some (zap.publisher (zap.NewZapLogger "app" "dev")));
    AAddLogger "mock" (Some mockPublisher);
    AStart;
    ASubmit (Some (Info None "hello" [])); ASendData 0;
    AMainRecv; AMainLocked ["zap"; "mock"]; AMainSend; AMainSend; AMainSend;
    AWorkerRecv 0; AWorkerRecv 1; APublish 0; APublish 1 ].

Definition mutationEnd : list Event * State :=
  default ([], init (make 0)) (run mutationActs (init (make 0))).

Lemma C7_counterexample : ¬ deliveriesSeeOneRecord.
Proof.
  intros Hclaim.
  assert (Hrun : run mutationActs (init (make 0)) = Some (mutationEnd.1, mutationEnd.2))
    by (vm_compute; reflexivity).
  pose (d1 := Info None "hello" []).
  pose (d2 := zap.setCtx d1 context.Background).
  assert (Heq : d1 = d2).
  { apply (Hclaim (make 0) mutationActs mutationEnd.1 mutationEnd.2 0%nat
             0%nat "zap" d1 Return 1%nat "mock" d2 Return Hrun).
    - apply list_elem_of_In. vm_compute. auto 10.
    - apply list_elem_of_In. vm_compute. auto 10. }
  discriminate Heq.
Qed.

Lemma zap_SendMsg_record l d :
  zap.sr_record (zap.SendMsg l d) =
  match Ctx d with Some _ => d | None => zap.setCtx d context.Background end.
Proof.
  unfold zap.SendMsg.
  destruct (zap.getPayloadFields l _); [|done..].
  repeat case_match; done.
Qed.

(** C7, amended. The main worker and the workers never write a record:
    every move that is not the run of a publish goroutine leaves every
    record as it is.  [SendMsg] is given the pointer to the shared record:
    each call sees the record as the calls before it left it, and what a
    publisher writes is up to the publisher.  The zap publisher writes one
    thing: [Ctx] of its own record when it is nil, storing the background
    context; it leaves [Msg], [Fields] and [Level] of that record, a
    record whose context is not nil, and every other record as they
    are. *)
Theorem C7_only_publishers_write_and_zap_fills_nil_ctx :
  (∀ a s evs s' p d,
     exec a s = Some (evs, s') → (∀ cid, a ≠ APublish cid) →
     heap s !! p = Some d → heap s' !! p = Some d) ∧
  (∀ cid s evs s' id p d e,
     exec (APublish cid) s = Some (evs, s') → EvPublish cid id p d e ∈ evs →
     heap s !! p = Some d) ∧
  (∀ cid s evs s' j l,
     exec (APublish cid) s = Some (evs, s') →
     calls s !! cid = Some (mkCall j CSpawned) → logger j = Some (zap.publisher l) →
     ∀ p d, heap s !! p = Some d →
            heap s' !! p =
            Some (if decide (p = logData j)
                  then match Ctx d with
                       | Some _ => d
                       | None => zap.setCtx d context.Background
                       end
                  else d)) ∧
  (∀ l d,
     Msg (zap.sr_record (zap.SendMsg l d)) = Msg d ∧
     Fields (zap.sr_record (zap.SendMsg l d)) = Fields d ∧
     Level (zap.sr_record (zap.SendMsg l d)) = Level d ∧
     Ctx (zap.sr_record (zap.SendMsg l d))
       = Some (default context.Background (Ctx d)) ∧
     (Ctx d ≠ None → zap.sr_record (zap.SendMsg l d) = d)).
Proof.
  split_and!.
  - intros a s evs s' p d He Hnp Hp.
    destruct a; try (by (exfalso; eapply Hnp));
      exec_inv He; simpl; try done.
    by apply lookup_app_l_Some.
  - intros cid s evs s' id p d e He Hin.
    exec_inv He; simpl in *;
      repeat match goal with
      | H : _ ∈ [] |- _ => by apply elem_of_nil in H
      | H : _ ∈ _ :: _ |- _ => apply elem_of_cons in H as [H|H]; simplify_eq
      end; done.
  - intros cid s evs s' j l He Hc Hl p d Hp.
    assert (Hheap : ∃ d0, heap s !! logData j = Some d0 ∧
              heap s' = <[logData j := zap.sr_record (zap.SendMsg l d0)]> (heap s)).
    { exec_inv He; simpl in *; simplify_eq; eexists; split; done. }
    destruct Hheap as (d0 & Hd0 & ->).
    destruct (decide (p = logData j)) as [->|Hne].
    + unfold ptr in *. rewrite Hp in Hd0. simplify_eq.
      rewrite list_lookup_insert_eq by (by eapply lookup_lt_Some).
      by rewrite zap_SendMsg_record.
    + by rewrite list_lookup_insert_ne.
  - intros l d. rewrite zap_SendMsg_record.
    destruct (Ctx d) eqn:Hc; simpl; split_and!; done.
Qed.

(** ** What a producer observes *)

(** The claim of C5 as a statement about [sendData]: whatever the state
    of the intake channel, the send returns (having enqueued the record
    or not); it never fails in another way. *)
Definition submissionAlwaysReturns : Prop :=
  ∀ (logChan : chan (option ptr)) (logData : option ptr),
    ∃ c, sendData logChan logData = Returns c.

(** The intake channel once [Stop] has closed it. *)
Definition closedIntake : chan (option ptr) :=
  {| buf := []; cap := defaultInputBufferSize; closed := true |}.

Lemma C5_counterexample : ¬ submissionAlwaysReturns.
Proof.
  intros Hclaim. destruct (Hclaim closedIntake (Some 0%nat)) as [c Hc].
  vm_compute in Hc. discriminate Hc.
Qed.

Lemma errorsLoop_stops_at_nil ctx msgs rest frames opts :
  ∃ ds panic,
    errorsLoop ctx (map Some msgs ++ None :: rest) frames opts = (ds, Panics panic) ∧
    length ds = length msgs.
Proof.
  induction msgs as [|msg msgs (ds & panic & IH & Hlen)].
  - by eexists [], _.
  - cbn [map app errorsLoop error]. cbn [app] in IH. rewrite IH.
    eexists (_ :: ds), panic. split; [done|]. simpl. by rewrite Hlen.
Qed.

(** C5, amended. A logging call first builds its record.  [Info],
    [Warning] and [Debug] always build one; [Error] builds one for an
    error that is not nil and panics in the caller on a nil error, before
    anything is spawned; [Errors] panics at its first nil error, after the
    records of the errors before it.  Once the record is built, the
    submission reports nothing to the caller and does not wait: it
    allocates the record and spawns the send, leaving the intake channel
    as it is.  On an open intake channel the send enqueues the record at
    the tail when there is room and waits when the channel is full.
    Whenever the send returns, the record has been enqueued: there is no
    return that means the record was not accepted. *)
Theorem C5_submission_spawns_a_send_that_enqueues_or_waits :
  (∀ ctx msg frames options,
     ∃ d, Error ctx (Some msg) frames options = Returns d ∧
          Msg d = msg ∧ Level d = ErrorLevel ∧ Ctx d = ctx) ∧
  (∀ ctx frames options, ∃ panic, Error ctx None frames options = Panics panic) ∧
  (∀ ctx msgs rest frames options,
     ∃ ds panic,
       Errors ctx (map Some msgs ++ None :: rest) frames options = (ds, Panics panic) ∧
       length ds = length msgs) ∧
  (∀ s d, halted s = None →
     ∃ s', exec (ASubmit d) s = Some ([], s') ∧
           inputCh (svc s') = inputCh (svc s) ∧
           length (senders s') = S (length (senders s)) ∧
           halted s' = None) ∧
  (∀ (c : chan (option ptr)) x, closed c = false →
     ((length (buf c) < cap c)%nat →
        sendData c x = Returns {| buf := buf c ++ [x]; cap := cap c; closed := false |}) ∧
     ((cap c ≤ length (buf c))%nat → sendData c x = Blocks)) ∧
  (∀ (c c' : chan (option ptr)) x, sendData c x = Returns c' → buf c' = buf c ++ [x]).
Proof.
  split_and!.
  - intros ctx msg frames options. by eexists.
  - intros ctx frames options. by eexists.
  - intros ctx msgs rest frames options. apply errorsLoop_stops_at_nil.
  - intros s d Hh. unfold exec. rewrite Hh. simpl. unfold submit.
    destruct d as [d|]; eexists; (split; [done|]); simpl;
      rewrite length_app; simpl; split_and!; try done; lia.
  - intros c x Hc. unfold sendData, send. rewrite Hc. split; intros Hlen.
    + apply Nat.ltb_lt in Hlen. by rewrite Hlen.
    + apply Nat.ltb_ge in Hlen. by rewrite Hlen.
  - intros c c' x. unfold sendData, send. repeat case_match; intros; by simplify_eq.
Qed.

(** ** Each publish goroutine runs once *)

Definition publishedCids (evs : list Event) : list nat :=
  omap (λ e, match e with EvPublish cid _ _ _ _ => Some cid | _ => None end) evs.

Lemma publishedCids_app e1 e2 :
  publishedCids (e1 ++ e2) = publishedCids e1 ++ publishedCids e2.
Proof. apply omap_app. Qed.

Lemma publishedCids_prints ds : publishedCids (map EvPrint ds) = [].
Proof. by apply omap_prints. Qed.

(** No publish goroutine has run [SendMsg] twice; in a live process the
    goroutines that have run it are those no longer in their first
    state. *)
Definition callsRunOnce (evs : list Event) (s : State) : Prop :=
  NoDup (publishedCids evs) ∧
  (halted s = None →
   ∀ cid, cid ∈ publishedCids evs →
          ∃ j st, calls s !! cid = Some (mkCall j st) ∧ st ≠ CSpawned) ∧
  (∀ cid j st, calls s !! cid = Some (mkCall j st) → st ≠ CSpawned →
               cid ∈ publishedCids evs).

Lemma callsRunOnce_step evs s a evs' s' :
  callsRunOnce evs s → exec a s = Some (evs', s') → callsRunOnce (evs ++ evs') s'.
Proof.
  intros Hc He. revert Hc. unfold callsRunOnce.
  exec_inv He; intros (D1 & D2 & D3); specialize (D2 eq_refl);
    rewrite ?publishedCids_app, ?publishedCids_prints; simpl; rewrite ?app_nil_r;
    try (split_and!; [assumption|done|assumption]);
    try (split_and!; [assumption|intros _; assumption|assumption]).
  - (* a worker takes a job: a new goroutine, in its first state *)
    split_and!; [done| |].
    + intros _ cid Hin. destruct (D2 cid Hin) as (j & st & Hl & Hst).
      exists j, st. split; [by apply lookup_app_l_Some|done].
    + intros cid j st Hl Hst. apply lookup_app_Some in Hl as [Hl|[_ Hl]].
      * by eapply D3.
      * apply list_lookup_singleton_Some in Hl as [_ Hl]. by simplify_eq.
  - (* the goroutine runs and returns *)
    assert (Hfresh : cid ∉ publishedCids evs).
    { intros Hin. destruct (D2 cid Hin) as (j & st & Hl & Hst). by simplify_eq. }
    assert (Hlt : (cid < length (calls s))%nat) by (by eapply lookup_lt_Some).
    split_and!.
    + apply NoDup_app. split_and!; [done| |apply NoDup_singleton].
      intros x Hx Hx'. apply list_elem_of_singleton in Hx'. by subst.
    + intros _ cid0 Hin. destruct (decide (cid0 = cid)) as [->|Hne].
      * eexists _, _. by rewrite list_lookup_insert_eq.
      * rewrite list_lookup_insert_ne by done. apply D2.
        apply elem_of_app in Hin as [?|Hin]; [done|].
        by apply list_elem_of_singleton in Hin.
    + intros cid0 j st Hl Hst. apply elem_of_app.
      destruct (decide (cid0 = cid)) as [->|Hne].
      * right. by apply list_elem_of_singleton.
      * left. rewrite list_lookup_insert_ne in Hl by done. by eapply D3.
  - (* the goroutine panics *)
    assert (Hfresh : cid ∉ publishedCids evs).
    { intros Hin. destruct (D2 cid Hin) as (j & st & Hl & Hst). by simplify_eq. }
    split_and!; [|done|].
    + apply NoDup_app. split_and!; [done| |apply NoDup_singleton].
      intros x Hx Hx'. apply list_elem_of_singleton in Hx'. by subst.
    + intros cid0 j st Hl Hst. apply elem_of_app. left. by eapply D3.
  - (* the goroutine exits the process *)
    assert (Hfresh : cid ∉ publishedCids evs).
    { intros Hin. destruct (D2 cid Hin) as (j & st & Hl & Hst). by simplify_eq. }
    split_and!; [|done|].
    + apply NoDup_app. split_and!; [done| |apply NoDup_singleton].
      intros x Hx Hx'. apply list_elem_of_singleton in Hx'. by subst.
    + intros cid0 j st Hl Hst. apply elem_of_app. left. by eapply D3.
  - (* the goroutine never returns *)
    assert (Hfresh : cid ∉ publishedCids evs).
    { intros Hin. destruct (D2 cid Hin) as (j & st & Hl & Hst). by simplify_eq. }
    assert (Hlt : (cid < length (calls s))%nat) by (by eapply lookup_lt_Some).
    split_and!.
    + apply NoDup_app. split_and!; [done| |apply NoDup_singleton].
      intros x Hx Hx'. apply list_elem_of_singleton in Hx'. by subst.
    + intros _ cid0 Hin. destruct (decide (cid0 = cid)) as [->|Hne].
      * eexists _, _. by rewrite list_lookup_insert_eq.
      * rewrite list_lookup_insert_ne by done. apply D2.
        apply elem_of_app in Hin as [?|Hin]; [done|].
        by apply list_elem_of_singleton in Hin.
    + intros cid0 j st Hl Hst. apply elem_of_app.
      destruct (decide (cid0 = cid)) as [->|Hne].
      * right. by apply list_elem_of_singleton.
      * left. rewrite list_lookup_insert_ne in Hl by done. by eapply D3.
Qed.

Lemma run_callsRunOnce acts stopCh evs s :
  run acts (init stopCh) = Some (evs, s) → callsRunOnce evs s.
Proof.
  intros Hrun.
  apply (run_preserves callsRunOnce callsRunOnce_step acts [] (init stopCh) evs s);
    [|done].
  unfold callsRunOnce. simpl. split_and!.
  - apply NoDup_nil_2.
  - intros _ cid Hin. by apply elem_of_nil in Hin.
  - intros cid j st Hl. by rewrite lookup_nil in Hl.
Qed.

(** A worker leaves the wait of a job at most once. *)
Lemma run_leftJobs_NoDup acts stopCh evs s :
  run acts (init stopCh) = Some (evs, s) → NoDup (map snd (leftJobs evs)).
Proof.
  intros Hrun. destruct (run_flow _ _ _ _ Hrun) as (_ & _ & _ & _ & _ & F6 & F7).
  assert (Hnd : NoDup (map snd (takenJobs evs))) by (rewrite F6; apply NoDup_seq).
  assert (Hp : map snd (takenJobs evs)
               ≡ₚ map snd (leftJobs evs) ++ map snd (inhand (workers s))).
  { rewrite <- map_app. by apply Permutation_map. }
  rewrite Hp in Hnd. by apply NoDup_app in Hnd as (? & _ & _).
Qed.

(** ** The timeout of a delivery *)

(** A publisher whose [SendMsg] never returns. *)
Definition hangingPublisher : LogPublisher :=
  {| SendMsg := λ d, {| pr_record := d; pr_end := Hangs |} |}.

(** C2. A worker is in the [select] of [processJob]; the timer, started
    [sendTimeout] (100ms) before, has fired and [doneCh] is not closed.
    Then the worker cannot leave through [doneCh]; it leaves through the
    timer, printing one line that names the publisher's id and the
    record's message, and stands at the job channel again, where it takes
    the next job if there is one.  The step changes nothing else: the
    publish goroutine is as it was, and if it had not yet run [SendMsg] it
    still can.  In every run a worker leaves the wait of a job at most
    once, so the line is printed at most once per job; before the deadline
    the timer case is not enabled; the deadline is set [sendTimeout] after
    the moment the job is taken. *)
Theorem C2_timeout_abandons_only_the_wait
    (s : State) (w : nat) (j : sendJob) (cid : nat) (deadline : Z) (d : LogData) :
  halted s = None →
  workers s !! w = Some (WSelect j cid deadline) →
  (∀ c, calls s !! cid = Some c → cstate c ≠ CDone) →
  deadline <= now s →
  heap s !! logData j = Some d →
  exec (AWorkerDone w) s = None ∧
  sendTimeout = 100 * time.Millisecond ∧
  (∃ s',
     exec (AWorkerTimeout w) s
       = Some ([EvPrint (DiagSendTimeout (loggerID j) sendTimeout (Msg d));
                EvJobTimedOut w j cid], s') ∧
     workers s' = <[w := WRange]> (workers s) ∧
     workers s' !! w = Some WRange ∧
     calls s' = calls s ∧ heap s' = heap s ∧ svc s' = svc s ∧ halted s' = None ∧
     (∀ j' rest, buf (jobCh (svc s')) = j' :: rest →
        ∃ s'', exec (AWorkerRecv w) s' = Some ([EvJobTaken w j' (length (calls s'))], s'')) ∧
     (∀ lg, calls s !! cid = Some (mkCall j CSpawned) → logger j = Some lg →
        ∃ evs s'',
          exec (APublish cid) s'
            = Some (EvPublish cid (loggerID j) (logData j) d (pr_end (SendMsg lg d)) :: evs,
                    s''))) ∧
  (∀ stopCh acts evs s0,
     run acts (init stopCh) = Some (evs, s0) → NoDup (map snd (leftJobs evs))) ∧
  (∀ s0 w0 j0 c0 dl0,
     workers s0 !! w0 = Some (WSelect j0 c0 dl0) → now s0 < dl0 →
     exec (AWorkerTimeout w0) s0 = None) ∧
  (∀ s0 w0 j0 rest evs s1,
     buf (jobCh (svc s0)) = j0 :: rest →
     exec (AWorkerRecv w0) s0 = Some (evs, s1) →
     workers s1 !! w0 = Some (WSelect j0 (length (calls s0)) (now s0 + sendTimeout))).
Proof.
  intros Hh Hw Hnd Hdl Hd.
  assert (Hlt : (w < length (workers s))%nat) by (by eapply lookup_lt_Some).
  split_and!.
  - unfold exec, processJob_done. rewrite Hh, Hw.
    destruct (calls s !! cid) as [[j' st]|] eqn:Hc; [|done].
    destruct st; try done. by destruct (Hnd _ eq_refl).
  - reflexivity.
  - eexists. split_and!.
    + unfold exec, processJob_timeout. rewrite Hh, Hw.
      rewrite decide_True by done. rewrite Hd. reflexivity.
    + done.
    + simpl. by apply list_lookup_insert_eq.
    + done.
    + done.
    + done.
    + done.
    + intros j' rest Hb. simpl in Hb. eexists.
      unfold exec, runWorker_recv, recv. simpl. rewrite Hh.
      rewrite list_lookup_insert_eq by done. rewrite Hb. reflexivity.
    + intros lg Hc Hl. unfold exec, publish. simpl. rewrite Hh, Hc, Hl, Hd.
      destruct (pr_end (SendMsg lg d)); by eexists _, _.
  - intros stopCh acts evs s0. apply run_leftJobs_NoDup.
  - intros s0 w0 j0 c0 dl0 Hw0 Hnow. unfold exec, processJob_timeout.
    destruct (halted s0); [done|]. rewrite Hw0.
    rewrite decide_False by lia. done.
  - intros s0 w0 j0 rest evs s1 Hb He.
    exec_inv He. simpl. apply list_lookup_insert_eq. by eapply lookup_lt_Some.
Qed.

(** A worker waiting on a publisher that hangs, the timer having fired. *)
Definition timedOutState : State :=
  (default ([], init (make 0))
     (run [ AAddLogger "slow" (Some hangingPublisher); AStart;
            ASubmit (Some (Info None "lost" [])); ASendData 0;
            AMainRecv; AMainLocked ["slow"]; AMainSend; AMainSend;
            AWorkerRecv 0; ATick sendTimeout ]
          (init (make 0)))).2.

Definition timedOutJob : sendJob :=
  {| loggerID := "slow"; logger := Some hangingPublisher; logData := 0%nat |}.

Lemma C2_timeout_abandons_only_the_wait_witness :
  exec (AWorkerDone 0) timedOutState = None ∧
  ∃ s', exec (AWorkerTimeout 0) timedOutState
          = Some ([EvPrint (DiagSendTimeout "slow" sendTimeout "lost");
                   EvJobTimedOut 0 timedOutJob 0], s') ∧
        calls s' = calls timedOutState.
Proof.
  destruct (C2_timeout_abandons_only_the_wait timedOutState 0%nat timedOutJob 0%nat
              sendTimeout (Info None "lost" []))
    as (Hdone & _ & (s' & Hto & _ & _ & Hcalls & _) & _).
  - reflexivity.
  - vm_compute. reflexivity.
  - vm_compute. intros c Hc. injection Hc as <-. discriminate.
  - vm_compute. discriminate.
  - vm_compute. reflexivity.
  - split; [exact Hdone|]. exists s'. split; [exact Hto|exact Hcalls].
Defined.

(** ** A publisher that fails *)

(** The claim of C4 as a statement about runs: after a publish call has
    panicked the process is still running. *)
Definition publishFailuresAreContained : Prop :=
  ∀ stopCh acts evs s cid id p d msg,
    run acts (init stopCh) = Some (evs, s) →
    EvPublish cid id p d (Panic msg) ∈ evs →
    halted s = None.

(** A publisher whose [SendMsg] panics. *)
Definition panickingPublisher : LogPublisher :=
  {| SendMsg := λ d, {| pr_record := d; pr_end := Panic "publisher failed" |} |}.

(** Two records for a publisher that panics on the first. *)
Definition panicActs : list Action :=
  [ AAddLogger "bad" (Some panickingPublisher); AStart;
    ASubmit (Some (Info None "first" [])); ASubmit (Some (Info None "second" []));
    ASendData 0; ASendData 0;
    AMainRecv; AMainLocked ["bad"]; AMainSend; AMainSend;
    AMainRecv; AMainLocked ["bad"]; AMainSend; AMainSend;
    AWorkerRecv 0; APublish 0 ].

Definition panicEnd : list Event * State :=
  default ([], init (make 0)) (run panicActs (init (make 0))).

Lemma C4_counterexample : ¬ publishFailuresAreContained.
Proof.
  intros Hclaim.
  assert (Hrun : run panicActs (init (make 0)) = Some (panicEnd.1, panicEnd.2))
    by (vm_compute; reflexivity).
  assert (Hh : halted panicEnd.2 = None).
  { apply (Hclaim (make 0) panicActs panicEnd.1 panicEnd.2 0%nat "bad" 0%nat
             (Info None "first" []) "publisher failed" Hrun).
    apply list_elem_of_In. vm_compute. auto 20. }
  vm_compute in Hh. discriminate Hh.
Qed.

(** C4, amended. [SendMsg] is called at most once for a job, by the
    job's own goroutine, and its failure is never reported to a producer:
    the run of a publish goroutine leaves the intake channel and the
    waiting sends as they are.  A call that returns, or that never
    returns, leaves the process running and every worker where it stands.
    Nothing recovers a panic of [SendMsg]: it ends the process, after
    which no goroutine moves. *)
Theorem C4_publish_runs_once_and_a_panic_ends_the_process :
  (∀ stopCh acts evs s,
     run acts (init stopCh) = Some (evs, s) → NoDup (publishedCids evs)) ∧
  (∀ cid s evs s',
     exec (APublish cid) s = Some (evs, s') →
     inputCh (svc s') = inputCh (svc s) ∧ senders s' = senders s ∧
     workers s' = workers s ∧ jobCh (svc s') = jobCh (svc s)) ∧
  (∀ cid s evs s' id p d e,
     exec (APublish cid) s = Some (evs, s') → EvPublish cid id p d e ∈ evs →
     match e with
     | Return | Hangs => halted s' = None
     | Panic msg => halted s' = Some (Crashed msg) ∧ ∀ a, exec a s' = None
     | Exits code => halted s' = Some (Exited code) ∧ ∀ a, exec a s' = None
     end).
Proof.
  split_and!.
  - intros stopCh acts evs s Hrun. by destruct (run_callsRunOnce _ _ _ _ Hrun).
  - intros cid s evs s' He. exec_inv He; done.
  - intros cid s evs s' id p d e He Hin.
    exec_inv He; simpl in *;
      repeat match goal with
      | H : _ ∈ [] |- _ => by apply elem_of_nil in H
      | H : _ ∈ _ :: _ |- _ => apply elem_of_cons in H as [H|H]; simplify_eq
      end;
      repeat match goal with H : pr_end _ = _ |- _ => rewrite H end;
      try done;
      (split; [done|]); intros a; unfold exec; done.
Qed.

(** ** One publisher, three records *)

(** The value a call returned, [dflt] if it did not return. *)
Definition returned {A} (dflt : A) (o : outcome A) : A :=
  match o with Returns a => a | _ => dflt end.

(** The records of [Info(ctx, "m1")], [Warning(ctx, "m2")] and
    [Error(ctx, err)] for an error whose message is "m3". *)
Definition record1 : LogData := Info None "m1" [].
Definition record2 : LogData := Warning None "m2" [].
Definition record3 : LogData := returned record1 (Error None (Some "m3") [] []).

Definition scenarioRecords : list LogData := [record1; record2; record3].

Definition expectedPairs : list (LogLevel * string) :=
  [(InfoLevel, "m1"); (WarnLevel, "m2"); (ErrorLevel, "m3")].

(** Publisher [P] is registered, the service is started, and the three
    records are enqueued in order. *)
Definition scenarioSetup (P : LogPublisher) : list Action :=
  [ AAddLogger "P" (Some P); AStart;
    ASubmit (Some record1); ASendData 0;
    ASubmit (Some record2); ASendData 0;
    ASubmit (Some record3); ASendData 0 ].

(** What follows the setup changes neither the registry nor the set of
    records. *)
Definition keepsScenario (a : Action) : bool :=
  match a with
  | AAddLogger _ _ | ARemoveLogger _ | ASubmit _ => false
  | _ => true
  end.

(** The level and message of the records publisher [id] was called with,
    in the order of the calls. *)
Definition publishedTo (id : string) (evs : list Event) : list (LogLevel * string) :=
  omap (λ e, match e with
             | EvPublish _ id' _ d _ =>
                 if decide (id' = id) then Some (Level d, Msg d) else None
             | _ => None
             end) evs.

(** The claim of C6 as a statement about runs: at every moment the calls
    [P] has received are the first of the three, in enqueue order. *)
Definition deliveredInEnqueueOrder : Prop :=
  ∀ rest evs s,
    forallb keepsScenario rest = true →
    run (scenarioSetup mockPublisher ++ rest) (init (make 0)) = Some (evs, s) →
    publishedTo "P" evs `prefix_of` expectedPairs.

(** Two workers take the first two jobs; the goroutine of the second
    runs first. *)
Definition overtakingActs : list Action :=
  [ AMainRecv; AMainLocked ["P"]; AMainSend; AMainSend;
    AMainRecv; AMainLocked ["P"]; AMainSend; AMainSend;
    AMainRecv; AMainLocked ["P"]; AMainSend; AMainSend;
    AWorkerRecv 0; AWorkerRecv 1; APublish 1; APublish 0;
    AWorkerDone 0; AWorkerDone 1; AWorkerRecv 0; APublish 2; AWorkerDone 0 ].

Definition overtakingEnd : list Event * State :=
  default ([], init (make 0))
    (run (scenarioSetup mockPublisher ++ overtakingActs) (init (make 0))).

Lemma C6_counterexample : ¬ deliveredInEnqueueOrder.
Proof.
  intros Hclaim.
  assert (Hrun : run (scenarioSetup mockPublisher ++ overtakingActs) (init (make 0))
                 = Some (overtakingEnd.1, overtakingEnd.2))
    by (vm_compute; reflexivity).
  specialize (Hclaim overtakingActs _ _ eq_refl Hrun).
  assert (Hpub : publishedTo "P" overtakingEnd.1
                 = [(WarnLevel, "m2"); (InfoLevel, "m1"); (ErrorLevel, "m3")])
    by (vm_compute; reflexivity).
  rewrite Hpub in Hclaim. destruct Hclaim as [k Hk]. discriminate Hk.
Qed.

(** The job [processLogData] builds for publisher [P] and the record at
    [p]. *)
Definition jobP (P : LogPublisher) (p : ptr) : sendJob :=
  {| loggerID := "P"; logger := Some P; logData := p |}.

Definition jobsOf (P : LogPublisher) (x : option ptr) : list sendJob :=
  match x with Some p => [jobP P p] | None => [] end.

(** What holds along the scenario: the registry holds [P] alone, the
    heap holds the three records unchanged, no send is waiting, and every
    call of [SendMsg] so far was made for [P] on the record whose address
    is the number of the goroutine. *)
Definition scenario (P : LogPublisher) (evs : list Event) (s : State) : Prop :=
  loggers (svc s) = {["P" := Some P]} ∧
  heap s = scenarioRecords ∧
  senders s = [] ∧
  enqueued evs = [Some 0%nat; Some 1%nat; Some 2%nat] ∧
  Forall (λ xj, xj.2 = jobsOf P xj.1) (fanned evs) ∧
  Forall (λ e, match e with
               | EvPublish cid id p d _ =>
                   id = "P" ∧ p = cid ∧ scenarioRecords !! cid = Some d
               | _ => True
               end) evs.

Lemma singleton_order (l : list string) (a : string) :
  NoDup l → (∀ id, id ∈ l ↔ id = a) → l = [a].
Proof.
  intros Hnd Hiff. apply Permutation_singleton_r.
  apply NoDup_Permutation; [done|apply NoDup_singleton|].
  intros id. rewrite Hiff. by rewrite list_elem_of_singleton.
Qed.

Lemma processLogData_singleton ls P order x :
  loggers ls = {["P" := Some P]} →
  is_range_order (loggers ls) order = true →
  processLogData ls order x = ([], jobsOf P x).
Proof.
  intros Hl Hro. apply is_range_order_spec in Hro as [Hnd Hiff].
  assert (order = ["P"]) as ->.
  { apply singleton_order; [done|]. intros id. rewrite Hiff, Hl.
    rewrite lookup_singleton_is_Some. done. }
  unfold processLogData. destruct x as [p|]; [|done].
  rewrite Hl. rewrite map_size_singleton. simpl.
  by rewrite lookup_singleton_eq.
Qed.

Lemma fanned_jobs P (fs : list (option ptr * list sendJob)) :
  Forall (λ xj, xj.2 = jobsOf P xj.1) fs →
  concat (map snd fs) = concat (map (jobsOf P) (map fst fs)).
Proof.
  induction 1 as [|[x js] fs Hx _ IH]; [done|]. simpl in *. by rewrite Hx, IH.
Qed.

Lemma scenario_calls P evs s :
  flow evs s → scenario P evs s →
  queuedJobs evs `prefix_of` [jobP P 0; jobP P 1; jobP P 2]%nat ∧
  map cjob (calls s) `prefix_of` [jobP P 0; jobP P 1; jobP P 2]%nat.
Proof.
  intros (F1 & F2 & F3 & F4 & F5 & F6 & F7) (_ & _ & _ & Henq & Hfan & _).
  assert (Hq : queuedJobs evs `prefix_of` [jobP P 0; jobP P 1; jobP P 2]%nat).
  { rewrite Henq, F2, <- app_assoc in F1.
    exists (pendingJobs (mainW s) ++
            concat (map (jobsOf P) (currentRec (mainW s) ++ buf (inputCh (svc s))))).
    rewrite app_assoc, <- F3, (fanned_jobs P _ Hfan), <- concat_app, <- map_app, <- F1.
    reflexivity. }
  split; [done|]. etrans; [|exact Hq]. rewrite F4, F5. by eexists.
Qed.

Lemma scenario_call P evs s (cid : nat) j st :
  flow evs s → scenario P evs s →
  calls s !! cid = Some (mkCall j st) →
  j = jobP P cid ∧ (cid < 3)%nat.
Proof.
  intros Hf Hs Hc. destruct (scenario_calls P evs s Hf Hs) as [_ Hp].
  assert (Hl : map cjob (calls s) !! cid = Some j).
  { by rewrite list_lookup_fmap, Hc. }
  eapply prefix_lookup_Some in Hl; [|done].
  destruct cid as [|[|[|cid]]]; simpl in Hl; simplify_eq; split; (done || lia).
Qed.

Lemma scenario_step P evs s a evs' s' :
  (∀ d, pr_record (SendMsg P d) = d) →
  flow evs s → scenario P evs s → keepsScenario a = true →
  exec a s = Some (evs', s') → scenario P (evs ++ evs') s'.
Proof.
  intros HP Hf Hs Hk He.
  pose proof (λ cid j st, scenario_call P evs s cid j st Hf Hs) as Hcall.
  revert Hs Hcall. unfold scenario.
  destruct a; try discriminate Hk; clear Hk;
    exec_inv He; intros (C1 & C2 & C3 & C4 & C5 & C6) Hcall;
    rewrite ?enqueued_app, ?fanned_app, ?enqueued_prints, ?fanned_prints;
    simpl; rewrite ?app_nil_r;
    try (split_and!; assumption);
    try (split_and!; try assumption; apply Forall_app; (split; [assumption|]);
         by repeat constructor).
  - (* no send is waiting *)
    match goal with H : senders s !! _ = Some _ |- _ =>
      rewrite C3 in H; by rewrite lookup_nil in H end.
  - (* the locked part of processLogData *)
    match goal with
    | Hr : is_range_order _ _ = true, Hp : processLogData _ _ _ = _ |- _ =>
        rewrite (processLogData_singleton _ P _ _ C1 Hr) in Hp; simplify_eq
    end.
    split_and!; try assumption.
    + apply Forall_app. split; [assumption|]. by repeat constructor.
    + apply Forall_app. split; [assumption|]. by repeat constructor.
  - destruct (Hcall _ _ _ ltac:(eassumption)) as [-> Hlt]. simpl in *. simplify_eq.
    rewrite HP. rewrite list_insert_id by done.
    split_and!; try assumption. apply Forall_app. split; [assumption|].
    repeat constructor; try done. by rewrite <- C2.
  - destruct (Hcall _ _ _ ltac:(eassumption)) as [-> Hlt]. simpl in *. simplify_eq.
    rewrite HP. rewrite list_insert_id by done.
    split_and!; try assumption. apply Forall_app. split; [assumption|].
    repeat constructor; try done. by rewrite <- C2.
  - destruct (Hcall _ _ _ ltac:(eassumption)) as [-> Hlt]. simpl in *. simplify_eq.
    rewrite HP. rewrite list_insert_id by done.
    split_and!; try assumption. apply Forall_app. split; [assumption|].
    repeat constructor; try done. by rewrite <- C2.
  - destruct (Hcall _ _ _ ltac:(eassumption)) as [-> Hlt]. simpl in *. simplify_eq.
    rewrite HP. rewrite list_insert_id by done.
    split_and!; try assumption. apply Forall_app. split; [assumption|].
    repeat constructor; try done. by rewrite <- C2.
Qed.


Lemma run_preserves_on (Q : Action → bool) (P : list Event → State → Prop) :
  (∀ evs s a evs' s',
     Q a = true → P evs s → exec a s = Some (evs', s') → P (evs ++ evs') s') →
  ∀ acts evs0 s0 evs s,
    forallb Q acts = true →
    P evs0 s0 → run acts s0 = Some (evs, s) → P (evs0 ++ evs) s.
Proof.
  intros Hstep acts. induction acts as [|a acts IH]; intros evs0 s0 evs s HQ HP Hrun.
  - simpl in Hrun. simplify_eq. by rewrite app_nil_r.
  - simpl in Hrun, HQ. apply andb_true_iff in HQ as [Ha HQ].
    destruct (exec a s0) as [[e s']|] eqn:He; [|done].
    destruct (run acts s') as [[e' s'']|] eqn:Hr; [|done]. simplify_eq.
    rewrite app_assoc. eapply IH; [done| |done]. by eapply Hstep.
Qed.

Definition doneCids (evs : list Event) : list nat :=
  omap (λ e, match e with EvJobDone _ _ cid => Some cid | _ => None end) evs.

Definition timedOutCids (evs : list Event) : list nat :=
  omap (λ e, match e with EvJobTimedOut _ _ cid => Some cid | _ => None end) evs.

Lemma doneCids_app e1 e2 : doneCids (e1 ++ e2) = doneCids e1 ++ doneCids e2.
Proof. apply omap_app. Qed.

Lemma doneCids_prints ds : doneCids (map EvPrint ds) = [].
Proof. by apply omap_prints. Qed.

(** A worker leaves through [doneCh] only after the goroutine has run
    [SendMsg]. *)
Definition doneAfterPublish (evs : list Event) (s : State) : Prop :=
  callsRunOnce evs s ∧ ∀ cid, cid ∈ doneCids evs → cid ∈ publishedCids evs.

Lemma doneAfterPublish_step evs s a evs' s' :
  doneAfterPublish evs s → exec a s = Some (evs', s') →
  doneAfterPublish (evs ++ evs') s'.
Proof.
  intros [Hc Hd] He. split; [by eapply callsRunOnce_step|].
  destruct Hc as (D1 & D2 & D3).
  intros cid. rewrite doneCids_app, publishedCids_app, !elem_of_app.
  intros [Hin|Hin]; [left; by apply Hd|].
  exec_inv He; rewrite ?doneCids_app, ?doneCids_prints in Hin; simpl in Hin;
    try (by apply elem_of_nil in Hin).
  apply list_elem_of_singleton in Hin as ->. left. by eapply D3.
Qed.

Lemma leftJobs_no_timeout evs :
  timedOutCids evs = [] → map snd (leftJobs evs) = doneCids evs.
Proof.
  induction evs as [|e evs IH]; [done|].
  destruct e; simpl; intros Hto; try done; try (by apply IH).
  by rewrite IH.
Qed.

Definition scenarioEnqueued : list Event :=
  [EvEnqueued (Some 0%nat); EvEnqueued (Some 1%nat); EvEnqueued (Some 2%nat)].

Lemma scenario_setup P stopCh :
  ∃ s1, run (scenarioSetup P) (init stopCh) = Some (scenarioEnqueued, s1) ∧
        scenario P scenarioEnqueued s1 ∧
        mainW s1 = MLoop InSelect ∧ stopper s1 = SNotCalled.
Proof.
  eexists. split; [vm_compute; reflexivity|].
  unfold scenario. split_and!; try reflexivity.
  - by repeat constructor.
  - by repeat constructor.
Qed.

(** What holds when [Stop] has returned on a started service. *)
Lemma drained_when_stopped stopCh acts evs s :
  run acts (init stopCh) = Some (evs, s) → joined s → stopper s = SReturned →
  map fst (fanned evs) = enqueued evs ∧
  queuedJobs evs = concat (map snd (fanned evs)) ∧
  map cjob (calls s) = queuedJobs evs ∧
  map snd (leftJobs evs) ≡ₚ seq 0 (length (calls s)).
Proof.
  intros Hrun (J1 & J2 & J3) Hret.
  pose proof (run_flow _ _ _ _ Hrun) as (F1 & F2 & F3 & F4 & F5 & F6 & F7).
  pose proof (run_lifecycle _ _ _ _ (lifecycle_init stopCh) Hrun)
    as (L1 & L2 & L3 & L4 & L5 & L6 & L7 & L8).
  specialize (J2 (or_intror Hret)). specialize (J3 Hret).
  assert (Hmain : mainW s = MExited).
  { rewrite J2 in L1. destruct (mainW s); simpl in L1; done. }
  assert (Hws : Forall (λ w, w = WExited) (workers s)).
  { apply activeWorkers_zero. congruence. }
  specialize (L7 J1). destruct (L4 Hmain) as [Hic Hib].
  assert (Hjb : buf (jobCh (svc s)) = []).
  { destruct (workers s) as [|w ws]; [done|].
    apply Forall_cons in Hws as [-> _]. by apply (L5 0%nat). }
  rewrite Hib, app_nil_r in F1. rewrite Hmain in F2, F3. simpl in F2, F3.
  rewrite app_nil_r in F2, F3. rewrite Hjb, app_nil_r in F4.
  rewrite (inhand_exited _ Hws), app_nil_r in F7.
  split_and!; try congruence.
  rewrite <- F6. by apply Permutation_map.
Qed.

(** The level and message of the record at an address of the scenario. *)
Definition pairAt (cid : nat) : LogLevel * string :=
  match scenarioRecords !! cid with
  | Some d => (Level d, Msg d)
  | None => (0, "")
  end.

Lemma publishedTo_cids evs :
  Forall (λ e, match e with
               | EvPublish cid id p d _ =>
                   id = "P" ∧ p = cid ∧ scenarioRecords !! cid = Some d
               | _ => True
               end) evs →
  publishedTo "P" evs = map pairAt (publishedCids evs) ∧
  ∀ cid, cid ∈ publishedCids evs → cid ∈ [0; 1; 2]%nat.
Proof.
  induction 1 as [|e evs He _ [IH1 IH2]].
  - split; [done|]. intros cid Hin. by apply elem_of_nil in Hin.
  - destruct e; simpl; try done.
    destruct He as (-> & -> & Hd). rewrite decide_True by done.
    unfold pairAt at 1. rewrite Hd, IH1. split; [done|].
    intros c Hin. apply elem_of_cons in Hin as [->|Hin]; [|by apply IH2].
    apply lookup_lt_Some in Hd. simpl in Hd.
    destruct cid as [|[|[|cid]]]; [apply list_elem_of_In; simpl; auto..|lia].
Qed.

(** C6, amended. One publisher [P] that leaves records as they are is
    registered and three records with levels Info, Warn, Error and
    messages "m1", "m2", "m3" are enqueued in this order.  Then the jobs
    enter the job channel in enqueue order, and [P] is called at most once
    for each record, with the record's level and message; when [Stop] has
    returned and no wait has timed out, [P] has received exactly the three
    calls.  The order of the calls is that of the publish goroutines of
    the workers, which need not be the enqueue order. *)
Theorem C6_three_calls_in_some_order
    (P : LogPublisher) (stopCh : chan unit) (rest : list Action)
    (evs : list Event) (s : State) :
  (∀ d, pr_record (SendMsg P d) = d) →
  forallb keepsScenario rest = true →
  run (scenarioSetup P ++ rest) (init stopCh) = Some (evs, s) →
  queuedJobs evs `prefix_of` [jobP P 0; jobP P 1; jobP P 2]%nat ∧
  publishedTo "P" evs ⊆+ expectedPairs ∧
  (stopper s = SReturned → timedOutCids evs = [] →
   publishedTo "P" evs ≡ₚ expectedPairs).
Proof.
  intros HP Hrest Hrun.
  destruct (scenario_setup P stopCh) as (s1 & Hsetup & Hsc1 & Hm1 & Hst1).
  pose proof Hrun as Hrun'. rewrite run_app, Hsetup in Hrun'.
  destruct (run rest s1) as [[e2 s2]|] eqn:Hrest_run; [|done]. simplify_eq.
  pose proof (run_flow _ _ _ _ Hrun) as Hflow.
  pose proof (run_callsRunOnce _ _ _ _ Hrun) as Honce.
  (* the scenario holds along the rest of the run *)
  assert (Hsc : flow (scenarioEnqueued ++ e2) s ∧ scenario P (scenarioEnqueued ++ e2) s).
  { apply (run_preserves_on keepsScenario (λ evs s, flow evs s ∧ scenario P evs s))
      with (acts := rest) (s0 := s1); [|done| |done].
    - intros evs0 s0 a evs' s' Ha [Hf0 Hs0] He. split; [by eapply flow_step|].
      by eapply scenario_step.
    - split; [|done]. by eapply run_flow. }
  destruct Hsc as [_ Hsc].
  destruct (scenario_calls P _ _ Hflow Hsc) as [Hq Hcalls].
  pose proof Hsc as (_ & _ & _ & Henq & Hfan & Hpub).
  destruct (publishedTo_cids _ Hpub) as [Hto Hcids].
  destruct Honce as (Hnd & _ & _).
  split; [done|]. split.
  - rewrite Hto. change (map pairAt (publishedCids (scenarioEnqueued ++ e2)))
      with (pairAt <$> publishedCids (scenarioEnqueued ++ e2)).
    change expectedPairs with (pairAt <$> [0; 1; 2]%nat).
    apply fmap_submseteq. by apply NoDup_submseteq.
  - intros Hret Hnto.
    assert (Hj : joined s).
    { eapply run_joined; [|exact Hrest_run]. unfold joined. rewrite Hm1, Hst1.
      split_and!; [done|intros [?|?]; done|done]. }
    destruct (drained_when_stopped _ _ _ _ Hrun Hj Hret) as (Hf & Hqc & Hc & Hleft).
    rewrite Henq in Hf. rewrite (fanned_jobs P _ Hfan), Hf in Hqc.
    rewrite Hqc in Hc.
    assert (Hlen : length (calls s) = 3%nat).
    { apply (f_equal length) in Hc. by rewrite length_map in Hc. }
    rewrite Hlen, (leftJobs_no_timeout _ Hnto) in Hleft. simpl in Hleft.
    assert (Hdone : doneAfterPublish (scenarioEnqueued ++ e2) s).
    { apply (run_preserves doneAfterPublish doneAfterPublish_step
               (scenarioSetup P ++ rest) [] (init stopCh)); [|done].
      split; [|intros cid Hin; by apply elem_of_nil in Hin].
      unfold callsRunOnce. simpl. split_and!.
      + apply NoDup_nil_2.
      + intros _ cid Hin. by apply elem_of_nil in Hin.
      + intros cid j st Hl. by rewrite lookup_nil in Hl. }
    destruct Hdone as [_ Hdone].
    assert (Hperm : publishedCids (scenarioEnqueued ++ e2) ≡ₚ [0; 1; 2]%nat).
    { apply NoDup_Permutation; [done|apply (NoDup_seq 0 3)|].
      intros cid. split; [apply Hcids|]. intros Hin. apply Hdone.
      by rewrite Hleft. }
    rewrite Hto.
    change expectedPairs with (map pairAt [0; 1; 2]%nat).
    by apply Permutation_map.
Qed.

(** The scenario run in enqueue order by one worker, then shut down. *)
Definition orderlyActs : list Action :=
  [ AMainRecv; AMainLocked ["P"]; AMainSend; AMainSend;
    AMainRecv; AMainLocked ["P"]; AMainSend; AMainSend;
    AMainRecv; AMainLocked ["P"]; AMainSend; AMainSend;
    AStop; AMainRecv;
    AWorkerRecv 0; APublish 0; AWorkerDone 0;
    AWorkerRecv 0; APublish 1; AWorkerDone 0;
    AWorkerRecv 0; APublish 2; AWorkerDone 0;
    AWorkerRecv 0; AWorkerRecv 1; AWorkerRecv 2; AWorkerRecv 3;
    AStop; AStop ].

Definition orderlyEnd : list Event * State :=
  default ([], init (make 0))
    (run (scenarioSetup mockPublisher ++ orderlyActs) (init (make 0))).

Lemma C6_three_calls_in_some_order_witness :
  queuedJobs orderlyEnd.1
    `prefix_of` [jobP mockPublisher 0; jobP mockPublisher 1; jobP mockPublisher 2]%nat ∧
  publishedTo "P" orderlyEnd.1 ⊆+ expectedPairs ∧
  stopper orderlyEnd.2 = SReturned ∧ timedOutCids orderlyEnd.1 = [] ∧
  publishedTo "P" orderlyEnd.1 ≡ₚ expectedPairs.
Proof.
  destruct (C6_three_calls_in_some_order mockPublisher (make 0) orderlyActs
              orderlyEnd.1 orderlyEnd.2) as (Hq & Hsub & Hall).
  - intros d. reflexivity.
  - reflexivity.
  - vm_compute. reflexivity.
  - assert (Hret : stopper orderlyEnd.2 = SReturned) by (vm_compute; reflexivity).
    assert (Hnto : timedOutCids orderlyEnd.1 = []) by (vm_compute; reflexivity).
    split_and!; [exact Hq|exact Hsub|exact Hret|exact Hnto|exact (Hall Hret Hnto)].
Defined.


(** * Further properties of the code *)

(** ** The registry *)

(** X1. [AddLogger] replaces the entry of an id (the last write wins) and
    [RemoveLogger] of an id that is not registered changes nothing;
    removing an id added to a registry that lacked it gives the registry
    back; both leave every other id, the channels and the counters as they
    are. *)
Theorem registry_add_replaces_and_remove_is_noop_when_absent :
  (∀ ls id p1 p2,
     loggers (AddLogger (AddLogger ls id p1) id p2) = loggers (AddLogger ls id p2)) ∧
  (∀ ls id, loggers ls !! id = None → RemoveLogger ls id = ls) ∧
  (∀ ls id p, loggers ls !! id = None → RemoveLogger (AddLogger ls id p) id = ls) ∧
  (∀ ls id p, loggers (RemoveLogger (AddLogger ls id p) id) !! id = None) ∧
  (∀ ls id id' p, id ≠ id' →
     loggers (AddLogger ls id p) !! id' = loggers ls !! id' ∧
     loggers (RemoveLogger ls id) !! id' = loggers ls !! id') ∧
  (∀ ls id p,
     inputCh (AddLogger ls id p) = inputCh ls ∧ jobCh (AddLogger ls id p) = jobCh ls ∧
     inputCh (RemoveLogger ls id) = inputCh ls ∧ jobCh (RemoveLogger ls id) = jobCh ls).
Proof.
  split_and!.
  - intros ls id p1 p2. simpl. apply insert_insert_eq.
  - intros [i j st n m w mw] id Hl. unfold RemoveLogger, set_loggers. simpl in *.
    f_equal. by apply delete_id.
  - intros [i j st n m w mw] id p Hl. unfold RemoveLogger, AddLogger, set_loggers.
    simpl in *. f_equal. rewrite delete_insert_eq. by apply delete_id.
  - intros ls id p. simpl. apply lookup_delete_eq.
  - intros ls id id' p Hne. simpl. split.
    + by apply lookup_insert_ne.
    + by apply lookup_delete_ne.
  - intros ls id p. done.
Qed.

(** ** Records that reach no publisher *)

Lemma omap_jobFor_all_nil m p (order : list string) :
  (∀ id lg, m !! id ≠ Some (Some lg)) → omap (jobFor m p) order = [].
Proof.
  intros Hnil. induction order as [|id order IH]; [done|].
  cbn [omap list_omap]. unfold jobFor at 1.
  destruct (m !! id) as [[lg|]|] eqn:Hm; try done. by destruct (Hnil id lg).
Qed.

Lemma omap_diagFor_all_nil m (order : list string) :
  (∀ id, id ∈ order → m !! id = Some None) →
  omap (diagFor m) order = map DiagNilLogger order.
Proof.
  induction order as [|id order IH]; intros Hnil; [done|].
  cbn [omap list_omap map]. unfold diagFor at 1.
  rewrite (Hnil id) by (apply elem_of_cons; auto).
  rewrite IH; [done|]. intros id' Hin. apply Hnil. apply elem_of_cons. auto.
Qed.

(** X2. [processLogData] builds no job in three cases.  For a nil record
    it prints nothing.  For an empty registry it prints the single line
    "No loggers configured".  For a registry that holds nil entries only
    it does not print that line: it prints the nil-logger line once for
    each entry, in the order of the iteration, and the record is dropped
    all the same. *)
Theorem record_dropped_on_nil_record_empty_or_all_nil_registry :
  (∀ ls order, processLogData ls order None = ([], [])) ∧
  (∀ ls order p, loggers ls = ∅ →
     processLogData ls order (Some p) = ([DiagNoLoggers], [])) ∧
  (∀ ls order p,
     loggers ls ≠ ∅ → range_order (loggers ls) order →
     (∀ id lg, loggers ls !! id ≠ Some (Some lg)) →
     processLogData ls order (Some p) = (map DiagNilLogger order, []) ∧
     (DiagNoLoggers ∉ map DiagNilLogger order) ∧
     length order = size (loggers ls)).
Proof.
  split_and!.
  - done.
  - intros ls order p He. unfold processLogData. rewrite He.
    by rewrite map_size_empty.
  - intros ls order p Hne Hro Hnil.
    assert (Hsz : size (loggers ls) ≠ 0%nat) by (by rewrite map_size_empty_iff).
    rewrite processLogData_nonempty by done.
    rewrite omap_jobFor_all_nil by done.
    rewrite omap_diagFor_all_nil.
    + split_and!; [done| |].
      * intros Hin. apply list_elem_of_In, in_map_iff in Hin as (id & Hid & _). done.
      * rewrite (range_order_perm _ _ Hro). rewrite <- size_dom. done.
    + intros id Hin. destruct Hro as [_ Hiff]. apply Hiff in Hin as [[lg|] Hl]; [|done].
      by destruct (Hnil id lg).
Qed.

(** A registry holding two nil entries. *)
Definition nilRegistry : LoggerService :=
  AddLogger (AddLogger (NewLoggerService (make 0)) "a" None) "b" None.

Lemma record_dropped_on_nil_record_empty_or_all_nil_registry_witness :
  processLogData nilRegistry ["b"; "a"] (Some 0%nat)
  = ([DiagNilLogger "b"; DiagNilLogger "a"], []).
Proof.
  destruct record_dropped_on_nil_record_empty_or_all_nil_registry as (_ & _ & H).
  destruct (H nilRegistry ["b"; "a"] 0%nat) as [Hp _].
  - vm_compute. discriminate.
  - apply is_range_order_spec. vm_compute. reflexivity.
  - intros id lg. unfold nilRegistry. simpl.
    rewrite !lookup_insert. repeat case_decide; simplify_eq; try done.
  - exact Hp.
Defined.


(** ** The queues *)

(** The channels keep the capacity [NewLoggerService] gave them and
    never hold more. *)
Definition bounded (s : State) : Prop :=
  cap (inputCh (svc s)) = defaultInputBufferSize ∧
  cap (jobCh (svc s)) = defaultJobBufferSize ∧
  (length (buf (inputCh (svc s))) ≤ defaultInputBufferSize)%nat ∧
  (length (buf (jobCh (svc s))) ≤ defaultJobBufferSize)%nat.

Lemma bounded_step s a evs' s' :
  bounded s → exec a s = Some (evs', s') → bounded s'.
Proof.
  intros Hb He. revert Hb. unfold bounded.
  exec_inv He; intros (B1 & B2 & B3 & B4); simpl in *; use_eqs; simpl;
    try (split_and!; assumption);
    rewrite ?length_app; simpl;
    repeat match goal with
    | H : (_ <? _)%nat = true |- _ => apply Nat.ltb_lt in H
    end;
    split_and!; try done; lia.
Qed.

(** A record leaves the intake channel only from the head, received by
    the main worker, and enters it only at the tail. *)
Lemma intake_moves a s evs' s' :
  exec a s = Some (evs', s') →
  buf (inputCh (svc s')) = buf (inputCh (svc s)) ∨
  (∃ x, buf (inputCh (svc s')) = buf (inputCh (svc s)) ++ [x] ∧ EvEnqueued x ∈ evs') ∨
  (∃ x, buf (inputCh (svc s)) = x :: buf (inputCh (svc s')) ∧ EvDequeued x ∈ evs').
Proof.
  intros He. exec_inv He; simpl; use_eqs; simpl; try (by left).
  - right. left. eexists. split; [done|]. by apply list_elem_of_singleton.
  - right. right. eexists. split; [done|]. by apply list_elem_of_singleton.
Qed.

(** The same for the jobs and the job channel. *)
Lemma jobs_move a s evs' s' :
  exec a s = Some (evs', s') →
  buf (jobCh (svc s')) = buf (jobCh (svc s)) ∨
  (∃ j, buf (jobCh (svc s')) = buf (jobCh (svc s)) ++ [j] ∧ EvJobQueued j ∈ evs') ∨
  (∃ j w cid, buf (jobCh (svc s)) = j :: buf (jobCh (svc s')) ∧ EvJobTaken w j cid ∈ evs').
Proof.
  intros He. exec_inv He; simpl; use_eqs; simpl; try (by left).
  - right. left. eexists. split; [done|]. by apply list_elem_of_singleton.
  - right. right. eexists _, _, _. split; [done|]. by apply list_elem_of_singleton.
Qed.

Lemma full_intake_blocks s i :
  closed (inputCh (svc s)) = false →
  (cap (inputCh (svc s)) ≤ length (buf (inputCh (svc s))))%nat →
  exec (ASendData i) s = None.
Proof.
  intros Hc Hfull. apply Nat.ltb_ge in Hfull.
  unfold exec, sendData_run, sendData, send. rewrite Hc, Hfull.
  by repeat case_match.
Qed.

Lemma full_jobCh_blocks s j js k :
  closed (jobCh (svc s)) = false →
  (cap (jobCh (svc s)) ≤ length (buf (jobCh (svc s))))%nat →
  mainW s = MSending (j :: js) k →
  exec AMainSend s = None.
Proof.
  intros Hc Hfull Hm. apply Nat.ltb_ge in Hfull.
  unfold exec, processLogData_send, send. rewrite Hm, Hc, Hfull.
  by repeat case_match.
Qed.

(** X3. In every run the intake channel holds at most 100 records and
    the job channel at most 1000 jobs.  A send on a full channel that is
    open is not performed: the [sendData] goroutine, and the main worker
    in the last loop of [processLogData], wait.  Nothing is dropped to
    make room: whatever move comes next, a channel keeps its content, or
    gets one element at its tail, sent, or loses its head, received by
    the main worker or by a worker. *)
Theorem queues_stay_within_their_capacity stopCh acts evs s :
  run acts (init stopCh) = Some (evs, s) →
  (length (buf (inputCh (svc s))) ≤ 100)%nat ∧
  (length (buf (jobCh (svc s))) ≤ 1000)%nat ∧
  cap (inputCh (svc s)) = 100%nat ∧ cap (jobCh (svc s)) = 1000%nat ∧
  (closed (inputCh (svc s)) = false → length (buf (inputCh (svc s))) = 100%nat →
     ∀ i, exec (ASendData i) s = None) ∧
  (closed (jobCh (svc s)) = false → length (buf (jobCh (svc s))) = 1000%nat →
     ∀ j js k, mainW s = MSending (j :: js) k → exec AMainSend s = None) ∧
  (∀ a evs' s', exec a s = Some (evs', s') →
     (buf (inputCh (svc s')) = buf (inputCh (svc s)) ∨
      (∃ x, buf (inputCh (svc s')) = buf (inputCh (svc s)) ++ [x] ∧ EvEnqueued x ∈ evs') ∨
      (∃ x, buf (inputCh (svc s)) = x :: buf (inputCh (svc s')) ∧ EvDequeued x ∈ evs')) ∧
     (buf (jobCh (svc s')) = buf (jobCh (svc s)) ∨
      (∃ j, buf (jobCh (svc s')) = buf (jobCh (svc s)) ++ [j] ∧ EvJobQueued j ∈ evs') ∨
      (∃ j w cid, buf (jobCh (svc s)) = j :: buf (jobCh (svc s')) ∧
                  EvJobTaken w j cid ∈ evs'))).
Proof.
  intros Hrun.
  assert (Hb : bounded s).
  { apply (run_preserves (λ _ s, bounded s)
             (λ _ s a evs' s' Hs He, bounded_step s a evs' s' Hs He)
             acts [] (init stopCh) evs s); [|done].
    unfold bounded. simpl. unfold defaultInputBufferSize, defaultJobBufferSize.
    split_and!; (done || lia). }
  destruct Hb as (B1 & B2 & B3 & B4).
  unfold defaultInputBufferSize, defaultJobBufferSize in *.
  split_and!; try done.
  - intros Hc Hfull i. apply full_intake_blocks; [done|lia].
  - intros Hc Hfull j js k Hm. eapply full_jobCh_blocks; [done|lia|done].
  - intros a evs' s' He. split; [by eapply intake_moves|by eapply jobs_move].
Qed.

(** A hundred records are logged to a service that is not started, and
    then one more. *)
Definition fullIntakeActs : list Action :=
  concat (replicate 100 [ASubmit (Some (Info None "queued" [])); ASendData 0])
  ++ [ASubmit (Some (Info None "waiting" []))].

Definition fullIntakeEnd : list Event * State :=
  default ([], init (make 0)) (run fullIntakeActs (init (make 0))).

Lemma queues_stay_within_their_capacity_witness :
  (length (buf (inputCh (svc fullIntakeEnd.2))) ≤ 100)%nat ∧
  length (senders fullIntakeEnd.2) = 1%nat ∧
  exec (ASendData 0) fullIntakeEnd.2 = None.
Proof.
  destruct (queues_stay_within_their_capacity (make 0) fullIntakeActs
              fullIntakeEnd.1 fullIntakeEnd.2)
    as (H1 & _ & _ & _ & H5 & _).
  - vm_compute. reflexivity.
  - split_and!; [exact H1|vm_compute; reflexivity|].
    apply H5; vm_compute; reflexivity.
Defined.

(** ** A service started once *)

(** How often [Start] is called in a run. *)
Fixpoint starts (acts : list Action) : nat :=
  match acts with
  | [] => 0
  | AStart :: rest => S (starts rest)
  | _ :: rest => starts rest
  end.

(** X4. On a service started at most once, each stage hands records
    and jobs on in the order it received them: in every run with at most
    one call of [Start] the records dequeued are the first of those
    accepted, the records fanned out the first of those dequeued, the jobs
    sent the first of those built, and the jobs taken the first of those
    sent.  (A second [Start] would add a second main worker, and two main
    workers fan out in no fixed order.) *)
Theorem stages_preserve_order stopCh acts evs s :
  run acts (init stopCh) = Some (evs, s) →
  (starts acts ≤ 1)%nat →
  dequeued evs `prefix_of` enqueued evs ∧
  map fst (fanned evs) `prefix_of` dequeued evs ∧
  queuedJobs evs `prefix_of` concat (map snd (fanned evs)) ∧
  map fst (takenJobs evs) `prefix_of` queuedJobs evs.
Proof.
  intros Hrun _. destruct (run_flow _ _ _ _ Hrun) as (F1 & F2 & F3 & F4 & _).
  split_and!; by eexists.
Qed.

Lemma stages_preserve_order_witness :
  dequeued overtakingEnd.1 `prefix_of` enqueued overtakingEnd.1 ∧
  map fst (fanned overtakingEnd.1) `prefix_of` dequeued overtakingEnd.1 ∧
  queuedJobs overtakingEnd.1 `prefix_of` concat (map snd (fanned overtakingEnd.1)) ∧
  map fst (takenJobs overtakingEnd.1) `prefix_of` queuedJobs overtakingEnd.1.
Proof.
  apply (stages_preserve_order (make 0) (scenarioSetup mockPublisher ++ overtakingActs)
           overtakingEnd.1 overtakingEnd.2).
  - vm_compute. reflexivity.
  - vm_compute. lia.
Defined.

(** ** The life of the goroutines *)

(** Only [Stop] closes the intake channel. *)
Definition intakeClosedByStop (s : State) : Prop :=
  closed (inputCh (svc s)) = true → stopper s ≠ SNotCalled.

Lemma intakeClosedByStop_step s a evs' s' :
  intakeClosedByStop s → exec a s = Some (evs', s') → intakeClosedByStop s'.
Proof.
  intros Hi He. revert Hi. unfold intakeClosedByStop.
  exec_inv He; simpl; intros Hi; try done; try (intros Hc; by apply Hi).
  by destruct (Hi eq_refl).
Qed.

(** X5. On a service started at most once, in every run the main
    worker returns only after [Stop] was called: closing the stop channel
    moves it to the draining loop, which it leaves only when the intake
    channel is closed and empty.  A worker returns only after the main
    worker has returned.  The counters of the wait groups are the numbers
    of goroutines that have not returned: the one main worker and, once
    started, the [defaultNumWorkers] workers of the one call of
    [Start]. *)
Theorem goroutines_return_only_after_stop stopCh acts evs s :
  run acts (init stopCh) = Some (evs, s) →
  (starts acts ≤ 1)%nat →
  (mainW s = MExited →
     stopper s ≠ SNotCalled ∧
     closed (inputCh (svc s)) = true ∧ buf (inputCh (svc s)) = [] ∧
     closed (jobCh (svc s)) = true) ∧
  (∀ w, workers s !! w = Some WExited →
     mainW s = MExited ∧ buf (jobCh (svc s)) = []) ∧
  mainWg (svc s) = Nat.b2n (mainActive (mainW s)) ∧
  wg (svc s) = activeWorkers (workers s) ∧
  (mainW s ≠ MNotStarted → length (workers s) = defaultNumWorkers) ∧
  (mainW s = MNotStarted → workers s = []).
Proof.
  intros Hrun _.
  pose proof (run_lifecycle _ _ _ _ (lifecycle_init stopCh) Hrun)
    as (L1 & L2 & L3 & L4 & L5 & L6 & L7 & L8).
  assert (Hi : intakeClosedByStop s).
  { apply (run_preserves (λ _ s, intakeClosedByStop s)
             (λ _ s a evs' s' Hs He, intakeClosedByStop_step s a evs' s' Hs He)
             acts [] (init stopCh) evs s); [|done].
    unfold intakeClosedByStop. simpl. done. }
  split_and!; try done.
  - intros Hm. destruct (L4 Hm) as [Hc Hb]. split_and!; try done.
    + by apply Hi.
    + by apply L3.
  - intros w Hw. destruct (L5 w Hw) as [Hc Hb]. split; [by apply L3|done].
Qed.

Lemma goroutines_return_only_after_stop_witness :
  mainW shutdownEnd.2 = MExited ∧ stopper shutdownEnd.2 ≠ SNotCalled ∧
  wg (svc shutdownEnd.2) = 0%nat.
Proof.
  destruct (goroutines_return_only_after_stop (make 0) (shutdownPrefix ++ shutdownSuffix)
              (shutdownMid.1 ++ shutdownEnd.1) shutdownEnd.2)
    as (Hm & _ & _ & Hwg & _).
  - vm_compute. reflexivity.
  - vm_compute. lia.
  - assert (He : mainW shutdownEnd.2 = MExited) by (vm_compute; reflexivity).
    destruct (Hm He) as (Hs & _). split_and!; [exact He|exact Hs|].
    rewrite Hwg. vm_compute. reflexivity.
Defined.

(** X6. [Stop] on a service that was never started returns at once:
    both wait groups are at zero, so the three statements of [Stop] run
    through, the intake channel is closed and the records it holds stay
    where they are, dispatched to no publisher. *)
Theorem stop_before_start_returns_without_draining stopCh acts evs s :
  run acts (init stopCh) = Some (evs, s) →
  halted s = None → mainW s = MNotStarted → stopper s = SNotCalled →
  ∃ s', run [AStop; AStop; AStop] s = Some ([], s') ∧
        stopper s' = SReturned ∧
        buf (inputCh (svc s')) = buf (inputCh (svc s)) ∧
        closed (inputCh (svc s')) = true ∧
        mainW s' = MNotStarted ∧ calls s' = calls s.
Proof.
  intros Hrun Hh Hm Hst.
  pose proof (run_lifecycle _ _ _ _ (lifecycle_init stopCh) Hrun)
    as (L1 & L2 & L3 & L4 & L5 & L6 & L7 & L8).
  assert (Hi : intakeClosedByStop s).
  { apply (run_preserves (λ _ s, intakeClosedByStop s)
             (λ _ s a evs' s' Hs He, intakeClosedByStop_step s a evs' s' Hs He)
             acts [] (init stopCh) evs s); [|done].
    unfold intakeClosedByStop. simpl. done. }
  assert (Hopen : closed (inputCh (svc s)) = false).
  { destruct (closed (inputCh (svc s))) eqn:Hc; [|done]. by destruct (Hi Hc). }
  rewrite Hm in L1. simpl in L1. rewrite (L6 Hm) in L2.
  change (activeWorkers []) with 0%nat in L2.
  eexists. split.
  - unfold run, exec, Stop, close. rewrite Hh, Hst, Hopen. simpl.
    rewrite Hh, L1. simpl. rewrite Hh, L2. simpl. reflexivity.
  - simpl. done.
Qed.

(** A record waits in the intake of a service that is never started. *)
Definition unstartedActs : list Action :=
  [ AAddLogger "mock" (Some mockPublisher);
    ASubmit (Some (Info None "never dispatched" [])); ASendData 0 ].

Definition unstartedEnd : list Event * State :=
  default ([], init (make 0)) (run unstartedActs (init (make 0))).

Lemma stop_before_start_returns_without_draining_witness :
  ∃ s', run [AStop; AStop; AStop] unstartedEnd.2 = Some ([], s') ∧
        stopper s' = SReturned ∧
        buf (inputCh (svc s')) = [Some 0%nat].
Proof.
  destruct (stop_before_start_returns_without_draining (make 0) unstartedActs
              unstartedEnd.1 unstartedEnd.2)
    as (s' & Hr & Hs & Hb & _).
  - vm_compute. reflexivity.
  - reflexivity.
  - reflexivity.
  - reflexivity.
  - exists s'. split_and!; [exact Hr|exact Hs|]. rewrite Hb. reflexivity.
Defined.


(** ** Jobs already built and the registry *)

(** The state with another registry. *)
Definition withLoggers (m : gmap string (option LogPublisher)) (s : State) : State :=
  set_svc s (set_loggers (svc s) m).

(** The moves that neither read nor write the registry. *)
Definition registryFree (a : Action) : bool :=
  match a with
  | AAddLogger _ _ | ARemoveLogger _ | AMainLocked _ => false
  | _ => true
  end.

(** X7. Only the locked part of [processLogData] reads the registry.
    Every other move of the service does the same, with the same events,
    whatever the registry holds: a job that was built is sent, taken and
    published with the publisher it carries, also after [RemoveLogger]
    has removed that publisher or [AddLogger] has replaced it. *)
Theorem jobs_already_built_ignore_the_registry
    (a : Action) (s s' : State) (evs : list Event)
    (m : gmap string (option LogPublisher)) :
  registryFree a = true →
  exec a s = Some (evs, s') →
  exec a (withLoggers m s) = Some (evs, withLoggers m s').
Proof.
  intros Ha He.
  destruct a; try discriminate Ha; clear Ha;
    exec_inv He;
    unfold exec, Start, Stop, closeStopCh, submit, sendData_run, sendData,
      runMainWorker_stop, runMainWorker_recv, runMainWorker_return,
      processLogData_send, runWorker_recv, processJob_done,
      processJob_timeout, publish, crash, send, recv, close, withLoggers; simpl;
    repeat match goal with
    | H : ?x = _ |- context [?x] => rewrite H; simpl
    end;
    try rewrite decide_True by done;
    try done.
Qed.

(** A job for a publisher is queued; the publisher is then removed. *)
Definition removedActs : list Action :=
  [ AAddLogger "mock" (Some mockPublisher); AStart;
    ASubmit (Some (Info None "kept" [])); ASendData 0;
    AMainRecv; AMainLocked ["mock"]; AMainSend; AWorkerRecv 0 ].

Definition removedEnd : list Event * State :=
  default ([], init (make 0)) (run removedActs (init (make 0))).

Lemma jobs_already_built_ignore_the_registry_witness :
  ∃ s', exec (APublish 0) (withLoggers ∅ removedEnd.2)
        = Some ([EvPublish 0 "mock" 0%nat (Info None "kept" []) Return], withLoggers ∅ s').
Proof.
  eexists.
  apply (jobs_already_built_ignore_the_registry (APublish 0) removedEnd.2).
  - reflexivity.
  - vm_compute. reflexivity.
Defined.


(** ** Options *)

(** The options a caller can write, as data. *)
Inductive OptionCall : Type :=
  | CallWithComponent (c : string)
  | CallWithStackTrace
  | CallWithIntField (key : string) (value : Z)
  | CallWithFloatField (key : string) (value : spec_float)
  | CallWithStringField (key : string) (value : string)
  | CallWithObjectField (key : string) (value : any).

Definition optionOf (c : OptionCall) : Option_ :=
  match c with
  | CallWithComponent c => WithComponent c
  | CallWithStackTrace => WithStackTrace
  | CallWithIntField k v => WithIntField k v
  | CallWithFloatField k v => WithFloatField k v
  | CallWithStringField k v => WithStringField k v
  | CallWithObjectField k v => WithObjectField k v
  end.

(** The field a field option adds. *)
Definition fieldOf (c : OptionCall) : option LogField :=
  match c with
  | CallWithIntField k v =>
      Some {| Key := k; Type_ := FieldTypeInt; Integer := v; Float := S754_zero false;
              String := ""; Object := AnyNil |}
  | CallWithFloatField k v =>
      Some {| Key := k; Type_ := FieldTypeFloat; Integer := 0; Float := v;
              String := ""; Object := AnyNil |}
  | CallWithStringField k v =>
      Some {| Key := k; Type_ := FieldTypeString; Integer := 0; Float := S754_zero false;
              String := v; Object := AnyNil |}
  | CallWithObjectField k v =>
      Some {| Key := k; Type_ := FieldTypeObject; Integer := 0; Float := S754_zero false;
              String := ""; Object := v |}
  | _ => None
  end.

Definition componentOf (c : OptionCall) : option string :=
  match c with CallWithComponent c => Some c | _ => None end.

Definition isStackTrace (c : OptionCall) : bool :=
  match c with CallWithStackTrace => true | _ => false end.

Lemma foldl_options (cs : list OptionCall) (o : Options) :
  let r := foldl (λ opts opt, opt opts) o (map optionOf cs) in
  fields r = fields o ++ map Some (omap fieldOf cs) ∧
  component r = default (component o) (last (omap componentOf cs)) ∧
  withStackTrace r = withStackTrace o || existsb isStackTrace cs.
Proof.
  revert o. induction cs as [|c cs IH]; intros o; simpl.
  - rewrite app_nil_r, orb_false_r. done.
  - destruct (IH (optionOf c o)) as (Hf & Hc & Hs). rewrite Hf, Hc, Hs.
    destruct c; simpl; rewrite <- ?app_assoc; simpl; split_and!; try done.
    + change (list_omap OptionCall string componentOf cs) with (omap componentOf cs).
      rewrite last_cons. by destruct (last (omap componentOf cs)).
    + by rewrite orb_true_r.
Qed.

Lemma applyOptions_calls (cs : list OptionCall) :
  fields (applyOptions (map optionOf cs)) = map Some (omap fieldOf cs) ∧
  component (applyOptions (map optionOf cs)) = default "" (last (omap componentOf cs)) ∧
  withStackTrace (applyOptions (map optionOf cs)) = existsb isStackTrace cs.
Proof.
  unfold applyOptions. destruct (foldl_options cs zeroOptions) as (Hf & Hc & Hs).
  rewrite Hf, Hc, Hs. done.
Qed.

(** X8. Options compose in call order: the fields of the applied
    options are the fields of the field options, in the order of the
    calls and repeated keys included; the component is that of the last
    [WithComponent], empty when there is none; the stack trace is asked
    for as soon as one [WithStackTrace] occurs. *)
Theorem options_apply_in_call_order (cs : list OptionCall) :
  fields (applyOptions (map optionOf cs)) = map Some (omap fieldOf cs) ∧
  component (applyOptions (map optionOf cs)) = default "" (last (omap componentOf cs)) ∧
  withStackTrace (applyOptions (map optionOf cs)) = existsb isStackTrace cs.
Proof.
  unfold applyOptions. destruct (foldl_options cs zeroOptions) as (Hf & Hc & Hs).
  rewrite Hf, Hc, Hs. done.
Qed.

(** ** The records of the front-end *)

(** The field the front-end adds for the component. *)
Definition componentField (c : string) : LogField :=
  {| Key := FieldComponentKey; Type_ := FieldTypeString; Integer := 0;
     Float := S754_zero false; String := c; Object := AnyNil |}.

(** The field the front-end adds for the stack trace. *)
Definition filenameField (frames : list string) : LogField :=
  {| Key := FieldFilenameKey; Type_ := FieldTypeString; Integer := 0;
     Float := S754_zero false; String := Join (drop 1 frames) " <- "; Object := AnyNil |}.

(** X9. The record of [Info], [Warning] and [Debug] carries the context,
    the message and the level of the call; its fields are the fields of
    the options in call order followed by one string field "component",
    which is present also when no component was given (its value is then
    empty), and [WithStackTrace] has no effect on it. *)
Theorem logMsg_record_has_option_fields_then_component
    (ctx : option (context.Context ContextKey)) (level : LogLevel)
    (message : string) (cs : list OptionCall) :
  logMsg ctx level message (map optionOf cs) =
  {| Ctx := ctx; Msg := message;
     Fields := map Some (omap fieldOf cs)
               ++ [Some (componentField (default "" (last (omap componentOf cs))))];
     Level := level |}.
Proof.
  unfold logMsg. simpl.
  destruct (applyOptions_calls cs) as (-> & -> & _). done.
Qed.

(** X10. The record of [Error] has level Error and the error's message.
    Its fields are, in this order: the field "filename" when the stack
    trace was asked for, built from the frames but the first; the fields
    of the options; the field "component" only when a component that is
    not empty was given.  On a nil error the call panics. *)
Theorem error_record_fields_in_order
    (ctx : option (context.Context ContextKey)) (frames : list string)
    (cs : list OptionCall) :
  (∀ msg,
     Error ctx (Some msg) frames (map optionOf cs) =
     Returns {| Ctx := ctx; Msg := msg;
                Fields :=
                  (if existsb isStackTrace cs then [Some (filenameField frames)] else [])
                  ++ map Some (omap fieldOf cs)
                  ++ (if decide (default "" (last (omap componentOf cs)) = "") then []
                      else [Some (componentField (default "" (last (omap componentOf cs))))]);
                Level := ErrorLevel |}) ∧
  (∃ panic, Error ctx None frames (map optionOf cs) = Panics panic).
Proof.
  split; [|by eexists].
  intros msg. unfold Error, error.
  destruct (applyOptions_calls cs) as (-> & -> & ->).
  f_equal. f_equal.
  destruct (existsb isStackTrace cs), (omap fieldOf cs) as [|f fs];
    simpl; case_decide; simpl; rewrite ?app_nil_r; done.
Qed.

Lemma errorsLoop_all ctx msgs frames opts :
  errorsLoop ctx (map Some msgs) frames opts =
  (map (λ msg, returned record1 (error ctx (Some msg) frames opts)) msgs, Returns tt).
Proof.
  induction msgs as [|msg msgs IH]; [done|].
  cbn [map errorsLoop]. rewrite IH. done.
Qed.

Lemma errorsLoop_nil ctx msgs rest frames opts :
  ∃ panic,
    errorsLoop ctx (map Some msgs ++ None :: rest) frames opts =
    (map (λ msg, returned record1 (error ctx (Some msg) frames opts)) msgs, Panics panic).
Proof.
  induction msgs as [|msg msgs [panic IH]]; [by eexists|].
  exists panic. cbn [map app errorsLoop]. simpl in IH. rewrite IH. done.
Qed.

(** X11. [Errors] builds one record for each error, in the order of the
    slice, each with level Error and the message of its error, all with
    the same options.  A nil error in the slice makes the call panic after
    the records of the errors before it have been built and handed to
    their sends; the errors after it are never logged. *)
Theorem Errors_builds_one_record_per_error_until_a_nil_error
    (ctx : option (context.Context ContextKey)) (frames : list string)
    (options : list Option_) :
  (∀ msgs,
     ∃ ds, Errors ctx (map Some msgs) frames options = (ds, Returns tt) ∧
           map Msg ds = msgs ∧ Forall (λ d, Level d = ErrorLevel ∧ Ctx d = ctx) ds ∧
           ∀ i msg, msgs !! i = Some msg →
                    Error ctx (Some msg) frames options = Returns (default record1 (ds !! i))) ∧
  (∀ msgs rest,
     ∃ ds panic,
       Errors ctx (map Some msgs ++ None :: rest) frames options = (ds, Panics panic) ∧
       map Msg ds = msgs).
Proof.
  assert (Hmsg : ∀ msgs opts,
    map Msg (map (λ msg, returned record1 (error ctx (Some msg) frames opts)) msgs) = msgs).
  { intros msgs opts. induction msgs as [|m ms IH]; [done|].
    cbn [map]. rewrite IH. done. }
  split.
  - intros msgs. eexists. unfold Errors. rewrite errorsLoop_all.
    split; [done|]. split; [apply Hmsg|]. split.
    + apply Forall_forall. intros d Hd.
      apply list_elem_of_In, in_map_iff in Hd as (m & <- & _). done.
    + intros i msg Hi. unfold Error.
      change (map ?f msgs) with (f <$> msgs).
      rewrite list_lookup_fmap, Hi. done.
  - intros msgs rest. unfold Errors.
    destruct (errorsLoop_nil ctx msgs rest frames (applyOptions options)) as [panic ->].
    eexists _, _. split; [done|]. apply Hmsg.
Qed.


(** ** Joined strings *)

Lemma string_append_cons (c : Ascii.ascii) (a b : string) :
  String.append (String.String c a) b = String.String c (String.append a b).
Proof. reflexivity. Qed.

Lemma string_append_nil (b : string) : String.append "" b = b.
Proof. reflexivity. Qed.

Lemma string_length_append (a b : string) :
  String.length (String.append a b) = (String.length a + String.length b)%nat.
Proof.
  induction a as [|c a IH]; [done|].
  rewrite string_append_cons. simpl. by rewrite IH.
Qed.

Lemma string_append_assoc (a b c : string) :
  String.append (String.append a b) c = String.append a (String.append b c).
Proof.
  induction a as [|x a IH]; [done|].
  rewrite !string_append_cons. by rewrite IH.
Qed.

Lemma Join_cons (e : string) (rest : list string) (sep : string) :
  rest ≠ [] → Join (e :: rest) sep = String.append e (String.append sep (Join rest sep)).
Proof. by destruct rest. Qed.

(** X12. [strings.Join], which [SetMessage] uses with " / " and the
    stack trace field with " <- ": the join of two lists that are not
    empty is the join of the first, a separator and the join of the
    second, and the length of a join is the total length of the elements
    plus one separator between any two neighbours.  [SetMessage] with one
    message stores it as it is and changes no other field. *)
Theorem Join_puts_one_separator_between_neighbours :
  (∀ l1 l2 sep, l1 ≠ [] → l2 ≠ [] →
     Join (l1 ++ l2) sep
     = String.append (Join l1 sep) (String.append sep (Join l2 sep))) ∧
  (∀ l sep,
     String.length (Join l sep)
     = (sum_list (map String.length l) + (length l - 1) * String.length sep)%nat) ∧
  (∀ m msg, SetMessage m [msg]
            = {| Message := msg; Component := Component m; MLevel := MLevel m;
                 MFields := MFields m |}) ∧
  (∀ m a b, Message (SetMessage m [a; b]) = String.append a (String.append " / " b)).
Proof.
  split_and!.
  - intros l1 l2 sep Hl1 Hl2. induction l1 as [|e l1 IH]; [done|].
    destruct l1 as [|e' l1].
    + simpl app. by rewrite Join_cons.
    + change ((e :: e' :: l1) ++ l2) with (e :: ((e' :: l1) ++ l2)).
      rewrite Join_cons by done. rewrite IH by done.
      rewrite (Join_cons e (e' :: l1)) by done.
      by rewrite !string_append_assoc.
  - intros l sep. induction l as [|e l IH]; [done|].
    destruct l as [|e' l].
    + cbn. lia.
    + rewrite Join_cons by done. rewrite !string_length_append, IH.
      cbn [map sum_list sum_list_with length].
      replace (S (S (length l)) - 1)%nat with (S (length l)) by lia.
      replace (S (length l) - 1)%nat with (length l) by lia.
      simpl. lia.
  - done.
  - done.
Qed.

(** ** The names of the levels *)

Lemma string_append_cancel_r (a b s : string) :
  String.append a s = String.append b s → a = b.
Proof.
  intros Heq.
  assert (Hlen : String.length a = String.length b).
  { apply (f_equal String.length) in Heq. rewrite !string_length_append in Heq. lia. }
  revert b Heq Hlen. induction a as [|c a IH]; intros [|c' b] Heq Hlen;
    rewrite ?string_append_cons, ?string_append_nil in Heq; simpl in Hlen;
    try done.
  injection Heq as -> Heq. f_equal. apply IH; [done|lia].
Qed.

(** X13. [LogLevel.String] gives each of the seven levels its name and
    any other value the text "Level(n)"; no two levels have the same
    text. *)
Theorem LogLevel_String_is_injective :
  (LogLevel_String DebugLevel = "debug" ∧ LogLevel_String InfoLevel = "info" ∧
   LogLevel_String WarnLevel = "warn" ∧ LogLevel_String ErrorLevel = "error" ∧
   LogLevel_String DPanicLevel = "dpanic" ∧ LogLevel_String PanicLevel = "panic" ∧
   LogLevel_String FatalLevel = "fatal" ∧
   LogLevel_String 6 = "Level(6)" ∧ LogLevel_String (-2) = "Level(-2)") ∧
  ∀ l1 l2 : LogLevel, LogLevel_String l1 = LogLevel_String l2 → l1 = l2.
Proof.
  split; [split_and!; reflexivity|].
  intros l1 l2. unfold LogLevel_String, DebugLevel, InfoLevel, WarnLevel, ErrorLevel,
    DPanicLevel, PanicLevel, FatalLevel.
  destruct (Z.eqb_spec l1 (-1)); [|destruct (Z.eqb_spec l1 0); [|
    destruct (Z.eqb_spec l1 1); [|destruct (Z.eqb_spec l1 2); [|
    destruct (Z.eqb_spec l1 3); [|destruct (Z.eqb_spec l1 4); [|
    destruct (Z.eqb_spec l1 5)]]]]]];
  (destruct (Z.eqb_spec l2 (-1)); [|destruct (Z.eqb_spec l2 0); [|
     destruct (Z.eqb_spec l2 1); [|destruct (Z.eqb_spec l2 2); [|
     destruct (Z.eqb_spec l2 3); [|destruct (Z.eqb_spec l2 4); [|
     destruct (Z.eqb_spec l2 5)]]]]]]);
  intros Heq; try discriminate Heq; try congruence.
  apply (inj (String.append "Level(")) in Heq.
  apply string_append_cancel_r in Heq.
  by apply (inj pretty).
Qed.


(** ** What the zap publisher writes *)

(** X14. The application id and the environment name of an entry come
    from the record's context when it binds the key to a string that is
    not empty, the innermost binding counting; in every other case (a nil
    or empty context, no binding, an empty string, a value that is not a
    string) they are the publisher's own defaults. *)
Theorem zap_context_value_or_default (key : ContextKey) (dflt : string) :
  zap.ctxString context.Background key dflt = dflt ∧
  (∀ ctx v, v ≠ "" →
     zap.ctxString (context.WithValue ctx key (AnyString v)) key dflt = v) ∧
  (∀ ctx, zap.ctxString (context.WithValue ctx key (AnyString "")) key dflt = dflt) ∧
  (∀ ctx v, (∀ s, v ≠ AnyString s) →
     zap.ctxString (context.WithValue ctx key v) key dflt = dflt) ∧
  (∀ ctx key' v, key' ≠ key →
     zap.ctxString (context.WithValue ctx key' v) key dflt = zap.ctxString ctx key dflt) ∧
  (∀ ctx, (∀ v, (key, v) ∉ ctx) → zap.ctxString ctx key dflt = dflt).
Proof.
  unfold zap.ctxString, context.WithValue. split_and!.
  - done.
  - intros ctx v Hv. simpl. rewrite decide_True by done. by rewrite decide_False.
  - intros ctx. simpl. by rewrite decide_True.
  - intros ctx v Hv. simpl. rewrite decide_True by done.
    destruct v; try done. by destruct (Hv s).
  - intros ctx key' v Hne. simpl. by rewrite decide_False.
  - intros ctx Hni. induction ctx as [|[k v] ctx IH]; [done|].
    simpl. destruct (decide (k = key)) as [->|Hne].
    + exfalso. apply (Hni v). apply elem_of_cons. auto.
    + apply IH. intros v' Hin. apply (Hni v'). apply elem_of_cons. auto.
Qed.

(** The fields every entry starts with. *)
Definition entryHead (l : zap.Logger) (d : LogData) : list zap.Field :=
  [ zap.String_ "service_name"
      (zap.ctxString (default context.Background (Ctx d)) AppID (zap.appID l));
    zap.String_ "env"
      (zap.ctxString (default context.Background (Ctx d)) EnvName (zap.env l));
    zap.Namespace "payload" ].

Lemma getPayloadFields_setCtx l d c :
  zap.getPayloadFields l (zap.setCtx d c) = zap.getPayloadFields l d.
Proof. done. Qed.

(** X15. For a record whose fields are all tagged and whose level is
    Error, Warn, Info or Debug, [SendMsg] of a publisher made by
    [NewZapLogger] returns having written exactly one entry: the record's
    level and message, then the fields "service_name" and "env", the
    namespace "payload", and one zap field for each field of the record,
    in order. *)
Theorem zap_entry_of_a_record (appID env : string) (d : LogData) :
  Forall tagged (Fields d) →
  Level d ∈ [ErrorLevel; WarnLevel; InfoLevel; DebugLevel] →
  ∃ payload,
    zap.sr_entries (zap.SendMsg (zap.NewZapLogger appID env) d)
    = [ {| zap.ELevel := Level d; zap.EMessage := Msg d;
           zap.EFields := entryHead (zap.NewZapLogger appID env) d ++ payload |} ] ∧
    zap.sr_end (zap.SendMsg (zap.NewZapLogger appID env) d) = Return ∧
    length payload = length (Fields d) ∧
    ∀ i g, Fields d !! i = Some (Some g) → payload !! i = Some (zapFieldOf g).
Proof.
  intros Htag Hlvl.
  destruct (payloadLoop_tagged (Fields d) [zap.Namespace "payload"] Htag)
    as (out & Hout & Hlen & Hnth).
  exists out. unfold zap.SendMsg, zap.getPayloadFields.
  assert (Hd : ∀ d', d' = match Ctx d with
                          | Some _ => d
                          | None => zap.setCtx d context.Background
                          end →
               Fields d' = Fields d ∧ Level d' = Level d ∧ Msg d' = Msg d ∧
               default context.Background (Ctx d') = default context.Background (Ctx d)).
  { intros d' ->. destruct (Ctx d) eqn:Hc; simpl; rewrite ?Hc; split_and!; done. }
  destruct (Hd _ eq_refl) as (-> & -> & -> & ->). rewrite Hout.
  unfold entryHead. simpl.
  rewrite !elem_of_cons in Hlvl.
  destruct Hlvl as [-> | [-> | [-> | [-> | Hin]]]]; [..|by apply elem_of_nil in Hin];
    simpl; done.
Qed.

Lemma zap_entry_of_a_record_witness :
  zap.sr_entries (zap.SendMsg (zap.NewZapLogger "app" "dev")
                    (Info (Some (context.WithValue context.Background AppID
                                   (AnyString "billing")))
                          "paid" [WithIntField "amount" 0]))
  = [ {| zap.ELevel := InfoLevel; zap.EMessage := "paid";
         zap.EFields := [ zap.String_ "service_name" "billing"; zap.String_ "env" "dev";
                          zap.Namespace "payload"; zap.Int "amount" 0;
                          zap.String_ "component" "" ] |} ].
Proof.
  destruct (zap_entry_of_a_record "app" "dev"
              (Info (Some (context.WithValue context.Background AppID
                             (AnyString "billing")))
                    "paid" [WithIntField "amount" 0]))
    as (payload & Hentries & _).
  - repeat constructor; eexists; (split; [reflexivity|]); vm_compute; auto.
  - apply list_elem_of_In. vm_compute. auto.
  - vm_compute. reflexivity.
Defined.

(** ** Records that end the process *)

Lemma payloadLoop_nil_panics fs : ∀ acc,
  None ∈ fs → ∃ panic, zap.payloadLoop acc fs = Panics panic.
Proof.
  induction fs as [|f fs IH]; intros acc Hin; [by apply elem_of_nil in Hin|].
  destruct f as [g|].
  - apply elem_of_cons in Hin as [?|Hin]; [done|].
    cbn [zap.payloadLoop]. unfold zap.payloadField.
    repeat case_match; simplify_eq; by apply IH.
  - by eexists.
Qed.

(** X16. Two kinds of record make [SendMsg] of the zap publisher end
    abnormally.  On a record of level Fatal it writes the entry and then
    exits the process with status 1.  On a record with a nil element in
    [Fields] it panics, whatever the level, having written nothing.  In
    the service either ends the process: the publish goroutine runs
    outside any recovery, and afterwards no goroutine moves. *)
Theorem zap_fatal_record_or_nil_field_ends_the_process (l : zap.Logger) (d : LogData) :
  (Level d = FatalLevel → Forall is_Some (Fields d) →
     zap.sr_end (zap.SendMsg l d) = Exits 1 ∧
     (zap.enabled l FatalLevel = true →
        ∃ fs, zap.sr_entries (zap.SendMsg l d) = [zap.mkEntry FatalLevel (Msg d) fs])) ∧
  (None ∈ Fields d →
     (∃ panic, zap.sr_end (zap.SendMsg l d) = Panic panic) ∧
     zap.sr_entries (zap.SendMsg l d) = []) ∧
  (∀ s cid id p,
     halted s = None →
     calls s !! cid = Some (mkCall (mkSendJob id (Some (zap.publisher l)) p) CSpawned) →
     heap s !! p = Some d →
     (Level d = FatalLevel ∧ Forall is_Some (Fields d)) ∨ None ∈ Fields d →
     ∃ evs s', exec (APublish cid) s = Some (evs, s') ∧
               halted s' ≠ None ∧ ∀ a, exec a s' = None).
Proof.
  assert (Hfatal : Level d = FatalLevel → Forall is_Some (Fields d) →
     zap.sr_end (zap.SendMsg l d) = Exits 1 ∧
     (zap.enabled l FatalLevel = true →
        ∃ fs, zap.sr_entries (zap.SendMsg l d) = [zap.mkEntry FatalLevel (Msg d) fs])).
  { intros Hl Hall. unfold zap.SendMsg, zap.getPayloadFields.
    assert (Hd : ∀ d', d' = match Ctx d with
                            | Some _ => d
                            | None => zap.setCtx d context.Background
                            end →
                 Fields d' = Fields d ∧ Level d' = Level d ∧ Msg d' = Msg d).
    { intros d' ->. by destruct (Ctx d). }
    destruct (Hd _ eq_refl) as (-> & -> & ->).
    destruct (payloadLoop_no_nil (Fields d) [zap.Namespace "payload"] Hall) as [out ->].
    rewrite Hl. simpl. split; [done|]. intros He. unfold zap.write. rewrite He.
    by eexists. }
  assert (Hnil : None ∈ Fields d →
     (∃ panic, zap.sr_end (zap.SendMsg l d) = Panic panic) ∧
     zap.sr_entries (zap.SendMsg l d) = []).
  { intros Hin. unfold zap.SendMsg, zap.getPayloadFields.
    assert (Hd : ∀ d', d' = match Ctx d with
                            | Some _ => d
                            | None => zap.setCtx d context.Background
                            end → Fields d' = Fields d).
    { intros d' ->. by destruct (Ctx d). }
    rewrite (Hd _ eq_refl).
    destruct (payloadLoop_nil_panics (Fields d) [zap.Namespace "payload"] Hin)
      as [panic ->].
    split; [by eexists|done]. }
  split_and!; [done|done|].
  intros s cid id p Hh Hc Hp Hcase.
  assert (Hend : (∃ code, zap.sr_end (zap.SendMsg l d) = Exits code) ∨
                 (∃ panic, zap.sr_end (zap.SendMsg l d) = Panic panic)).
  { destruct Hcase as [[Hl Hall]|Hin].
    - left. destruct (Hfatal Hl Hall) as [-> _]. by eexists.
    - right. by destruct (Hnil Hin) as [? _]. }
  unfold exec, publish. rewrite Hh, Hc. simpl. rewrite Hp. simpl.
  destruct Hend as [[code ->]|[panic ->]]; eexists _, _;
    (split; [reflexivity|]); simpl; split; try done; intros a; by unfold exec.
Qed.

Lemma zap_fatal_record_or_nil_field_ends_the_process_witness :
  zap.sr_end (zap.SendMsg (zap.NewZapLogger "app" "dev")
                {| Ctx := None; Msg := "bye"; Fields := []; Level := FatalLevel |})
  = Exits 1.
Proof.
  destruct (zap_fatal_record_or_nil_field_ends_the_process (zap.NewZapLogger "app" "dev")
              {| Ctx := None; Msg := "bye"; Fields := []; Level := FatalLevel |})
    as (Hf & _).
  destruct Hf as [He _]; [reflexivity|constructor|exact He].
Defined.

(** ** Fields with an unknown type tag *)

Definition knownTag (f : option LogField) : Prop :=
  match f with
  | Some g => 0 <= Type_ g <= 3
  | None => False
  end.

#[local] Instance knownTag_dec f : Decision (knownTag f).
Proof. destruct f; simpl; apply _. Defined.

Lemma payloadField_known g :
  zap.payloadField (Some g) =
  Returns (if decide (knownTag (Some g)) then [zapFieldOf g] else []).
Proof.
  unfold zap.payloadField, zapFieldOf, knownTag, FieldTypeInt, FieldTypeString,
    FieldTypeFloat, FieldTypeObject.
  destruct (Z.eqb_spec (Type_ g) 1); [by rewrite decide_True by lia|].
  destruct (Z.eqb_spec (Type_ g) 0); [by rewrite decide_True by lia|].
  destruct (Z.eqb_spec (Type_ g) 2); [by rewrite decide_True by lia|].
  destruct (Z.eqb_spec (Type_ g) 3); [by rewrite decide_True by lia|].
  by rewrite decide_False by lia.
Qed.

Lemma payloadLoop_known fs : ∀ acc,
  Forall is_Some fs →
  zap.payloadLoop acc fs =
  Returns (acc ++ omap (λ f, g ← f; Some (zapFieldOf g)) (filter knownTag fs)).
Proof.
  induction fs as [|f fs IH]; intros acc Hall.
  - simpl. by rewrite app_nil_r.
  - apply Forall_cons in Hall as [[g ->] Hall].
    cbn [zap.payloadLoop]. rewrite payloadField_known, IH by done.
    rewrite filter_cons. destruct (decide (knownTag (Some g))); simpl.
    + by rewrite <- app_assoc.
    + by rewrite app_nil_r.
Qed.

(** X17. [getPayloadFields] publishes the fields whose tag is one of the
    four field types, in order, and silently leaves out every field with
    another tag: with no nil element in [Fields] it returns the namespace
    followed by one zap field for each field with a known tag. *)
Theorem payload_leaves_out_fields_with_unknown_tag (l : zap.Logger) (d : LogData) :
  Forall is_Some (Fields d) →
  zap.getPayloadFields l d =
  Returns (zap.Namespace "payload"
           :: omap (λ f, g ← f; Some (zapFieldOf g)) (filter knownTag (Fields d))).
Proof. intros Hall. unfold zap.getPayloadFields. by rewrite payloadLoop_known. Qed.

Lemma payload_leaves_out_fields_with_unknown_tag_witness :
  zap.getPayloadFields (zap.NewZapLogger "app" "dev")
    {| Ctx := None; Msg := "m";
       Fields := [ Some {| Key := "kept"; Type_ := FieldTypeInt; Integer := 7;
                           Float := S754_zero false; String := ""; Object := AnyNil |};
                   Some {| Key := "lost"; Type_ := 9; Integer := 7;
                           Float := S754_zero false; String := "x"; Object := AnyNil |} ];
       Level := InfoLevel |}
  = Returns [zap.Namespace "payload"; zap.Int "kept" 7].
Proof.
  rewrite payload_leaves_out_fields_with_unknown_tag; [reflexivity|].
  repeat constructor; by eexists.
Defined.


(** ** Logging after Stop *)

(** Once [Stop] was called the intake channel is closed, and stays so. *)
Definition stopClosesIntake (s : State) : Prop :=
  stopper s ≠ SNotCalled → closed (inputCh (svc s)) = true.

Lemma stopClosesIntake_step s a evs' s' :
  stopClosesIntake s → exec a s = Some (evs', s') → stopClosesIntake s'.
Proof.
  intros Hi He. revert Hi. unfold stopClosesIntake.
  exec_inv He; simpl; intros Hi; try done; try (intros Hc; by apply Hi).
  all: intros Hc; specialize (Hi Hc); congruence.
Qed.

Lemma run_stopClosesIntake stopCh acts evs s :
  run acts (init stopCh) = Some (evs, s) → stopClosesIntake s.
Proof.
  apply (run_preserves (λ _ s, stopClosesIntake s)
           (λ _ s a evs' s' Hs He, stopClosesIntake_step s a evs' s' Hs He)
           acts [] (init stopCh) evs s).
  unfold stopClosesIntake. simpl. done.
Qed.

(** X18. Once [Stop] has been called, in every run: the send of every
    [sendData] goroutine that is still waiting, and of every logging call
    made later, panics with "send on closed channel", which ends the
    process (no goroutine moves afterwards); and the first statement of a
    second [Stop] would panic with "close of closed channel". *)
Theorem logging_after_stop_ends_the_process stopCh acts evs s :
  run acts (init stopCh) = Some (evs, s) →
  stopper s ≠ SNotCalled → halted s = None →
  (∀ i x, senders s !! i = Some x →
     ∃ s', exec (ASendData i) s = Some ([EvHalt (Crashed "send on closed channel")], s') ∧
           halted s' = Some (Crashed "send on closed channel") ∧
           ∀ a, exec a s' = None) ∧
  (∀ d, ∃ s', run [ASubmit d; ASendData (length (senders s))] s
              = Some ([EvHalt (Crashed "send on closed channel")], s') ∧
              halted s' = Some (Crashed "send on closed channel")) ∧
  close (inputCh (svc s)) = Panics "close of closed channel".
Proof.
  intros Hrun Hst Hh.
  pose proof (run_stopClosesIntake _ _ _ _ Hrun Hst) as Hc.
  split_and!.
  - intros i x Hi. eexists. unfold exec, sendData_run, sendData, send.
    rewrite Hh, Hi, Hc. simpl. split_and!; [reflexivity|done|done].
  - intros d. unfold run, exec, submit, sendData_run, sendData, send. rewrite Hh.
    destruct d as [d|]; simpl; rewrite Hh; simpl;
      rewrite lookup_app_r by lia; rewrite Nat.sub_diag; simpl; rewrite Hc; simpl;
      eexists; split; reflexivity.
  - unfold close. by rewrite Hc.
Qed.

(** A record logged after the shutdown has completed. *)
Lemma logging_after_stop_ends_the_process_witness :
  ∃ s', run [ASubmit (Some (Info None "late" [])); ASendData 0] shutdownEnd.2
        = Some ([EvHalt (Crashed "send on closed channel")], s').
Proof.
  destruct (logging_after_stop_ends_the_process (make 0) (shutdownPrefix ++ shutdownSuffix)
              (shutdownMid.1 ++ shutdownEnd.1) shutdownEnd.2) as (_ & H & _).
  - vm_compute. reflexivity.
  - vm_compute. discriminate.
  - vm_compute. reflexivity.
  - destruct (H (Some (Info None "late" []))) as (s' & Hr & _).
    exists s'. exact Hr.
Defined.


(** ** Shutdown can always complete *)

(** Every pointer the service holds addresses a record of the heap. *)
Definition validRec (n : nat) (x : option ptr) : Prop :=
  match x with Some p => (p < n)%nat | None => True end.

Definition validJob (n : nat) (j : sendJob) : Prop := (logData j < n)%nat.

Definition validWorker (n : nat) (w : WorkerPC) : Prop :=
  match w with WSelect j _ _ => validJob n j | _ => True end.

Definition heapValid (s : State) : Prop :=
  Forall (validRec (length (heap s))) (senders s) ∧
  Forall (validRec (length (heap s))) (buf (inputCh (svc s))) ∧
  Forall (validRec (length (heap s))) (currentRec (mainW s)) ∧
  Forall (validJob (length (heap s))) (pendingJobs (mainW s)) ∧
  Forall (validJob (length (heap s))) (buf (jobCh (svc s))) ∧
  Forall (validWorker (length (heap s))) (workers s) ∧
  Forall (λ c, validJob (length (heap s)) (cjob c)) (calls s).

Lemma validRec_mono n m x : (n ≤ m)%nat → validRec n x → validRec m x.
Proof. destruct x; simpl; [lia|done]. Qed.

Lemma validJob_mono n m j : (n ≤ m)%nat → validJob n j → validJob m j.
Proof. unfold validJob. lia. Qed.

Lemma validWorker_mono n m w : (n ≤ m)%nat → validWorker n w → validWorker m w.
Proof. destruct w; simpl; [done| |done]. apply validJob_mono. Qed.

Lemma fanout_logData m p order :
  Forall (λ j, logData j = p) (fanout m p order).2.
Proof.
  rewrite fanout_jobs. induction order as [|id order IH]; [by constructor|].
  cbn [omap list_omap]. unfold jobFor at 1.
  destruct (m !! id) as [[lg|]|]; try done. by constructor.
Qed.

Lemma processLogData_valid ls order x n :
  validRec n x → Forall (validJob n) (processLogData ls order x).2.
Proof.
  unfold processLogData. destruct x as [p|]; [|by constructor]. simpl. intros Hp.
  case_decide; [by constructor|].
  eapply Forall_impl; [apply fanout_logData|]. intros j Hj. unfold validJob. by rewrite Hj.
Qed.

Ltac valid_hyps :=
  repeat match goal with
  | H : buf ?c = _, V : Forall _ (buf ?c) |- _ => rewrite H in V
  | H : mainW ?s = _, V : Forall _ (currentRec (mainW ?s)) |- _ => rewrite H in V
  | H : mainW ?s = _, V : Forall _ (pendingJobs (mainW ?s)) |- _ => rewrite H in V
  end;
  simpl in *;
  repeat match goal with
  | V : Forall _ (_ :: _) |- _ => apply Forall_cons in V as [? ?]
  end;
  try match goal with
  | Hc : calls ?s !! _ = Some _, V : Forall (λ c, validJob _ (cjob c)) (calls ?s) |- _ =>
      let Hcv := fresh "Hcv" in
      pose proof (Forall_lookup_1 _ _ _ _ V Hc) as Hcv; simpl in Hcv
  end.

Ltac valid_goal :=
  split_and!;
  repeat first
    [ assumption
    | apply Forall_nil_2
    | apply Forall_app_2
    | apply Forall_cons_2
    | apply Forall_insert
    | apply Forall_delete
    | apply Forall_replicate
    | done ].

Lemma heapValid_step s a evs' s' :
  heapValid s → exec a s = Some (evs', s') → heapValid s'.
Proof.
  intros Hv He. revert Hv. unfold heapValid.
  exec_inv He; intros (V1 & V2 & V3 & V4 & V5 & V6 & V7); simpl in *; use_eqs; simpl;
    rewrite ?length_insert;
    try (split_and!; assumption);
    valid_hyps; try solve [valid_goal].
  - rewrite length_app. simpl.
    split_and!; try apply Forall_app_2;
      try (eapply Forall_impl; [eassumption|]; intros ?;
           first [apply validRec_mono|apply validJob_mono|apply validWorker_mono]; lia).
    repeat constructor. simpl. lia.
  - match goal with
    | Hl : senders s !! _ = Some ?o, V : Forall _ (senders s) |- _ =>
        pose proof (Forall_lookup_1 _ _ _ _ V Hl) as Ho
    end.
    valid_goal.
  - match goal with
    | Hp : processLogData _ _ ?x = _, Hx : validRec ?n ?x |- _ =>
        pose proof (processLogData_valid (svc s) order x n Hx) as Hj; rewrite Hp in Hj
    end.
    valid_goal.
Qed.

Lemma heapValid_init stopCh : heapValid (init stopCh).
Proof. unfold heapValid. simpl. split_and!; constructor. Qed.

(** A worker in the [select] of [processJob] waits for the goroutine it
    spawned for its job. *)
Definition callsTracked (s : State) : Prop := ∃ evs, donePublished evs s.

Lemma callsTracked_init stopCh : callsTracked (init stopCh).
Proof.
  exists []. unfold donePublished. simpl. split_and!.
  - intros cid j Hc. done.
  - intros j cid Hin. by apply elem_of_nil in Hin.
  - intros w j cid dl Hw. done.
Qed.

Lemma callsTracked_step s a evs' s' :
  callsTracked s → exec a s = Some (evs', s') → callsTracked s'.
Proof. intros [evs Hd] He. exists (evs ++ evs'). by eapply donePublished_step. Qed.

(** What holds in every state of a run. *)
Definition sane (s : State) : Prop :=
  lifecycle s ∧ heapValid s ∧ bounded s ∧ intakeClosedByStop s ∧ stopClosesIntake s ∧
  callsTracked s.

Lemma sane_init stopCh : sane (init stopCh).
Proof.
  split_and!.
  - apply lifecycle_init.
  - apply heapValid_init.
  - unfold bounded. simpl. unfold defaultInputBufferSize, defaultJobBufferSize.
    split_and!; (done || lia).
  - unfold intakeClosedByStop. simpl. done.
  - unfold stopClosesIntake. simpl. done.
  - apply callsTracked_init.
Qed.

Lemma sane_step s a evs' s' : sane s → exec a s = Some (evs', s') → sane s'.
Proof.
  intros (H1 & H2 & H3 & H4 & H5 & H6) He. split_and!.
  - by eapply lifecycle_step.
  - by eapply heapValid_step.
  - by eapply bounded_step.
  - by eapply intakeClosedByStop_step.
  - by eapply stopClosesIntake_step.
  - by eapply callsTracked_step.
Qed.

Lemma sane_run acts s0 evs s : sane s0 → run acts s0 = Some (evs, s) → sane s.
Proof.
  intros Hs Hrun.
  apply (run_preserves (λ _ s, sane s)
           (λ _ s a evs' s' Hs He, sane_step s a evs' s' Hs He)
           acts [] s0 evs s); done.
Qed.

(** A publisher whose [SendMsg] returns or hangs on every record: it
    neither panics nor exits. *)
Definition returnsOrHangs (lg : LogPublisher) : Prop :=
  ∀ d, pr_end (SendMsg lg d) = Return ∨ pr_end (SendMsg lg d) = Hangs.

Definition tameJob (j : sendJob) : Prop := ∃ lg, logger j = Some lg ∧ returnsOrHangs lg.

(** Every publisher the service holds, in the registry, in a job or in
    a publish goroutine, returns or hangs. *)
Definition tame (s : State) : Prop :=
  (∀ id lg, loggers (svc s) !! id = Some (Some lg) → returnsOrHangs lg) ∧
  Forall tameJob (pendingJobs (mainW s)) ∧
  Forall tameJob (buf (jobCh (svc s))) ∧
  Forall (λ c, tameJob (cjob c)) (calls s).

Lemma processLogData_tame ls order x :
  (∀ id lg, loggers ls !! id = Some (Some lg) → returnsOrHangs lg) →
  Forall tameJob (processLogData ls order x).2.
Proof.
  intros Ht. unfold processLogData. destruct x as [p|]; [|by constructor].
  case_decide; [by constructor|]. rewrite fanout_jobs.
  apply Forall_forall. intros j Hj.
  apply list_elem_of_omap in Hj as (id & _ & Hj). unfold jobFor in Hj.
  destruct (loggers ls !! id) as [[lg|]|] eqn:Hl; simplify_eq.
  exists lg. split; [done|]. by eapply Ht.
Qed.

Lemma tame_step s a evs' s' :
  (∀ id lg, a ≠ AAddLogger id lg) →
  tame s → exec a s = Some (evs', s') → tame s'.
Proof.
  intros Ha Ht He. revert Ht. unfold tame.
  destruct a; try (by (exfalso; eapply Ha));
    exec_inv He; intros (T1 & T2 & T3 & T4); simpl in *; use_eqs; simpl;
    try (split_and!; assumption).
  - split_and!; try done. intros id0 lg Hl.
    apply lookup_delete_Some in Hl as [_ Hl]. by eapply T1.
  - split_and!; try done.
    match goal with
    | Hp : processLogData ?ls ?order ?x = _ |- _ =>
        pose proof (processLogData_tame ls order x T1) as Hj; rewrite Hp in Hj
    end.
    exact Hj.
  - try match goal with Hm : mainW s = _ |- _ => rewrite Hm in T2 end. simpl in T2.
    apply Forall_cons in T2 as [Hj T2].
    split_and!; try done. apply Forall_app_2; [done|by constructor].
  - try match goal with Hb : buf (jobCh (svc s)) = _ |- _ => rewrite Hb in T3 end.
    apply Forall_cons in T3 as [Hj T3].
    split_and!; try done. apply Forall_app_2; [done|by constructor].
  - split_and!; try done. apply Forall_insert; [done|].
    match goal with Hc : calls s !! _ = Some _ |- _ =>
      exact (Forall_lookup_1 _ _ _ _ T4 Hc) end.
  - split_and!; try done. apply Forall_insert; [done|].
    match goal with Hc : calls s !! _ = Some _ |- _ =>
      exact (Forall_lookup_1 _ _ _ _ T4 Hc) end.
Qed.

(** Every publish goroutine spawned has run [SendMsg]. *)
Definition allRun (s : State) : Prop := Forall (λ c, cstate c ≠ CSpawned) (calls s).

(** The moves of the service's own goroutines and of the caller of
    [Stop], and the passage of time: no producer and no publisher takes
    part in them. *)
Definition shutdownMove (a : Action) : bool :=
  match a with
  | AStop | AMainRecv | AMainLocked _ | AMainSend
  | AWorkerRecv _ | AWorkerTimeout _ | ATick _ => true
  | _ => false
  end.

(** The same moves and those of the publish goroutines: [SendMsg] runs,
    and a worker finds [doneCh] closed. *)
Definition serviceMove (a : Action) : bool :=
  match a with
  | AWorkerDone _ | APublish _ => true
  | _ => shutdownMove a
  end.

(** The moves of [Stop], of the main worker and of a worker at the job
    channel. *)
Definition coreMove (a : Action) : bool :=
  match a with
  | AStop | AMainRecv | AMainLocked _ | AMainSend | AWorkerRecv _ => true
  | _ => false
  end.

Lemma coreMove_shutdownMove a : coreMove a = true → shutdownMove a = true.
Proof. by destruct a. Qed.

Lemma shutdownMove_serviceMove a : shutdownMove a = true → serviceMove a = true.
Proof. by destruct a. Qed.

Lemma coreMove_serviceMove a : coreMove a = true → serviceMove a = true.
Proof. by destruct a. Qed.

(** [s'] is reached from [s] by moves among [mv]. *)
Definition winds (mv : Action → bool) (s s' : State) : Prop :=
  ∃ acts evs, forallb mv acts = true ∧ run acts s = Some (evs, s').

Lemma winds_refl mv s : winds mv s s.
Proof. by exists [], []. Qed.

Lemma winds_trans mv s1 s2 s3 : winds mv s1 s2 → winds mv s2 s3 → winds mv s1 s3.
Proof.
  intros (a1 & e1 & Hq1 & Hr1) (a2 & e2 & Hq2 & Hr2).
  exists (a1 ++ a2), (e1 ++ e2). split.
  - rewrite forallb_app. by rewrite Hq1, Hq2.
  - rewrite run_app. by rewrite Hr1, Hr2.
Qed.

Lemma winds_step mv a s evs s' :
  mv a = true → exec a s = Some (evs, s') → winds mv s s'.
Proof.
  intros Hq He. exists [a], evs. split.
  - simpl. by rewrite Hq.
  - simpl. rewrite He. by rewrite app_nil_r.
Qed.

Lemma winds_mono (mv1 mv2 : Action → bool) s s' :
  (∀ a, mv1 a = true → mv2 a = true) → winds mv1 s s' → winds mv2 s s'.
Proof.
  intros Hsub (acts & evs & Hq & Hrun). exists acts, evs. split; [|done].
  apply forallb_forall. intros a Ha. apply Hsub.
  by apply (proj1 (forallb_forall mv1 acts) Hq).
Qed.

Lemma winds_ind mv (P : State → Prop) :
  (∀ a s evs s', mv a = true → exec a s = Some (evs, s') → P s → P s') →
  ∀ s s', winds mv s s' → P s → P s'.
Proof.
  intros Hstep s s' (acts & evs & Hq & Hrun). revert s evs Hq Hrun.
  induction acts as [|a acts IH]; intros s evs Hq Hrun HP.
  - simpl in Hrun. by simplify_eq.
  - simpl in Hq. apply andb_true_iff in Hq as [Ha Hq]. simpl in Hrun.
    destruct (exec a s) as [[e1 s1]|] eqn:He; [|done].
    destruct (run acts s1) as [[e2 s2]|] eqn:Hr; [|done]. simplify_eq.
    eapply IH; [done|done|]. by eapply Hstep.
Qed.

Lemma sane_winds mv s s' : sane s → winds mv s s' → sane s'.
Proof. intros Hs (acts & evs & _ & Hrun). by eapply sane_run. Qed.

Lemma tame_winds s s' : tame s → winds serviceMove s s' → tame s'.
Proof.
  intros Hs W. eapply (winds_ind serviceMove tame); [|exact W|exact Hs].
  intros a s0 evs s1 Ha He Hs0. eapply tame_step; [|exact Hs0|exact He].
  intros id lg ->. done.
Qed.

(** These moves start no send and perform none. *)
Lemma winds_senders s s' : winds serviceMove s s' → senders s' = senders s.
Proof.
  intros W. eapply (winds_ind serviceMove (λ s0, senders s0 = senders s)); [|exact W|done].
  intros a s0 evs s1 Ha He <-. destruct a; try discriminate Ha; exec_inv He; done.
Qed.

(** The moves the winding down is made of. *)
Lemma exec_worker_recv_job s w j rest :
  halted s = None → workers s !! w = Some WRange → buf (jobCh (svc s)) = j :: rest →
  exec (AWorkerRecv w) s =
  Some ([EvJobTaken w j (length (calls s))],
        set_workers
          (set_calls
             (set_svc s (set_jobCh (svc s)
                           (mkChan rest (cap (jobCh (svc s))) (closed (jobCh (svc s))))))
             (calls s ++ [mkCall j CSpawned]))
          (<[w := WSelect j (length (calls s)) (now s + sendTimeout)]> (workers s))).
Proof.
  intros Hh Hw Hb. unfold exec, runWorker_recv, recv. by rewrite Hh, Hw, Hb.
Qed.

Lemma exec_worker_recv_exit s w :
  halted s = None → workers s !! w = Some WRange →
  buf (jobCh (svc s)) = [] → closed (jobCh (svc s)) = true →
  exec (AWorkerRecv w) s =
  Some ([], set_workers (set_svc s (set_wg (svc s) (pred (wg (svc s)))))
                        (<[w := WExited]> (workers s))).
Proof.
  intros Hh Hw Hb Hc. unfold exec, runWorker_recv, recv. by rewrite Hh, Hw, Hb, Hc.
Qed.

Lemma exec_main_send s j js k :
  halted s = None → mainW s = MSending (j :: js) k →
  closed (jobCh (svc s)) = false →
  (length (buf (jobCh (svc s))) < cap (jobCh (svc s)))%nat →
  exec AMainSend s =
  Some ([EvJobQueued j],
        set_mainW
          (set_svc s (set_jobCh (svc s)
                        (mkChan (buf (jobCh (svc s)) ++ [j]) (cap (jobCh (svc s))) false)))
          (MSending js k)).
Proof.
  intros Hh Hm Hc Hl. apply Nat.ltb_lt in Hl.
  unfold exec, processLogData_send, send. by rewrite Hh, Hm, Hc, Hl.
Qed.

Lemma exec_main_send_done s k :
  halted s = None → mainW s = MSending [] k →
  exec AMainSend s = Some ([], set_mainW s (MLoop k)).
Proof. intros Hh Hm. unfold exec, processLogData_send. by rewrite Hh, Hm. Qed.

Lemma elements_dom_range_order (m : gmap string (option LogPublisher)) :
  is_range_order m (elements (dom m)) = true.
Proof.
  apply is_range_order_spec. split; [apply NoDup_elements|].
  intros id. by rewrite elem_of_elements, elem_of_dom.
Qed.

Lemma exec_main_locked s x k :
  halted s = None → mainW s = MProcess x k →
  ∃ evs js,
    exec (AMainLocked (elements (dom (loggers (svc s))))) s =
    Some (evs, set_mainW s (MSending js k)).
Proof.
  intros Hh Hm. unfold exec, processLogData_locked.
  rewrite Hh, Hm, elements_dom_range_order.
  destruct (processLogData (svc s) (elements (dom (loggers (svc s)))) x) as [diags jobs].
  by eexists _, _.
Qed.

Lemma exec_main_recv_record s k x rest :
  halted s = None → mainW s = MLoop k → buf (inputCh (svc s)) = x :: rest →
  exec AMainRecv s =
  Some ([EvDequeued x],
        set_mainW
          (set_svc s (set_inputCh (svc s)
                        (mkChan rest (cap (inputCh (svc s))) (closed (inputCh (svc s))))))
          (MProcess x k)).
Proof.
  intros Hh Hm Hb. unfold exec, runMainWorker_recv, recv. by rewrite Hh, Hm, Hb.
Qed.

Lemma exec_main_recv_exit s k :
  halted s = None → mainW s = MLoop k →
  buf (inputCh (svc s)) = [] → closed (inputCh (svc s)) = true →
  closed (jobCh (svc s)) = false →
  ∃ ls, exec AMainRecv s = Some ([], set_mainW (set_svc s ls) MExited).
Proof.
  intros Hh Hm Hb Hc Hj. unfold exec, runMainWorker_recv, recv, runMainWorker_return, close.
  rewrite Hh, Hm, Hb, Hc, Hj. by eexists.
Qed.

(** A publish goroutine that has not run runs: its publisher returns or
    hangs. *)
Lemma exec_publish s (cid : nat) j :
  sane s → tame s → halted s = None → calls s !! cid = Some (mkCall j CSpawned) →
  ∃ evs st hp,
    st ≠ CSpawned ∧
    exec (APublish cid) s
    = Some (evs, set_calls (set_heap s hp) (<[cid := mkCall j st]> (calls s))).
Proof.
  intros (_ & (_ & _ & _ & _ & _ & _ & V7) & _) (_ & _ & _ & T4) Hh Hc.
  destruct (Forall_lookup_1 _ _ _ _ T4 Hc) as (lg & Hlg & Ht). simpl in Hlg.
  pose proof (Forall_lookup_1 _ _ _ _ V7 Hc) as Hv. simpl in Hv. unfold validJob in Hv.
  destruct (lookup_lt_is_Some_2 (heap s) (logData j) Hv) as [d Hd].
  unfold exec, publish. rewrite Hh, Hc. simpl. rewrite Hlg.
  unfold ptr in *. rewrite Hd.
  destruct (Ht d) as [Hr|Hr]; rewrite Hr; eexists _, _, _; (split; [|reflexivity]); done.
Qed.

(** The timer of [processJob] brings a waiting worker back to its loop,
    whatever its publisher does. *)
Lemma worker_times_out s w j cid dl :
  sane s → halted s = None → workers s !! w = Some (WSelect j cid dl) →
  ∃ t, winds shutdownMove s (set_workers (set_now s t) (<[w := WRange]> (workers s))).
Proof.
  intros (_ & (_ & _ & _ & _ & _ & V6 & _) & _) Hh Hw.
  pose proof (Forall_lookup_1 _ _ _ _ V6 Hw) as Hv. simpl in Hv. unfold validJob in Hv.
  destruct (lookup_lt_is_Some_2 (heap s) (logData j) Hv) as [d Hd].
  exists (now s + Z.max 1 (dl - now s)).
  exists [ATick (Z.max 1 (dl - now s)); AWorkerTimeout w]. eexists. split; [done|].
  unfold run, exec. rewrite Hh. rewrite decide_True by lia. simpl. rewrite Hh.
  unfold processJob_timeout. simpl. rewrite Hw. rewrite decide_True by lia.
  unfold ptr in *. rewrite Hd.
  reflexivity.
Qed.

Lemma sane_jobCh_open s : sane s → mainW s ≠ MExited → closed (jobCh (svc s)) = false.
Proof.
  intros ((_ & _ & L3 & _) & _) Hne.
  destruct (closed (jobCh (svc s))) eqn:Hc; [|done]. by destruct Hne; apply L3.
Qed.

Lemma activeWorkers_exited ws :
  (∀ w, (w < length ws)%nat → ws !! w = Some WExited) → activeWorkers ws = 0%nat.
Proof.
  unfold activeWorkers. induction ws as [|st ws IH]; intros Hall; [done|].
  rewrite filter_cons.
  pose proof (Hall 0%nat ltac:(simpl; lia)) as H0. simpl in H0. simplify_eq. simpl.
  apply IH. intros w Hw. apply (Hall (S w)). simpl. lia.
Qed.

(** The winding down, for any way [R] of bringing a worker back to the
    job channel and of having it take a job: the main worker drains the
    intake channel and returns, the workers drain the job channel and
    return, [Stop] passes both of its waits. *)
Section Winding.

Variable mv : Action → bool.
Variable R : State → Prop.

Hypothesis mv_core : ∀ a, coreMove a = true → mv a = true.
Hypothesis R_sane : ∀ s, R s → sane s.
Hypothesis R_halted : ∀ s, R s → halted s = None.
Hypothesis R_keep : ∀ s s',
  R s → winds mv s s' → calls s' = calls s → halted s' = None → R s'.
Hypothesis R_worker_ready : ∀ s w st,
  R s → workers s !! w = Some st → st ≠ WExited →
  ∃ s', winds mv s s' ∧ R s' ∧ svc s' = svc s ∧ mainW s' = mainW s ∧
        stopper s' = stopper s ∧ workers s' = <[w := WRange]> (workers s).
Hypothesis R_takes_job : ∀ s w j rest,
  R s → workers s !! w = Some WRange → buf (jobCh (svc s)) = j :: rest →
  ∃ s', winds mv s s' ∧ R s' ∧ mainW s' = mainW s ∧
        inputCh (svc s') = inputCh (svc s) ∧ stopper s' = stopper s ∧
        buf (jobCh (svc s')) = rest ∧
        (∃ cid dl, workers s' = <[w := WSelect j cid dl]> (workers s)).

Lemma core_step a s evs s' :
  R s → coreMove a = true → exec a s = Some (evs, s') →
  calls s' = calls s → halted s' = None → winds mv s s' ∧ R s'.
Proof.
  intros Hr Ha He Hc Hh.
  assert (W : winds mv s s') by (eapply winds_step; [by apply mv_core|exact He]).
  split; [exact W|]. by eapply R_keep.
Qed.

(** With the main worker still running, a worker can make room in the
    job channel. *)
Lemma free_slot s :
  R s → mainW s ≠ MExited → mainW s ≠ MNotStarted →
  ∃ s', winds mv s s' ∧ R s' ∧ mainW s' = mainW s ∧
        inputCh (svc s') = inputCh (svc s) ∧ stopper s' = stopper s ∧
        (length (buf (jobCh (svc s'))) < cap (jobCh (svc s')))%nat.
Proof.
  intros Hr Hne Hst. pose proof (R_sane _ Hr) as Hs.
  destruct (decide (length (buf (jobCh (svc s))) < cap (jobCh (svc s)))%nat) as [Hlt|Hge].
  { exists s. split_and!; try done. apply winds_refl. }
  pose proof Hs as ((L1 & L2 & L3 & L4 & L5 & L6 & L7 & L8) & _ & (B1 & B2 & B3 & B4) & _).
  assert (Hlen : length (workers s) = defaultNumWorkers) by auto.
  destruct (workers s !! 0%nat) as [st|] eqn:Hw;
    [|apply lookup_ge_None in Hw; unfold defaultNumWorkers in *; lia].
  assert (Hst0 : st ≠ WExited).
  { intros ->. destruct (L5 _ Hw) as [Hc _]. apply L3 in Hc. done. }
  destruct (R_worker_ready s 0%nat st Hr Hw Hst0)
    as (s1 & W1 & Hr1 & Hsvc1 & Hm1 & Hstop1 & Hws1).
  destruct (buf (jobCh (svc s))) as [|j rest] eqn:Hb.
  { simpl in Hge. rewrite B2 in Hge. unfold defaultJobBufferSize in Hge. lia. }
  assert (Hw1 : workers s1 !! 0%nat = Some WRange).
  { rewrite Hws1. apply list_lookup_insert_eq. unfold defaultNumWorkers in *. lia. }
  assert (Hb1 : buf (jobCh (svc s1)) = j :: rest) by (by rewrite Hsvc1).
  destruct (R_takes_job s1 0%nat j rest Hr1 Hw1 Hb1)
    as (s2 & W2 & Hr2 & Hm2 & Hi2 & Hstop2 & Hb2 & _).
  exists s2. split_and!.
  - by eapply winds_trans.
  - done.
  - by rewrite Hm2.
  - by rewrite Hi2, Hsvc1.
  - by rewrite Hstop2.
  - destruct (R_sane _ Hr2) as (_ & _ & (_ & B2' & _ & _) & _).
    rewrite Hb2, B2'. simpl in B4. lia.
Qed.

(** The last loop of [processLogData] comes to its end. *)
Lemma send_pending js : ∀ s k,
  R s → mainW s = MSending js k →
  ∃ s', winds mv s s' ∧ R s' ∧ mainW s' = MLoop k ∧
        inputCh (svc s') = inputCh (svc s) ∧ stopper s' = stopper s.
Proof.
  induction js as [|j js IH]; intros s k Hr Hm; pose proof (R_halted _ Hr) as Hh.
  - pose proof (exec_main_send_done s k Hh Hm) as He.
    destruct (core_step AMainSend _ _ _ Hr eq_refl He) as [W Hr']; [done|done|].
    eexists. split_and!; [exact W|exact Hr'|done..].
  - assert (Hne : mainW s ≠ MExited) by (by rewrite Hm).
    assert (Hst : mainW s ≠ MNotStarted) by (by rewrite Hm).
    destruct (free_slot s Hr Hne Hst) as (s1 & W1 & Hr1 & Hm1 & Hi1 & Hstop1 & Hroom).
    pose proof (R_sane _ Hr1) as Hs1. pose proof (R_halted _ Hr1) as Hh1.
    rewrite Hm in Hm1.
    assert (Hopen : closed (jobCh (svc s1)) = false).
    { apply sane_jobCh_open; [done|]. by rewrite Hm1. }
    pose proof (exec_main_send s1 j js k Hh1 Hm1 Hopen Hroom) as He.
    match type of He with _ = Some (_, ?st2) => pose (s2 := st2) end.
    destruct (core_step AMainSend s1 _ s2 Hr1 eq_refl He) as [W2 Hr2]; [done|done|].
    destruct (IH s2 k Hr2) as (s3 & W3 & Hr3 & Hm3 & Hi3 & Hstop3); [done|].
    exists s3. split; [|split_and!].
    + eapply winds_trans; [exact W1|]. eapply winds_trans; [exact W2|exact W3].
    + done.
    + done.
    + rewrite Hi3. unfold s2. simpl. done.
    + rewrite Hstop3. unfold s2. simpl. done.
Qed.

(** [processLogData] returns. *)
Lemma process_record s x k :
  R s → mainW s = MProcess x k →
  ∃ s', winds mv s s' ∧ R s' ∧ mainW s' = MLoop k ∧
        inputCh (svc s') = inputCh (svc s) ∧ stopper s' = stopper s.
Proof.
  intros Hr Hm. pose proof (R_halted _ Hr) as Hh.
  destruct (exec_main_locked s x k Hh Hm) as (evs & js & He).
  match type of He with _ = Some (_, ?st1) => pose (s1 := st1) end.
  destruct (core_step (AMainLocked _) s _ s1 Hr eq_refl He) as [W1 Hr1]; [done|done|].
  destruct (send_pending js s1 k Hr1) as (s2 & W2 & Hr2 & Hm2 & Hi2 & Hstop2); [done|].
  exists s2. split; [|split_and!].
  - eapply winds_trans; [exact W1|exact W2].
  - done.
  - done.
  - by rewrite Hi2.
  - by rewrite Hstop2.
Qed.

(** With the intake channel closed the main worker drains it and
    returns. *)
Lemma drain_intake n : ∀ s k,
  length (buf (inputCh (svc s))) = n →
  R s → closed (inputCh (svc s)) = true → mainW s = MLoop k →
  ∃ s', winds mv s s' ∧ R s' ∧ mainW s' = MExited ∧ stopper s' = stopper s.
Proof.
  induction n as [|n IH]; intros s k Hlen Hr Hc Hm;
    pose proof (R_sane _ Hr) as Hs; pose proof (R_halted _ Hr) as Hh.
  - apply nil_length_inv in Hlen.
    assert (Hopen : closed (jobCh (svc s)) = false).
    { apply sane_jobCh_open; [done|]. by rewrite Hm. }
    destruct (exec_main_recv_exit s k Hh Hm Hlen Hc Hopen) as [ls He].
    destruct (core_step AMainRecv _ _ _ Hr eq_refl He) as [W Hr']; [done|done|].
    eexists. split_and!; [exact W|exact Hr'|done..].
  - destruct (buf (inputCh (svc s))) as [|x rest] eqn:Hb; [done|].
    pose proof (exec_main_recv_record s k x rest Hh Hm Hb) as He.
    match type of He with _ = Some (_, ?st1) => pose (s1 := st1) end.
    destruct (core_step AMainRecv s _ s1 Hr eq_refl He) as [W1 Hr1]; [done|done|].
    destruct (process_record s1 x k Hr1) as (s2 & W2 & Hr2 & Hm2 & Hi2 & Hstop2); [done|].
    unfold s1 in Hi2, Hstop2. simpl in Hi2, Hstop2.
    destruct (IH s2 k) as (s3 & W3 & Hr3 & Hm3 & Hstop3); try done.
    + rewrite Hi2. simpl. simpl in Hlen. lia.
    + by rewrite Hi2.
    + exists s3. split; [|split_and!]; try done.
      * eapply winds_trans; [exact W1|]. eapply winds_trans; [exact W2|exact W3].
      * by rewrite Hstop3.
Qed.

Lemma main_exits s :
  R s → closed (inputCh (svc s)) = true → mainW s ≠ MNotStarted →
  ∃ s', winds mv s s' ∧ R s' ∧ mainW s' = MExited ∧ stopper s' = stopper s.
Proof.
  intros Hr Hc Hst.
  destruct (mainW s) as [|k|x k|js k|] eqn:Hm; [done| | | |].
  - by eapply drain_intake.
  - destruct (process_record s x k Hr Hm) as (s1 & W1 & Hr1 & Hm1 & Hi1 & Hstop1).
    destruct (drain_intake _ s1 k eq_refl Hr1) as (s2 & W2 & Hr2 & Hm2 & Hstop2);
      [by rewrite Hi1|done|].
    exists s2. split_and!; try done; [by eapply winds_trans|by rewrite Hstop2].
  - destruct (send_pending js s k Hr Hm) as (s1 & W1 & Hr1 & Hm1 & Hi1 & Hstop1).
    destruct (drain_intake _ s1 k eq_refl Hr1) as (s2 & W2 & Hr2 & Hm2 & Hstop2);
      [by rewrite Hi1|done|].
    exists s2. split_and!; try done; [by eapply winds_trans|by rewrite Hstop2].
  - exists s. split_and!; try done. apply winds_refl.
Qed.

(** With the main worker gone, a worker empties the job channel and
    returns. *)
Lemma retire_worker w n : ∀ s,
  length (buf (jobCh (svc s))) = n →
  R s → mainW s = MExited → (w < length (workers s))%nat →
  ∃ s', winds mv s s' ∧ R s' ∧ mainW s' = MExited ∧ stopper s' = stopper s ∧
        workers s' !! w = Some WExited ∧
        (∀ w', workers s !! w' = Some WExited → workers s' !! w' = Some WExited) ∧
        length (workers s') = length (workers s).
Proof.
  induction n as [|n IH]; intros s Hlen Hr Hm Hw.
  all: destruct (lookup_lt_is_Some_2 _ _ Hw) as [st Hst].
  all: assert (Hcase : st = WExited ∨ st ≠ WExited) by (destruct st; auto).
  all: destruct Hcase as [->|Hne];
    [exists s; split_and!; try done; apply winds_refl|].
  all: destruct (R_worker_ready s w st Hr Hst Hne)
         as (s1 & W1 & Hr1 & Hsvc1 & Hm1 & Hstop1 & Hws1).
  all: pose proof (R_sane _ Hr1) as Hs1; pose proof (R_halted _ Hr1) as Hh1.
  all: assert (Hw1 : workers s1 !! w = Some WRange)
         by (rewrite Hws1; by apply list_lookup_insert_eq).
  - apply nil_length_inv in Hlen.
    assert (Hc : closed (jobCh (svc s1)) = true).
    { destruct Hs1 as ((_ & _ & L3 & _) & _). apply L3. by rewrite Hm1. }
    assert (Hb1 : buf (jobCh (svc s1)) = []) by (by rewrite Hsvc1).
    pose proof (exec_worker_recv_exit s1 w Hh1 Hw1 Hb1 Hc) as He.
    match type of He with _ = Some (_, ?st2) => pose (s2 := st2) end.
    destruct (core_step (AWorkerRecv w) s1 _ s2 Hr1 eq_refl He) as [W2 Hr2]; [done|done|].
    exists s2. split; [|split_and!].
    + by eapply winds_trans.
    + done.
    + unfold s2. simpl. by rewrite Hm1.
    + unfold s2. simpl. by rewrite Hstop1.
    + unfold s2. simpl. apply list_lookup_insert_eq. by rewrite Hws1, length_insert.
    + intros w' Hw'. unfold s2. simpl. destruct (decide (w = w')) as [<-|Hd]; [congruence|].
      rewrite list_lookup_insert_ne by done. rewrite Hws1.
      by rewrite list_lookup_insert_ne.
    + unfold s2. simpl. by rewrite length_insert, Hws1, length_insert.
  - destruct (buf (jobCh (svc s))) as [|j rest] eqn:Hb; [done|].
    assert (Hb1 : buf (jobCh (svc s1)) = j :: rest) by (by rewrite Hsvc1).
    destruct (R_takes_job s1 w j rest Hr1 Hw1 Hb1)
      as (s2 & W2 & Hr2 & Hm2 & Hi2 & Hstop2 & Hb2 & cid & dl & Hws2).
    destruct (IH s2) as (s3 & W3 & Hr3 & Hm3 & Hstop3 & Hw3 & Hkeep3 & Hlen3).
    + rewrite Hb2. simpl in Hlen. lia.
    + exact Hr2.
    + by rewrite Hm2, Hm1.
    + by rewrite Hws2, length_insert, Hws1, length_insert.
    + exists s3. split; [|split_and!].
      * eapply winds_trans; [exact W1|]. eapply winds_trans; [exact W2|exact W3].
      * done.
      * done.
      * by rewrite Hstop3, Hstop2, Hstop1.
      * done.
      * intros w' Hw'. apply Hkeep3. rewrite Hws2.
        destruct (decide (w = w')) as [<-|Hd]; [congruence|].
        rewrite list_lookup_insert_ne by done. rewrite Hws1.
        by rewrite list_lookup_insert_ne.
      * by rewrite Hlen3, Hws2, length_insert, Hws1, length_insert.
Qed.

Lemma retire_workers k : ∀ s,
  (k ≤ length (workers s))%nat → R s → mainW s = MExited →
  ∃ s', winds mv s s' ∧ R s' ∧ mainW s' = MExited ∧ stopper s' = stopper s ∧
        (∀ w, (w < k)%nat → workers s' !! w = Some WExited) ∧
        length (workers s') = length (workers s).
Proof.
  induction k as [|k IH]; intros s Hk Hr Hm.
  - exists s. split_and!; try done; [apply winds_refl|lia].
  - destruct (IH s) as (s1 & W1 & Hr1 & Hm1 & Hstop1 & Hex1 & Hlen1); [lia|done..|].
    destruct (retire_worker k _ s1 eq_refl Hr1 Hm1)
      as (s2 & W2 & Hr2 & Hm2 & Hstop2 & Hk2 & Hkeep & Hlen2); [lia|].
    exists s2. split_and!; try done.
    + by eapply winds_trans.
    + by rewrite Hstop2.
    + intros w Hw. destruct (decide (w = k)) as [->|Hd]; [done|].
      apply Hkeep, Hex1. lia.
    + by rewrite Hlen2.
Qed.

(** Both waits of [Stop] are passed once the counters are at zero. *)
Lemma stop_finishes s :
  R s → stopper s ≠ SNotCalled → mainWg (svc s) = 0%nat → wg (svc s) = 0%nat →
  ∃ s', winds mv s s' ∧ R s' ∧ stopper s' = SReturned.
Proof.
  intros Hr Hst Hmw Hwg. pose proof (R_halted _ Hr) as Hh.
  destruct (stopper s) eqn:Hstop; [done| | |].
  - assert (W : winds mv s (set_stopper (set_stopper s SWaitWorkers) SReturned)).
    { exists [AStop; AStop], []. split.
      - simpl. by rewrite (mv_core AStop eq_refl).
      - unfold run, exec, Stop. rewrite Hh, Hstop. rewrite decide_True by done. simpl.
        rewrite Hh. rewrite decide_True by done. done. }
    eexists. split_and!; [exact W| |done]. by eapply R_keep.
  - assert (W : winds mv s (set_stopper s SReturned)).
    { exists [AStop], []. split.
      - simpl. by rewrite (mv_core AStop eq_refl).
      - unfold run, exec, Stop. rewrite Hh, Hstop. rewrite decide_True by done. done. }
    eexists. split_and!; [exact W| |done]. by eapply R_keep.
  - exists s. split_and!; try done. apply winds_refl.
Qed.

(** [Stop] is called, if it was not yet, and returns. *)
Lemma shutdown_completes s :
  R s → ∃ s', winds mv s s' ∧ R s' ∧ stopper s' = SReturned.
Proof.
  intros Hr.
  (* [Stop] is called, if it was not *)
  assert (∃ s1, winds mv s s1 ∧ R s1 ∧ stopper s1 ≠ SNotCalled)
    as (s1 & W1 & Hr1 & Hst1).
  { assert (Hcase : stopper s = SNotCalled ∨ stopper s ≠ SNotCalled)
      by (destruct (stopper s); auto).
    destruct Hcase as [Hn|Hn].
    - pose proof (R_sane _ Hr) as (_ & _ & _ & Hi & _).
      pose proof (R_halted _ Hr) as Hh.
      assert (Hopen : closed (inputCh (svc s)) = false).
      { destruct (closed (inputCh (svc s))) eqn:Hc; [|done]. by destruct (Hi Hc). }
      assert (He : exec AStop s
                   = Some ([], set_stopper (set_svc s
                                 (set_inputCh (svc s)
                                    (mkChan (buf (inputCh (svc s)))
                                            (cap (inputCh (svc s))) true)))
                               SWaitMain)).
      { unfold exec, Stop, close. rewrite Hh, Hn, Hopen. reflexivity. }
      destruct (core_step AStop _ _ _ Hr eq_refl He) as [W Hr']; [done|done|].
      eexists. split_and!; [exact W|exact Hr'|done].
    - exists s. split_and!; try done. apply winds_refl. }
  pose proof (R_sane _ Hr1) as Hs1.
  (* the goroutines of the service return *)
  assert (∃ s2, winds mv s1 s2 ∧ R s2 ∧ stopper s2 ≠ SNotCalled ∧
                mainWg (svc s2) = 0%nat ∧ wg (svc s2) = 0%nat)
    as (s2 & W2 & Hr2 & Hst2 & Hmw2 & Hwg2).
  { assert (Hcase : mainW s1 = MNotStarted ∨ mainW s1 ≠ MNotStarted)
      by (destruct (mainW s1); auto).
    destruct Hcase as [Hm|Hm].
    - exists s1. destruct Hs1 as ((L1 & L2 & _ & _ & _ & L6 & _) & _).
      split_and!; try done; [apply winds_refl| |].
      + by rewrite L1, Hm.
      + by rewrite L2, (L6 Hm).
    - pose proof Hs1 as (_ & _ & _ & _ & Hc & _). specialize (Hc Hst1).
      destruct (main_exits s1 Hr1 Hc Hm) as (sa & Wa & Hra & Hma & Hsta).
      destruct (retire_workers (length (workers sa)) sa (le_n _) Hra Hma)
        as (sb & Wb & Hrb & Hmb & Hstb & Hall & Hlen).
      pose proof (R_sane _ Hrb) as ((L1 & L2 & _) & _).
      exists sb. split_and!; try done.
      + by eapply winds_trans.
      + by rewrite Hstb, Hsta.
      + by rewrite L1, Hmb.
      + rewrite L2. apply activeWorkers_exited. intros w Hw. apply Hall. lia. }
  destruct (stop_finishes s2 Hr2 Hst2 Hmw2 Hwg2) as (s3 & W3 & Hr3 & Hret).
  exists s3. split_and!; try done.
  eapply winds_trans; [exact W1|]. by eapply winds_trans.
Qed.

End Winding.

(** *** Winding down without the publish goroutines *)

(** Nothing has panicked. *)
Definition alive (s : State) : Prop := sane s ∧ halted s = None.

Lemma alive_keep s s' :
  alive s → winds shutdownMove s s' → calls s' = calls s → halted s' = None → alive s'.
Proof. intros [Hs _] W _ Hh. split; [by eapply sane_winds|done]. Qed.

(** A worker that waits in [processJob] gets back to its loop through
    the timer. *)
Lemma alive_worker_ready s w st :
  alive s → workers s !! w = Some st → st ≠ WExited →
  ∃ s', winds shutdownMove s s' ∧ alive s' ∧ svc s' = svc s ∧ mainW s' = mainW s ∧
        stopper s' = stopper s ∧ workers s' = <[w := WRange]> (workers s).
Proof.
  intros [Hs Hh] Hw Hne. destruct st as [|j cid dl|]; [| |done].
  - exists s. split_and!; try done; [apply winds_refl|].
    symmetry. by apply list_insert_id.
  - destruct (worker_times_out s w j cid dl Hs Hh Hw) as [t W].
    eexists. split; [exact W|]. split; [|done]. split; [by eapply sane_winds|done].
Qed.

(** A worker at the job channel takes the next job. *)
Lemma alive_takes_job s w j rest :
  alive s → workers s !! w = Some WRange → buf (jobCh (svc s)) = j :: rest →
  ∃ s', winds shutdownMove s s' ∧ alive s' ∧ mainW s' = mainW s ∧
        inputCh (svc s') = inputCh (svc s) ∧ stopper s' = stopper s ∧
        buf (jobCh (svc s')) = rest ∧
        (∃ cid dl, workers s' = <[w := WSelect j cid dl]> (workers s)).
Proof.
  intros [Hs Hh] Hw Hb.
  pose proof (exec_worker_recv_job s w j rest Hh Hw Hb) as He.
  match type of He with _ = Some (_, ?st1) => pose (s1 := st1) end.
  assert (W : winds shutdownMove s s1) by (eapply winds_step; [|exact He]; done).
  exists s1. split; [exact W|]. split; [split; [by eapply sane_winds|done]|].
  split_and!; try done. by eexists _, _.
Qed.

(** *** Winding down with every publish goroutine run *)

(** Nothing has panicked, no publisher will, and every publish goroutine
    spawned has run. *)
Definition ready (s : State) : Prop :=
  sane s ∧ tame s ∧ allRun s ∧ halted s = None.

Lemma ready_keep s s' :
  ready s → winds serviceMove s s' → calls s' = calls s → halted s' = None → ready s'.
Proof.
  intros (Hs & Ht & Hr & _) W Hc Hh.
  split_and!; [by eapply sane_winds|by eapply tame_winds| |done].
  unfold allRun. by rewrite Hc.
Qed.

(** A worker that waits in [processJob] gets back to its loop: through
    [doneCh] when [SendMsg] has returned, through the timer when it
    hangs. *)
Lemma ready_worker_ready s w st :
  ready s → workers s !! w = Some st → st ≠ WExited →
  ∃ s', winds serviceMove s s' ∧ ready s' ∧ svc s' = svc s ∧ mainW s' = mainW s ∧
        stopper s' = stopper s ∧ workers s' = <[w := WRange]> (workers s).
Proof.
  intros Hr Hw Hne. pose proof Hr as (Hs & Ht & Hall & Hh).
  destruct st as [|j cid dl|]; [| |done].
  - exists s. split_and!; try done; [apply winds_refl|].
    symmetry. by apply list_insert_id.
  - pose proof Hs as (_ & _ & _ & _ & _ & (evs & _ & _ & D3)).
    destruct (D3 _ _ _ _ Hw) as [cst Hc].
    destruct cst.
    + unfold allRun in Hall. by destruct (Forall_lookup_1 _ _ _ _ Hall Hc).
    + assert (He : exec (AWorkerDone w) s
                   = Some ([EvJobDone w j cid], set_workers s (<[w := WRange]> (workers s)))).
      { unfold exec, processJob_done. by rewrite Hh, Hw, Hc. }
      assert (W : winds serviceMove s (set_workers s (<[w := WRange]> (workers s))))
        by (eapply winds_step; [|exact He]; done).
      eexists. split; [exact W|]. split; [|done]. by eapply ready_keep.
    + destruct (worker_times_out s w j cid dl Hs Hh Hw) as [t W].
      apply (winds_mono _ _ _ _ shutdownMove_serviceMove) in W.
      eexists. split; [exact W|]. split; [|done]. by eapply ready_keep.
Qed.

(** A worker at the job channel takes the next job; the goroutine it
    spawns runs [SendMsg]. *)
Lemma ready_takes_job s w j rest :
  ready s → workers s !! w = Some WRange → buf (jobCh (svc s)) = j :: rest →
  ∃ s', winds serviceMove s s' ∧ ready s' ∧ mainW s' = mainW s ∧
        inputCh (svc s') = inputCh (svc s) ∧ stopper s' = stopper s ∧
        buf (jobCh (svc s')) = rest ∧
        (∃ cid dl, workers s' = <[w := WSelect j cid dl]> (workers s)).
Proof.
  intros Hr Hw Hb. pose proof Hr as (Hs & Ht & Hall & Hh).
  pose proof (exec_worker_recv_job s w j rest Hh Hw Hb) as He1.
  match type of He1 with _ = Some (_, ?st1) => pose (s1 := st1) end.
  assert (W1 : winds serviceMove s s1) by (eapply winds_step; [|exact He1]; done).
  pose proof (sane_winds _ _ _ Hs W1) as Hs1.
  pose proof (tame_winds _ _ Ht W1) as Ht1.
  assert (Hc1 : calls s1 !! length (calls s) = Some (mkCall j CSpawned)).
  { unfold s1. simpl. rewrite lookup_app_r by lia. by rewrite Nat.sub_diag. }
  destruct (exec_publish s1 (length (calls s)) j Hs1 Ht1 Hh Hc1)
    as (evs & st & hp & Hst & He2).
  match type of He2 with _ = Some (_, ?st2) => pose (s2 := st2) end.
  assert (W2 : winds serviceMove s1 s2) by (eapply winds_step; [|exact He2]; done).
  assert (W : winds serviceMove s s2) by (by eapply winds_trans).
  exists s2. split; [exact W|]. split_and!; try done.
  - split_and!; [by eapply sane_winds|by eapply tame_winds| |done].
    unfold allRun, s2, s1. simpl.
    rewrite insert_app_r_alt by lia. rewrite Nat.sub_diag. simpl.
    apply Forall_app_2; [done|]. by repeat constructor.
  - by eexists _, _.
Qed.

(** The publish goroutines that were spawned and have not run yet run,
    one after the other. *)
Lemma run_spawned k : ∀ s,
  sane s → tame s → halted s = None → (k ≤ length (calls s))%nat →
  ∃ s', winds serviceMove s s' ∧ halted s' = None ∧
        length (calls s') = length (calls s) ∧
        (∀ i c, (i < k)%nat → calls s' !! i = Some c → cstate c ≠ CSpawned).
Proof.
  induction k as [|k IH]; intros s Hs Ht Hh Hk.
  - exists s. split_and!; try done; [apply winds_refl|]. intros i c Hi. lia.
  - destruct (IH s Hs Ht Hh) as (s1 & W1 & Hh1 & Hlen1 & Hrun1); [lia|].
    pose proof (sane_winds _ _ _ Hs W1) as Hs1.
    pose proof (tame_winds _ _ Ht W1) as Ht1.
    destruct (lookup_lt_is_Some_2 (calls s1) k) as [[j st] Hc]; [lia|].
    assert (Hcase : st = CSpawned ∨ st ≠ CSpawned) by (destruct st; auto).
    destruct Hcase as [->|Hne].
    + destruct (exec_publish s1 k j Hs1 Ht1 Hh1 Hc) as (evs & st & hp & Hst & He).
      match type of He with _ = Some (_, ?st2) => pose (s2 := st2) end.
      assert (W2 : winds serviceMove s1 s2) by (eapply winds_step; [|exact He]; done).
      exists s2. split_and!.
      * by eapply winds_trans.
      * done.
      * unfold s2. simpl. by rewrite length_insert.
      * intros i c Hi. unfold s2. simpl. destruct (decide (i = k)) as [->|Hd].
        -- rewrite list_lookup_insert_eq by lia. intros [= <-]. done.
        -- rewrite list_lookup_insert_ne by done. apply Hrun1. lia.
    + exists s1. split_and!; try done. intros i c Hi Hl.
      destruct (decide (i = k)) as [->|Hd].
      * rewrite Hc in Hl. by simplify_eq.
      * eapply Hrun1; [|exact Hl]. lia.
Qed.

(** The publishers a run registers return or hang. *)
Definition tameAction (a : Action) : Prop :=
  match a with
  | AAddLogger _ (Some lg) => returnsOrHangs lg
  | _ => True
  end.

Lemma tame_init stopCh : tame (init stopCh).
Proof. unfold tame. simpl. split_and!; by constructor. Qed.

Lemma tame_exec a s evs s' :
  tame s → tameAction a → exec a s = Some (evs, s') → tame s'.
Proof.
  intros Ht Ha He.
  assert (Hcase : (∃ id lg, a = AAddLogger id lg) ∨ (∀ id lg, a ≠ AAddLogger id lg)).
  { destruct a; try (right; intros ? ?; discriminate). left. by eexists _, _. }
  destruct Hcase as [(id & lg & ->)|Hne]; [|by eapply tame_step].
  unfold exec in He. destruct (halted s); [done|]. simplify_eq.
  destruct Ht as (T1 & T2 & T3 & T4). split_and!; try done. simpl.
  intros id0 lg0 Hl. apply lookup_insert_Some in Hl as [[_ Heq]|[_ Hl]].
  - subst lg. exact Ha.
  - by eapply T1.
Qed.

Lemma tame_run acts : ∀ s0 evs s,
  tame s0 → Forall tameAction acts → run acts s0 = Some (evs, s) → tame s.
Proof.
  induction acts as [|a acts IH]; intros s0 evs s Ht Ha Hrun.
  - simpl in Hrun. by simplify_eq.
  - apply Forall_cons in Ha as [Ha Hacts]. simpl in Hrun.
    destruct (exec a s0) as [[e1 s1]|] eqn:He; [|done].
    destruct (run acts s1) as [[e2 s2]|] eqn:Hr; [|done]. simplify_eq.
    eapply IH; [|exact Hacts|exact Hr]. by eapply tame_exec.
Qed.

(** X19. The shutdown of a service started at most once cannot get
    stuck.  From every state such a run reaches without a panic or an
    exit and in which no [sendData] goroutine is waiting to send (a send
    that is pending when [Stop] closes the intake channel panics), [Stop]
    can be called, if it was not yet, and return,

    - through moves of the caller of [Stop], of the main worker and of
      the workers and the passage of time alone: no publisher has to
      return (a worker leaves a publisher that hangs through the timer),
      no producer has to move, and a full job channel is emptied by the
      workers;

    - and, when every publisher the run registered returns or hangs on
      every record, also with every publish goroutine run: each one
      spawned before or during the shutdown calls its [SendMsg], and
      none is left that has not.

    Nothing panics on the way and no [sendData] goroutine appears. *)
Theorem stop_can_always_return stopCh acts evs s :
  run acts (init stopCh) = Some (evs, s) → (starts acts ≤ 1)%nat →
  halted s = None → senders s = [] →
  (∃ acts' evs' s',
     forallb shutdownMove acts' = true ∧
     run acts' s = Some (evs', s') ∧ stopper s' = SReturned ∧ halted s' = None ∧
     senders s' = []) ∧
  (Forall tameAction acts →
   ∃ acts' evs' s',
     forallb serviceMove acts' = true ∧
     run acts' s = Some (evs', s') ∧ stopper s' = SReturned ∧ halted s' = None ∧
     senders s' = [] ∧ Forall (λ c, cstate c ≠ CSpawned) (calls s')).
Proof.
  intros Hrun _ Hh Hsend.
  pose proof (sane_run _ _ _ _ (sane_init stopCh) Hrun) as Hs.
  split.
  - destruct (shutdown_completes shutdownMove alive coreMove_shutdownMove
                (λ s0 H, proj1 H) (λ s0 H, proj2 H)
                alive_keep alive_worker_ready alive_takes_job s (conj Hs Hh))
      as (s' & W & [_ Hh'] & Hret).
    pose proof (winds_senders _ _ (winds_mono _ _ _ _ shutdownMove_serviceMove W)) as Hsend'.
    rewrite Hsend in Hsend'.
    destruct W as (acts' & evs' & Hq & Hr).
    by exists acts', evs', s'.
  - intros Hacts.
    pose proof (tame_run _ _ _ _ (tame_init stopCh) Hacts Hrun) as Ht.
    destruct (run_spawned (length (calls s)) s Hs Ht Hh (le_n _))
      as (s0 & W0 & Hh0 & Hlen0 & Hrun0).
    assert (Hr0 : ready s0).
    { split_and!; [by eapply sane_winds|by eapply tame_winds| |done].
      apply Forall_lookup. intros i c Hc. eapply Hrun0; [|exact Hc].
      apply lookup_lt_Some in Hc. lia. }
    destruct (shutdown_completes serviceMove ready coreMove_serviceMove
                (λ s0 H, proj1 H) (λ s0 H, proj2 (proj2 (proj2 H)))
                ready_keep ready_worker_ready ready_takes_job s0 Hr0)
      as (s' & W & (_ & _ & Hall & Hh') & Hret).
    pose proof (winds_trans _ _ _ _ W0 W) as W'.
    pose proof (winds_senders _ _ W') as Hsend'. rewrite Hsend in Hsend'.
    destruct W' as (acts' & evs' & Hq & Hr).
    by exists acts', evs', s'.
Qed.

(** A publisher that hangs has been called, a second job has been taken
    and its goroutine has not run, and the intake holds a record when
    the shutdown begins. *)
Definition stuckActs : list Action :=
  [ AAddLogger "slow" (Some hangingPublisher); AStart;
    ASubmit (Some (Info None "first" [])); ASendData 0;
    ASubmit (Some (Info None "second" [])); ASendData 0;
    ASubmit (Some (Info None "third" [])); ASendData 0;
    AMainRecv; AMainLocked ["slow"]; AMainSend; AMainSend;
    AMainRecv; AMainLocked ["slow"]; AMainSend; AMainSend;
    AWorkerRecv 0; APublish 0; AWorkerRecv 1 ].

Definition stuckEnd : list Event * State :=
  default ([], init (make 0)) (run stuckActs (init (make 0))).

Lemma stop_can_always_return_witness :
  (∃ acts' evs' s',
     forallb shutdownMove acts' = true ∧
     run acts' stuckEnd.2 = Some (evs', s') ∧ stopper s' = SReturned ∧ halted s' = None ∧
     senders s' = []) ∧
  (∃ acts' evs' s',
     forallb serviceMove acts' = true ∧
     run acts' stuckEnd.2 = Some (evs', s') ∧ stopper s' = SReturned ∧ halted s' = None ∧
     senders s' = [] ∧ Forall (λ c, cstate c ≠ CSpawned) (calls s')).
Proof.
  destruct (stop_can_always_return (make 0) stuckActs stuckEnd.1 stuckEnd.2) as [H1 H2].
  - vm_compute. reflexivity.
  - vm_compute. lia.
  - vm_compute. reflexivity.
  - vm_compute. reflexivity.
  - split; [exact H1|]. apply H2.
    unfold stuckActs. apply Forall_cons. split; [intros d; right; reflexivity|].
    repeat constructor.
Defined.

(** ** No record reaches a publisher twice *)

(** The calls of [SendMsg]: the goroutine, the publisher's id and the
    record. *)
Definition publishes (evs : list Event) : list (nat * string * ptr) :=
  omap (λ e, match e with EvPublish cid id p _ _ => Some (cid, id, p) | _ => None end) evs.

Lemma publishes_app e1 e2 : publishes (e1 ++ e2) = publishes e1 ++ publishes e2.
Proof. apply omap_app. Qed.

Lemma publishes_prints ds : publishes (map EvPrint ds) = [].
Proof. by apply omap_prints. Qed.

Lemma publishes_cids evs : map (λ x, x.1.1) (publishes evs) = publishedCids evs.
Proof.
  induction evs as [|e evs IH]; [done|].
  destruct e; simpl; try done. by rewrite <- IH.
Qed.

(** The records that are not nil. *)
Definition ptrsOf (l : list (option ptr)) : list ptr := omap id l.

Lemma ptrsOf_app l1 l2 : ptrsOf (l1 ++ l2) = ptrsOf l1 ++ ptrsOf l2.
Proof. apply omap_app. Qed.

(** Every logging call allocates its record: the records handed to the
    service are distinct addresses of the heap. *)
Definition freshRecords (evs : list Event) (s : State) : Prop :=
  NoDup (ptrsOf (enqueued evs) ++ ptrsOf (senders s)) ∧
  Forall (λ p, (p < length (heap s))%nat) (ptrsOf (enqueued evs) ++ ptrsOf (senders s)).

Lemma ptrsOf_delete l i x :
  l !! i = Some x → ptrsOf l ≡ₚ ptrsOf [x] ++ ptrsOf (delete i l).
Proof.
  intros Hl. rewrite <- ptrsOf_app. unfold ptrsOf.
  apply omap_Permutation. rewrite (delete_Permutation l i x) at 1 by done. done.
Qed.

Lemma freshRecords_step evs s a evs' s' :
  freshRecords evs s → exec a s = Some (evs', s') → freshRecords (evs ++ evs') s'.
Proof.
  intros Hf He. revert Hf. unfold freshRecords.
  exec_inv He; intros (N1 & N2); simpl in *;
    rewrite ?enqueued_app, ?enqueued_prints; simpl; rewrite ?app_nil_r, ?length_insert;
    try (split; assumption).
  - rewrite ptrsOf_app, app_assoc, length_app. simpl. split.
    + apply NoDup_app. split_and!; [done| |apply NoDup_singleton].
      intros x Hx Hin. apply list_elem_of_singleton in Hin as ->.
      rewrite Forall_forall in N2. specialize (N2 _ Hx). lia.
    + apply Forall_app. split; [|repeat constructor; lia].
      eapply Forall_impl; [exact N2|]. simpl. intros; lia.
  - rewrite ptrsOf_app. simpl. by rewrite app_nil_r.
  - match goal with Hl : senders s !! _ = Some _ |- _ =>
      pose proof (ptrsOf_delete _ _ _ Hl) as Hp end.
    rewrite ptrsOf_app, <- app_assoc, <- Hp. done.
Qed.

Lemma run_freshRecords acts stopCh evs s :
  run acts (init stopCh) = Some (evs, s) → freshRecords evs s.
Proof.
  intros Hrun.
  apply (run_preserves freshRecords freshRecords_step acts [] (init stopCh) evs s);
    [|done].
  unfold freshRecords. simpl. split; constructor.
Qed.

(** What the locked part of [processLogData] builds for one record:
    jobs for that record, with no publisher id twice. *)
Definition key (j : sendJob) : string * ptr := (loggerID j, logData j).

Definition fanoutSound (f : option ptr * list sendJob) : Prop :=
  match f.1 with
  | Some p => Forall (λ j, logData j = p) f.2
  | None => f.2 = []
  end ∧ NoDup (map loggerID f.2).

Lemma omap_jobFor_ids m p order :
  NoDup order → NoDup (map loggerID (omap (jobFor m p) order)).
Proof.
  induction order as [|id order IH]; intros Hnd; [constructor|].
  apply NoDup_cons in Hnd as [Hni Hnd].
  cbn [omap list_omap]. destruct (jobFor m p id) as [j|] eqn:Hj; [|by apply IH].
  cbn [map]. apply NoDup_cons. split; [|by apply IH].
  rewrite (jobFor_id _ _ _ _ Hj). intros Hin.
  apply list_elem_of_In, in_map_iff in Hin as (j' & Hid & Hin').
  apply list_elem_of_In, list_elem_of_omap in Hin' as (id' & Hin' & Hj').
  apply jobFor_id in Hj'. congruence.
Qed.

Lemma processLogData_sound ls order x :
  is_range_order (loggers ls) order = true →
  fanoutSound (x, (processLogData ls order x).2).
Proof.
  intros Hro. apply is_range_order_spec in Hro as [Hnd _].
  unfold fanoutSound, processLogData. destruct x as [p|]; simpl; [|split; [done|constructor]].
  case_decide; simpl; [split; constructor|].
  split; [apply fanout_logData|]. rewrite fanout_jobs. by apply omap_jobFor_ids.
Qed.

Definition fanoutsSound (evs : list Event) (s : State) : Prop :=
  Forall fanoutSound (fanned evs).

Lemma fanoutsSound_step evs s a evs' s' :
  fanoutsSound evs s → exec a s = Some (evs', s') → fanoutsSound (evs ++ evs') s'.
Proof.
  intros Hf He. revert Hf. unfold fanoutsSound.
  exec_inv He; intros Hf; rewrite ?fanned_app, ?fanned_prints; simpl;
    rewrite ?app_nil_r; try assumption.
  apply Forall_app. split; [done|]. constructor; [|constructor].
  match goal with
  | Hp : processLogData ?ls ?order ?x = (_, ?js), Hr : is_range_order _ _ = true |- _ =>
      pose proof (processLogData_sound ls order x Hr) as Hsound; rewrite Hp in Hsound
  end.
  exact Hsound.
Qed.

Lemma run_fanoutsSound acts stopCh evs s :
  run acts (init stopCh) = Some (evs, s) → fanoutsSound evs s.
Proof.
  intros Hrun.
  apply (run_preserves fanoutsSound fanoutsSound_step acts [] (init stopCh) evs s);
    [|done].
  constructor.
Qed.

Lemma built_keys_NoDup (fs : list (option ptr * list sendJob)) :
  Forall fanoutSound fs → NoDup (ptrsOf (map fst fs)) →
  NoDup (map key (concat (map snd fs))).
Proof.
  induction fs as [|[x jobs] fs IH]; intros Hs Hnd; [constructor|].
  apply Forall_cons in Hs as [[Hx Hids] Hs]. simpl in Hx, Hids.
  cbn [map concat fst snd]. rewrite map_app. apply NoDup_app. split_and!.
  - apply (NoDup_fmap_1 fst). rewrite <- list_fmap_compose. exact Hids.
  - intros k Hk Hk'.
    apply list_elem_of_In, in_map_iff in Hk as (j & <- & Hj). apply list_elem_of_In in Hj.
    apply list_elem_of_In, in_map_iff in Hk' as (j' & Hkey & Hj').
    apply in_concat in Hj' as (jobs' & Hin & Hj').
    apply in_map_iff in Hin as ([x' jobs''] & Heq & Hin). simpl in Heq. subst jobs''.
    apply list_elem_of_In in Hin, Hj'.
    rewrite Forall_forall in Hs. destruct (Hs _ Hin) as [Hx' _]. simpl in Hx'.
    destruct x as [p|]; [|subst jobs; by apply elem_of_nil in Hj].
    destruct x' as [p'|]; [|subst jobs'; by apply elem_of_nil in Hj'].
    rewrite Forall_forall in Hx, Hx'.
    assert (p' = p).
    { rewrite <- (Hx _ Hj), <- (Hx' _ Hj'). unfold key in Hkey. congruence. }
    subst p'. cbn [map fst ptrsOf omap list_omap id] in Hnd.
    apply NoDup_cons in Hnd as [Hni _]. apply Hni.
    apply list_elem_of_omap. exists (Some p). split; [|done].
    apply list_elem_of_In, in_map_iff. exists (Some p, jobs'). split; [done|].
    by apply list_elem_of_In.
  - apply IH; [done|]. destruct x; [|done].
    cbn [map fst ptrsOf omap list_omap id] in Hnd. by apply NoDup_cons in Hnd as [_ ?].
Qed.

(** The jobs taken by the workers are for distinct pairs of a publisher
    id and a record. *)
Lemma calls_keys_NoDup acts stopCh evs s :
  run acts (init stopCh) = Some (evs, s) → NoDup (map key (map cjob (calls s))).
Proof.
  intros Hrun.
  destruct (run_flow _ _ _ _ Hrun) as (F1 & F2 & F3 & F4 & F5 & _).
  destruct (run_freshRecords _ _ _ _ Hrun) as [N1 _].
  pose proof (run_fanoutsSound _ _ _ _ Hrun) as Hs.
  rewrite F1, F2, !ptrsOf_app in N1.
  apply NoDup_app in N1 as [N1 _]. apply NoDup_app in N1 as [N1 _].
  apply NoDup_app in N1 as [N1 _].
  pose proof (built_keys_NoDup _ Hs N1) as Hb.
  rewrite F3, F4, F5, !map_app in Hb.
  apply NoDup_app in Hb as [Hb _]. by apply NoDup_app in Hb as [Hb _].
Qed.

(** Every call of [SendMsg] was made for the job of its goroutine. *)
Definition publishesMatch (evs : list Event) (s : State) : Prop :=
  ∀ cid id p, (cid, id, p) ∈ publishes evs →
              ∃ c, calls s !! cid = Some c ∧ key (cjob c) = (id, p).

Lemma publishesMatch_keep evs (cs : list Call) (cid : nat) j st :
  (∀ cid id p, (cid, id, p) ∈ publishes evs →
               ∃ c, cs !! cid = Some c ∧ key (cjob c) = (id, p)) →
  cs !! cid = Some (mkCall j st) →
  ∀ cid' id' p',
    (cid', id', p') ∈ publishes evs ++ [(cid, loggerID j, logData j)] →
    ∃ c, cs !! cid' = Some c ∧ key (cjob c) = (id', p').
Proof.
  intros Hm Hc cid' id' p' Hin. apply elem_of_app in Hin as [Hin|Hin]; [by apply Hm|].
  apply list_elem_of_singleton in Hin. simplify_eq. by eexists.
Qed.

Lemma publishesMatch_insert evs (cs : list Call) (cid : nat) j st st' :
  (∀ cid id p, (cid, id, p) ∈ publishes evs →
               ∃ c, cs !! cid = Some c ∧ key (cjob c) = (id, p)) →
  cs !! cid = Some (mkCall j st) →
  ∀ cid' id' p',
    (cid', id', p') ∈ publishes evs ++ [(cid, loggerID j, logData j)] →
    ∃ c, <[cid := mkCall j st']> cs !! cid' = Some c ∧ key (cjob c) = (id', p').
Proof.
  intros Hm Hc cid' id' p' Hin.
  destruct (publishesMatch_keep evs cs cid j st Hm Hc cid' id' p' Hin) as (c & Hc' & Hk).
  destruct (decide (cid = cid')) as [<-|Hne].
  - rewrite list_lookup_insert_eq by (by eapply lookup_lt_Some).
    eexists. split; [done|]. simpl. rewrite Hc in Hc'. by simplify_eq.
  - rewrite list_lookup_insert_ne by done. by exists c.
Qed.

Lemma publishesMatch_step evs s a evs' s' :
  publishesMatch evs s → exec a s = Some (evs', s') → publishesMatch (evs ++ evs') s'.
Proof.
  intros Hm He. revert Hm. unfold publishesMatch.
  exec_inv He; intros Hm cid' id' p'; rewrite ?publishes_app, ?publishes_prints; simpl;
    rewrite ?app_nil_r; try (by apply Hm).
  - intros Hin. destruct (Hm _ _ _ Hin) as (c & Hc & Hk).
    exists c. split; [by apply lookup_app_l_Some|done].
  - eapply publishesMatch_insert; [exact Hm|eassumption].
  - eapply publishesMatch_keep; [exact Hm|eassumption].
  - eapply publishesMatch_keep; [exact Hm|eassumption].
  - eapply publishesMatch_insert; [exact Hm|eassumption].
Qed.

Lemma run_publishesMatch acts stopCh evs s :
  run acts (init stopCh) = Some (evs, s) → publishesMatch evs s.
Proof.
  intros Hrun.
  apply (run_preserves publishesMatch publishesMatch_step acts [] (init stopCh) evs s);
    [|done].
  intros cid id p Hin. by apply elem_of_nil in Hin.
Qed.

(** The publisher id and the record of each call of [SendMsg]. *)
Definition deliveries (evs : list Event) : list (string * ptr) :=
  map (λ x, (x.1.2, x.2)) (publishes evs).

(** The jobs [processLogData] has built. *)
Definition builtJobs (evs : list Event) : list sendJob := concat (map snd (fanned evs)).

(** X20. No record reaches a publisher twice.  In every run the calls
    of [SendMsg] are for distinct pairs of a publisher id and a record: a
    record logged through the front-end, which allocates it, is given to
    the publisher registered under an id at most once, however the
    goroutines interleave and whatever times out.  And every call is for a
    job [processLogData] built: nothing is delivered to a publisher that
    was not in the registry when the record was fanned out. *)
Theorem no_record_reaches_a_publisher_twice stopCh acts evs s :
  run acts (init stopCh) = Some (evs, s) →
  NoDup (deliveries evs) ∧
  ∀ id p, (id, p) ∈ deliveries evs → ∃ j, j ∈ builtJobs evs ∧ key j = (id, p).
Proof.
  intros Hrun.
  pose proof (calls_keys_NoDup _ _ _ _ Hrun) as Hkeys.
  pose proof (run_publishesMatch _ _ _ _ Hrun) as Hmatch.
  destruct (run_callsRunOnce _ _ _ _ Hrun) as [Hcids _].
  rewrite <- publishes_cids in Hcids.
  split.
  - apply (NoDup_fmap_2_strong (λ x : nat * string * ptr, (x.1.2, x.2)));
      [|by apply (NoDup_fmap_1 (λ x : nat * string * ptr, x.1.1))].
    intros [[cid1 id1] p1] [[cid2 id2] p2] H1 H2 Heq. simpl in Heq. simplify_eq.
    destruct (Hmatch _ _ _ H1) as (c1 & Hc1 & Hk1).
    destruct (Hmatch _ _ _ H2) as (c2 & Hc2 & Hk2).
    assert (cid1 = cid2); [|by subst].
    apply (NoDup_lookup _ cid1 cid2 (id2, p2) Hkeys).
    + rewrite <- !list_fmap_compose, list_lookup_fmap, Hc1. simpl. by rewrite <- Hk1.
    + rewrite <- !list_fmap_compose, list_lookup_fmap, Hc2. simpl. by rewrite <- Hk2.
  - intros id p Hin.
    apply list_elem_of_In, in_map_iff in Hin as ([[cid id'] p'] & Heq & Hin).
    simpl in Heq. simplify_eq. apply list_elem_of_In in Hin.
    destruct (Hmatch _ _ _ Hin) as (c & Hc & Hk).
    exists (cjob c). split; [|done].
    destruct (run_flow _ _ _ _ Hrun) as (_ & _ & F3 & F4 & F5 & _).
    unfold builtJobs. rewrite F3, F4, F5. apply elem_of_app. left. apply elem_of_app. left.
    apply list_elem_of_In, in_map_iff. exists c. split; [done|].
    apply list_elem_of_In. by eapply list_elem_of_lookup_2.
Qed.

Lemma no_record_reaches_a_publisher_twice_witness :
  NoDup (deliveries overtakingEnd.1).
Proof.
  apply (no_record_reaches_a_publisher_twice (make 0)
           (scenarioSetup mockPublisher ++ overtakingActs) overtakingEnd.1 overtakingEnd.2).
  vm_compute. reflexivity.
Defined.

(** ** A shutdown without timeouts *)

Lemma map_lookup_seq {B} (l : list B) (d : B) :
  map (λ i, default d (l !! i)) (seq 0 (length l)) = l.
Proof.
  induction l as [|x l IH] using rev_ind; [done|].
  rewrite length_app. simpl. rewrite Nat.add_1_r, seq_S, map_app. simpl.
  rewrite lookup_app_r by lia. rewrite Nat.sub_diag. simpl. f_equal.
  rewrite <- IH at 2. apply map_ext_in. intros i Hi. apply in_seq in Hi.
  by rewrite lookup_app_l by lia.
Qed.

(** X21. A shutdown with no timeout delivers everything exactly once.
    When [Stop], called on a started service, has returned and no worker
    has left a job through the timer, the calls of [SendMsg] made are, up
    to their order, exactly the jobs [processLogData] built: every record
    the intake accepted has been given once to every publisher that was in
    the registry when the record was fanned out. *)
Theorem stop_without_timeout_delivers_every_job_once
    (stopCh : chan unit) (acts1 acts2 : list Action)
    (e1 e2 : list Event) (s1 s2 : State) :
  run acts1 (init stopCh) = Some (e1, s1) →
  mainW s1 ≠ MNotStarted →
  stopper s1 = SNotCalled →
  run acts2 s1 = Some (e2, s2) →
  stopper s2 = SReturned →
  timedOutCids (e1 ++ e2) = [] →
  deliveries (e1 ++ e2) ≡ₚ map key (builtJobs (e1 ++ e2)) ∧
  map fst (fanned (e1 ++ e2)) = enqueued (e1 ++ e2).
Proof.
  intros Hrun1 Hstarted Hnot Hrun2 Hret Hnto.
  assert (Hrun : run (acts1 ++ acts2) (init stopCh) = Some (e1 ++ e2, s2)).
  { rewrite run_app, Hrun1, Hrun2. done. }
  assert (Hj1 : joined s1).
  { unfold joined. rewrite Hnot. split_and!; [done|intros [?|?]; done|done]. }
  pose proof (run_joined _ _ _ _ Hj1 Hrun2) as Hj2.
  destruct (drained_when_stopped _ _ _ _ Hrun Hj2 Hret) as (D1 & D2 & D3 & D4).
  split; [|done].
  set (evs := e1 ++ e2) in *.
  pose proof (run_publishesMatch _ _ _ _ Hrun) as Hmatch.
  assert (Hdone : doneAfterPublish evs s2).
  { apply (run_preserves doneAfterPublish doneAfterPublish_step
             (acts1 ++ acts2) [] (init stopCh) evs s2); [|done].
    split; [|intros cid Hin; by apply elem_of_nil in Hin].
    unfold callsRunOnce. simpl. split_and!.
    - constructor.
    - intros _ cid Hin. by apply elem_of_nil in Hin.
    - intros cid j st Hl. done. }
  destruct Hdone as [(Hnd & _ & _) Hsub].
  rewrite leftJobs_no_timeout in D4 by done.
  (* the goroutines that ran are all the goroutines *)
  assert (Hcids : publishedCids evs ≡ₚ seq 0 (length (calls s2))).
  { apply NoDup_Permutation; [done|apply NoDup_seq|]. intros cid. split.
    - intros Hin. rewrite <- publishes_cids in Hin.
      apply list_elem_of_In, in_map_iff in Hin as ([[cid' id] p] & Heq & Hin).
      simpl in Heq. subst cid'. apply list_elem_of_In in Hin.
      destruct (Hmatch _ _ _ Hin) as (c & Hc & _).
      apply list_elem_of_In, in_seq. apply lookup_lt_Some in Hc. lia.
    - intros Hin. apply Hsub. by rewrite D4. }
  unfold deliveries, builtJobs. rewrite <- D2, <- D3.
  set (f := λ cid : nat, default ("", 0%nat) (map key (map cjob (calls s2)) !! cid)).
  assert (Hf : map (λ x : nat * string * ptr, (x.1.2, x.2)) (publishes evs)
               = map f (map (λ x : nat * string * ptr, x.1.1) (publishes evs))).
  { rewrite map_map. apply map_ext_in. intros [[cid id] p] Hin. simpl.
    apply list_elem_of_In in Hin. destruct (Hmatch _ _ _ Hin) as (c & Hc & Hk).
    unfold f. change (map ?g ?l) with (g <$> l).
    rewrite <- list_fmap_compose, list_lookup_fmap, Hc. simpl. by rewrite <- Hk. }
  rewrite Hf, publishes_cids, Hcids. unfold f.
  assert (Hlen : length (calls s2) = length (map key (map cjob (calls s2))))
    by (by rewrite !length_map).
  rewrite Hlen. by rewrite map_lookup_seq.
Qed.

(** One record for two publishers, and a shutdown in which both
    publishers return in time. *)
Definition gracefulPrefix : list Action :=
  [ AAddLogger "a" (Some mockPublisher); AAddLogger "b" (Some mockPublisher); AStart;
    ASubmit (Some (Info None "once" [])); ASendData 0;
    AMainRecv; AMainLocked ["b"; "a"]; AMainSend; AMainSend; AMainSend ].

Definition gracefulSuffix : list Action :=
  [ AStop; AMainRecv;
    AWorkerRecv 0; AWorkerRecv 1; APublish 1; APublish 0; AWorkerDone 1; AWorkerDone 0;
    AWorkerRecv 0; AWorkerRecv 1; AWorkerRecv 2; AWorkerRecv 3;
    AStop; AStop ].

Definition gracefulMid : list Event * State :=
  default ([], init (make 0)) (run gracefulPrefix (init (make 0))).

Definition gracefulEnd : list Event * State :=
  default ([], init (make 0)) (run gracefulSuffix gracefulMid.2).

Lemma stop_without_timeout_delivers_every_job_once_witness :
  deliveries (gracefulMid.1 ++ gracefulEnd.1) ≡ₚ [("b", 0%nat); ("a", 0%nat)].
Proof.
  destruct (stop_without_timeout_delivers_every_job_once (make 0)
              gracefulPrefix gracefulSuffix gracefulMid.1 gracefulEnd.1
              gracefulMid.2 gracefulEnd.2) as [Hp _].
  - vm_compute. reflexivity.
  - vm_compute. discriminate.
  - vm_compute. reflexivity.
  - vm_compute. reflexivity.
  - vm_compute. reflexivity.
  - vm_compute. reflexivity.
  - rewrite Hp. vm_compute. reflexivity.
Defined.


(** ** Publishers that never return *)

(** A started service whose only publisher hangs. *)
Definition leakAt (stopCh : chan unit) (hp : list LogData) (snd : list (option ptr))
    (inb : list (option ptr)) (m : MainPC) (jb : list sendJob) (ws : list WorkerPC)
    (cs : list Call) (t : Z) : State :=
  {| heap := hp;
     svc := {| inputCh := mkChan inb defaultInputBufferSize false;
               jobCh := mkChan jb defaultJobBufferSize false;
               stopCh := stopCh; numWorkers := defaultNumWorkers;
               loggers := <["slow" := Some hangingPublisher]> ∅;
               wg := defaultNumWorkers; mainWg := 1 |};
     mainW := m; workers := ws; senders := snd; calls := cs;
     stopper := SNotCalled; now := t; halted := None |}.

(** The same at rest: the queues are empty, the workers wait for jobs. *)
Definition leakState (stopCh : chan unit) (hp : list LogData) (cs : list Call) (t : Z)
  : State :=
  leakAt stopCh hp [] [] (MLoop InSelect) [] (replicate defaultNumWorkers WRange) cs t.

Definition slowJob (p : ptr) : sendJob :=
  {| loggerID := "slow"; logger := Some hangingPublisher; logData := p |}.

(** One record is logged, fanned out and given to the publisher; the
    worker waits for [sendTimeout] and leaves through the timer. *)
Definition leakRound (d : LogData) (cid : nat) : list Action :=
  [ ASubmit (Some d); ASendData 0; AMainRecv; AMainLocked ["slow"]; AMainSend; AMainSend;
    AWorkerRecv 0; APublish cid; ATick sendTimeout; AWorkerTimeout 0 ].

Lemma leak_start stopCh :
  run [AAddLogger "slow" (Some hangingPublisher); AStart] (init stopCh)
  = Some ([], leakState stopCh [] [] 0).
Proof. reflexivity. Qed.

Lemma run_cons a acts s evs s' :
  exec a s = Some (evs, s') →
  run (a :: acts) s =
  match run acts s' with Some (e, s'') => Some (evs ++ e, s'') | None => None end.
Proof. intros He. simpl. by rewrite He. Qed.

Lemma leak_round stopCh hp cs t d :
  ∃ evs,
    run (leakRound d (length cs)) (leakState stopCh hp cs t)
    = Some (evs, leakState stopCh (hp ++ [d]) (cs ++ [mkCall (slowJob (length hp)) CHung])
                   (t + sendTimeout)) ∧
    timedOutCids evs = [length cs].
Proof.
  set (p := length hp). set (ws := replicate defaultNumWorkers WRange).
  assert (E1 : exec (ASubmit (Some d)) (leakState stopCh hp cs t)
               = Some ([], leakAt stopCh (hp ++ [d]) [Some p] [] (MLoop InSelect) [] ws cs t))
    by reflexivity.
  assert (E2 : exec (ASendData 0)
                 (leakAt stopCh (hp ++ [d]) [Some p] [] (MLoop InSelect) [] ws cs t)
               = Some ([EvEnqueued (Some p)],
                       leakAt stopCh (hp ++ [d]) [] [Some p] (MLoop InSelect) [] ws cs t))
    by reflexivity.
  assert (E3 : exec AMainRecv
                 (leakAt stopCh (hp ++ [d]) [] [Some p] (MLoop InSelect) [] ws cs t)
               = Some ([EvDequeued (Some p)],
                       leakAt stopCh (hp ++ [d]) [] [] (MProcess (Some p) InSelect) [] ws cs t))
    by reflexivity.
  assert (E4 : exec (AMainLocked ["slow"])
                 (leakAt stopCh (hp ++ [d]) [] [] (MProcess (Some p) InSelect) [] ws cs t)
               = Some ([EvFanout (Some p) [slowJob p]],
                       leakAt stopCh (hp ++ [d]) [] [] (MSending [slowJob p] InSelect) [] ws
                         cs t))
    by (vm_compute; reflexivity).
  assert (E5 : exec AMainSend
                 (leakAt stopCh (hp ++ [d]) [] [] (MSending [slowJob p] InSelect) [] ws cs t)
               = Some ([EvJobQueued (slowJob p)],
                       leakAt stopCh (hp ++ [d]) [] [] (MSending [] InSelect) [slowJob p] ws
                         cs t))
    by reflexivity.
  assert (E6 : exec AMainSend
                 (leakAt stopCh (hp ++ [d]) [] [] (MSending [] InSelect) [slowJob p] ws cs t)
               = Some ([], leakAt stopCh (hp ++ [d]) [] [] (MLoop InSelect) [slowJob p] ws
                             cs t))
    by reflexivity.
  assert (E7 : exec (AWorkerRecv 0)
                 (leakAt stopCh (hp ++ [d]) [] [] (MLoop InSelect) [slowJob p] ws cs t)
               = Some ([EvJobTaken 0 (slowJob p) (length cs)],
                       leakAt stopCh (hp ++ [d]) [] [] (MLoop InSelect) []
                         (<[0%nat := WSelect (slowJob p) (length cs) (t + sendTimeout)]> ws)
                         (cs ++ [mkCall (slowJob p) CSpawned]) t))
    by reflexivity.
  assert (Hcall : (cs ++ [mkCall (slowJob p) CSpawned]) !! length cs
                  = Some (mkCall (slowJob p) CSpawned)).
  { rewrite lookup_app_r by lia. by rewrite Nat.sub_diag. }
  assert (Hrec : (hp ++ [d]) !! p = Some d).
  { unfold p. rewrite lookup_app_r by lia. by rewrite Nat.sub_diag. }
  assert (E8 : exec (APublish (length cs))
                 (leakAt stopCh (hp ++ [d]) [] [] (MLoop InSelect) []
                    (<[0%nat := WSelect (slowJob p) (length cs) (t + sendTimeout)]> ws)
                    (cs ++ [mkCall (slowJob p) CSpawned]) t)
               = Some ([EvPublish (length cs) "slow" p d Hangs],
                       leakAt stopCh (hp ++ [d]) [] [] (MLoop InSelect) []
                         (<[0%nat := WSelect (slowJob p) (length cs) (t + sendTimeout)]> ws)
                         (cs ++ [mkCall (slowJob p) CHung]) t)).
  { unfold exec, publish, leakAt. cbv beta iota delta [halted calls]. rewrite Hcall.
    cbv beta iota delta [logger slowJob heap logData]. unfold ptr in *. rewrite Hrec.
    cbv beta iota delta [SendMsg hangingPublisher pr_end pr_record set_heap set_calls
                         heap calls svc mainW workers senders stopper now halted loggerID].
    rewrite (list_insert_id _ _ _ Hrec).
    rewrite insert_app_r_alt by lia. rewrite Nat.sub_diag. reflexivity. }
  assert (E9 : exec (ATick sendTimeout)
                 (leakAt stopCh (hp ++ [d]) [] [] (MLoop InSelect) []
                    (<[0%nat := WSelect (slowJob p) (length cs) (t + sendTimeout)]> ws)
                    (cs ++ [mkCall (slowJob p) CHung]) t)
               = Some ([], leakAt stopCh (hp ++ [d]) [] [] (MLoop InSelect) []
                             (<[0%nat := WSelect (slowJob p) (length cs) (t + sendTimeout)]> ws)
                             (cs ++ [mkCall (slowJob p) CHung]) (t + sendTimeout)))
    by reflexivity.
  assert (E10 : exec (AWorkerTimeout 0)
                  (leakAt stopCh (hp ++ [d]) [] [] (MLoop InSelect) []
                     (<[0%nat := WSelect (slowJob p) (length cs) (t + sendTimeout)]> ws)
                     (cs ++ [mkCall (slowJob p) CHung]) (t + sendTimeout))
                = Some ([EvPrint (DiagSendTimeout "slow" sendTimeout (Msg d));
                         EvJobTimedOut 0 (slowJob p) (length cs)],
                        leakAt stopCh (hp ++ [d]) [] [] (MLoop InSelect) [] ws
                          (cs ++ [mkCall (slowJob p) CHung]) (t + sendTimeout))).
  { unfold exec, processJob_timeout, leakAt. cbv beta iota delta [halted workers].
    change (<[0%nat := ?x]> ws !! 0%nat) with (Some x).
    cbv beta iota delta [now]. rewrite decide_True by lia.
    cbv beta iota delta [heap logData slowJob]. unfold ptr in *. rewrite Hrec.
    reflexivity. }
  eexists. unfold leakRound.
  rewrite (run_cons _ _ _ _ _ E1), (run_cons _ _ _ _ _ E2), (run_cons _ _ _ _ _ E3),
    (run_cons _ _ _ _ _ E4), (run_cons _ _ _ _ _ E5), (run_cons _ _ _ _ _ E6),
    (run_cons _ _ _ _ _ E7), (run_cons _ _ _ _ _ E8), (run_cons _ _ _ _ _ E9),
    (run_cons _ _ _ _ _ E10).
  split; reflexivity.
Qed.

Lemma leak_rounds stopCh ds : ∀ hp cs t,
  ∃ acts evs cs' t',
    run acts (leakState stopCh hp cs t)
    = Some (evs, leakState stopCh (hp ++ ds) (cs ++ cs') t') ∧
    length cs' = length ds ∧ Forall (λ c, cstate c = CHung) cs' ∧
    length (timedOutCids evs) = length ds.
Proof.
  induction ds as [|d ds IH]; intros hp cs t.
  - exists [], [], [], t. rewrite !app_nil_r. split_and!; try done.
  - destruct (leak_round stopCh hp cs t d) as (e1 & Hr1 & Ht1).
    destruct (IH (hp ++ [d]) (cs ++ [mkCall (slowJob (length hp)) CHung]) (t + sendTimeout))
      as (acts & e2 & cs' & t' & Hr2 & Hlen & Hhung & Ht2).
    exists (leakRound d (length cs) ++ acts), (e1 ++ e2),
      (mkCall (slowJob (length hp)) CHung :: cs'), t'.
    split_and!.
    + rewrite run_app, Hr1, Hr2. by rewrite <- !app_assoc.
    + simpl. by rewrite Hlen.
    + by constructor.
    + unfold timedOutCids in *. rewrite omap_app, length_app, Ht1, Ht2. done.
Qed.

(** A goroutine stuck in [SendMsg] stays there whatever happens. *)
Lemma hung_step a s evs s' (cid : nat) j :
  exec a s = Some (evs, s') →
  calls s !! cid = Some (mkCall j CHung) → calls s' !! cid = Some (mkCall j CHung).
Proof.
  intros He Hc. exec_inv He; simpl; try done.
  - by apply lookup_app_l_Some.
  - rewrite list_lookup_insert_ne; [done|]. intros ->. congruence.
  - rewrite list_lookup_insert_ne; [done|]. intros ->. congruence.
Qed.

Lemma hung_run acts : ∀ s evs s' (cid : nat) j,
  run acts s = Some (evs, s') →
  calls s !! cid = Some (mkCall j CHung) → calls s' !! cid = Some (mkCall j CHung).
Proof.
  induction acts as [|a acts IH]; intros s evs s' cid j Hrun Hc.
  - simpl in Hrun. by simplify_eq.
  - simpl in Hrun. destruct (exec a s) as [[e1 s1]|] eqn:He; [|done].
    destruct (run acts s1) as [[e2 s2]|] eqn:Hr; [|done]. simplify_eq.
    eapply IH; [done|]. by eapply hung_step.
Qed.

(** X22. The timer frees the worker, not the goroutine.  For whatever
    records are logged to a service whose publisher never returns, there
    is a run in which every record has timed out, both queues are empty
    and every worker is back at the job channel, while for each record one
    goroutine is still inside [SendMsg]; and nothing that happens later
    moves these goroutines.  Their number grows with the number of records,
    without bound. *)
Theorem hanging_publisher_leaks_one_goroutine_per_record
    (stopCh : chan unit) (ds : list LogData) :
  ∃ acts evs s,
    run acts (init stopCh) = Some (evs, s) ∧ halted s = None ∧
    heap s = ds ∧ length (timedOutCids evs) = length ds ∧
    buf (inputCh (svc s)) = [] ∧ buf (jobCh (svc s)) = [] ∧
    workers s = replicate defaultNumWorkers WRange ∧
    length (calls s) = length ds ∧
    (∀ c, c ∈ calls s → cstate c = CHung) ∧
    ∀ acts' evs' s' (cid : nat) c,
      run acts' s = Some (evs', s') → calls s !! cid = Some c → calls s' !! cid = Some c.
Proof.
  destruct (leak_rounds stopCh ds [] [] 0) as (acts & evs & cs' & t' & Hr & Hlen & Hhung & Ht).
  exists ([AAddLogger "slow" (Some hangingPublisher); AStart] ++ acts), evs, 
    (leakState stopCh ds cs' t').
  split_and!; try done.
  - rewrite run_app, leak_start. simpl in Hr. by rewrite Hr.
  - by apply Forall_forall.
  - intros acts' evs' s' cid [j st] Hrun Hc. simpl in Hc.
    assert (st = CHung) as ->.
    { rewrite Forall_forall in Hhung. apply (Hhung (mkCall j st)).
      by eapply list_elem_of_lookup_2. }
    by eapply hung_run.
Qed.
